(** * Vector<T>: a shallow embedding of [vector.h] and its properties

    The container owns a raw array obtained from [new value_type[n]]; its
    members are [sz], [max_sz] and the pointer [values].  The embedding keeps
    this shape: a heap of arrays addressed by block number, pointers as
    block/offset pairs, [std::size_t] as [Z] with its wrap-around written out,
    and member functions as state transformers over the current object and
    the heap, with three outcomes: normal return, a thrown exception, and
    undefined behaviour.  A [const_reference] parameter is kept a reference:
    it designates an object of the caller or a slot of an array, and is read
    where the member function reads it. *)

From Stdlib Require Import ZArith Lia Ascii.
From stdpp Require Import base list numbers strings.

Open Scope Z_scope.

(** ** Machine integers *)

(** [std::size_t] is a 64-bit unsigned integer: arithmetic on it wraps. *)
Definition size_wrap (z : Z) : Z := z mod 2 ^ 64.

(** [PTRDIFF_MAX], the largest object size [new[]] accepts, in bytes. *)
Definition PTRDIFF_MAX : Z := 2 ^ 63 - 1.

(** ** Pointers *)

(** A pointer is null or designates the slot at offset [off] of the array
    allocated as block [b]. *)
Inductive pointer : Type :=
| nullptr
| Ptr (b : nat) (off : Z).

Global Instance pointer_eq_dec : EqDecision pointer.
Proof. solve_decision. Defined.

(** Exceptions the code can raise: the three [throw std::runtime_error{..}]
    and the exception of a failed [new[]]. *)
Inductive exn : Type :=
| runtime_error (what : string)
| bad_array_new_length.

(** Undefined behaviour, by cause. *)
Inductive ub : Type :=
| ReadOutOfBounds (p : pointer)
| WriteOutOfBounds (p : pointer)
| InvalidDelete (p : pointer)
| InvalidPointerArithmetic (p : pointer) (n : Z)
| InvalidPointerDifference (p q : pointer).

(** ** Iterators: a raw position each *)

Module Iterator.

Record t : Type := Make { ptr : pointer }.

(** [Iterator() = default]: [ptr = nullptr]. *)
Definition default : t := Make nullptr.

End Iterator.

Module ConstIterator.

Record t : Type := Make { ptr : pointer }.

(** [ConstIterator() = default]. *)
Definition default : t := Make nullptr.

End ConstIterator.

Section Vector.

Context {T : Type}.

(** [sizeof(value_type)], at least one byte. *)
Variable sizeof_T : positive.

(** A slot of an array holds a value or, after [new value_type[n]] without
    initialiser ("garbage for speed"), an indeterminate one ([None]).
    Assigning from a slot copies whatever it holds. *)
Local Abbreviation cell := (option T).

(** The heap: arrays in allocation order, [None] once deleted.  Block numbers
    are never reused. *)
Local Abbreviation heap := (list (option (list (option T)))).

(** The data members of a [Vector<T>] object. *)
Record Vector : Type := MkVector {
  sz : Z;
  max_sz : Z;
  values : pointer
}.

(** Member functions run on the object [this] and the heap. *)
Record state : Type := MkState {
  this : Vector;
  mem : heap
}.

Inductive outcome (A : Type) : Type :=
| Ok (a : A) (s : state)
| Throw (e : exn) (s : state)
| Undefined (u : ub).

Arguments Ok {A} a s.
Arguments Throw {A} e s.
Arguments Undefined {A} u.

Definition M (A : Type) : Type := state → outcome A.

Global Instance M_ret : MRet M := λ A a s, Ok a s.

Global Instance M_bind : MBind M := λ A B f m s,
  match m s with
  | Ok a s' => f a s'
  | Throw e s' => Throw e s'
  | Undefined u => Undefined u
  end.

Definition throw {A} (e : exn) : M A := λ s, Throw e s.
Definition undefined {A} (u : ub) : M A := λ _, Undefined u.

(** *** Data members *)

Definition get_sz : M Z := λ s, Ok (sz (this s)) s.
Definition get_max_sz : M Z := λ s, Ok (max_sz (this s)) s.
Definition get_values : M pointer := λ s, Ok (values (this s)) s.

Definition set_sz (n : Z) : M unit := λ s,
  Ok tt (MkState (MkVector n (max_sz (this s)) (values (this s))) (mem s)).
Definition set_max_sz (n : Z) : M unit := λ s,
  Ok tt (MkState (MkVector (sz (this s)) n (values (this s))) (mem s)).
Definition set_values (p : pointer) : M unit := λ s,
  Ok tt (MkState (MkVector (sz (this s)) (max_sz (this s)) p) (mem s)).

(** *** The heap *)

(** The live array a pointer points into. *)
Definition block_of (h : heap) (p : pointer) : option (list cell) :=
  match p with
  | nullptr => None
  | Ptr b _ => mjoin (h !! b)
  end.

(** The slot a pointer designates, when it is a slot of a live array. *)
Definition slot_of (h : heap) (p : pointer) : option cell :=
  match p with
  | nullptr => None
  | Ptr b off =>
      blk ← block_of h p;
      if 0 <=? off then blk !! Z.to_nat off else None
  end.

(** [p + n].  Defined for [nullptr + 0] and for results inside the array or
    one past its end. *)
Definition ptr_add (h : heap) (p : pointer) (n : Z) : option pointer :=
  match p with
  | nullptr => if n =? 0 then Some nullptr else None
  | Ptr b off =>
      blk ← block_of h p;
      if (0 <=? off + n) && (off + n <=? Z.of_nat (length blk))
      then Some (Ptr b (off + n)) else None
  end.

(** [p - q], a [ptrdiff_t].  Defined for two null pointers and for two
    pointers into the same array whose distance a [ptrdiff_t] can hold. *)
Definition ptr_diff (p q : pointer) : option Z :=
  match p, q with
  | nullptr, nullptr => Some 0
  | Ptr b1 o1, Ptr b2 o2 =>
      if decide (b1 = b2)
      then if (- 2 ^ 63 <=? o1 - o2) && (o1 - o2 <? 2 ^ 63)
           then Some (o1 - o2) else None
      else None
  | _, _ => None
  end.

(** [new value_type[n]]: throws when the array would exceed [PTRDIFF_MAX]
    bytes, else returns a fresh array of [n] indeterminate slots. *)
Definition new_array (n : Z) : M pointer := λ s,
  if PTRDIFF_MAX <? n * Z.pos sizeof_T then Throw bad_array_new_length s
  else Ok (Ptr (length (mem s)) 0)
          (MkState (this s) (mem s ++ [Some (replicate (Z.to_nat n) None)])).

(** [delete[] p]: nothing for [nullptr]; otherwise [p] must be the start of a
    live array, which dies. *)
Definition delete_array (p : pointer) : M unit := λ s,
  match p with
  | nullptr => Ok tt s
  | Ptr b off =>
      match block_of (mem s) p with
      | Some _ =>
          if off =? 0 then Ok tt (MkState (this s) (<[b := None]> (mem s)))
          else Undefined (InvalidDelete p)
      | None => Undefined (InvalidDelete p)
      end
  end.

(** [p[i]] as an lvalue: the pointer [p + i]. *)
Definition index (p : pointer) (i : Z) : M pointer := λ s,
  match ptr_add (mem s) p i with
  | Some q => Ok q s
  | None => Undefined (InvalidPointerArithmetic p i)
  end.

(** Reading through a pointer: it must designate a slot of a live array. *)
Definition load (p : pointer) : M cell := λ s,
  match slot_of (mem s) p with
  | Some c => Ok c s
  | None => Undefined (ReadOutOfBounds p)
  end.

(** Writing through a pointer, under the same condition. *)
Definition store (p : pointer) (c : cell) : M unit := λ s,
  match p with
  | nullptr => Undefined (WriteOutOfBounds p)
  | Ptr b off =>
      match block_of (mem s) p with
      | Some blk =>
          if (0 <=? off) && (off <? Z.of_nat (length blk))
          then Ok tt (MkState (this s)
                        (<[b := Some (<[Z.to_nat off := c]> blk)]> (mem s)))
          else Undefined (WriteOutOfBounds p)
      | None => Undefined (WriteOutOfBounds p)
      end
  end.

(** [dst[j] = src[i]] on elements: the right operand is read, then the left
    slot is written. *)
Definition assign_slot (dst : pointer) (j : Z) (src : pointer) (i : Z) : M unit :=
  q ← index src i;
  x ← load q;
  p ← index dst j;
  store p x.

(** What a [const_reference] parameter is bound to by the caller: an object
    that is no slot of an array of the heap (a temporary, a variable of the
    caller), or a slot of an array, which may be a slot of the container's
    own buffer, as in [v.push_back(v[0])]. *)
Inductive const_reference : Type :=
| ref_object (x : T)
| ref_slot (p : pointer).

(** Reading through a [const_reference], at the moment the callee does. *)
Definition read_ref (r : const_reference) : M cell :=
  match r with
  | ref_object x => mret (Some x)
  | ref_slot p => load p
  end.

(** [for (size_type i = i0; <n more iterations>; ++i) body(i)]: the loops of
    the source run over a range fixed at loop entry. *)
Fixpoint for_up (n : nat) (i : Z) (body : Z → M unit) : M unit :=
  match n with
  | O => mret tt
  | S n' => body i;; for_up n' (size_wrap (i + 1)) body
  end.

(** [for (size_t i = i0; <n more iterations>; --i) body(i)]. *)
Fixpoint for_down (n : nat) (i : Z) (body : Z → M unit) : M unit :=
  match n with
  | O => mret tt
  | S n' => body i;; for_down n' (size_wrap (i - 1)) body
  end.

(** Running a constructor for a new object: the caller's [this] is kept. *)
Definition construct (ctor : M unit) : M Vector := λ s,
  match ctor (MkState (MkVector 0 0 nullptr) (mem s)) with
  | Ok _ s' => Ok (this s') (MkState (this s) (mem s'))
  | Throw e s' => Throw e (MkState (this s) (mem s'))
  | Undefined u => Undefined u
  end.

(** Calling a member function on another object [obj]; returns the result and
    the object afterwards. *)
Definition on_object {A} (obj : Vector) (m : M A) : M (A * Vector) := λ s,
  match m (MkState obj (mem s)) with
  | Ok a s' => Ok (a, this s') (MkState (this s) (mem s'))
  | Throw e s' => Throw e (MkState (this s) (mem s'))
  | Undefined u => Undefined u
  end.

(** ** Iterator and ConstIterator *)

(** [explicit Iterator(pointer ptr_)], [operator const_iterator()]. *)
Definition Iterator_to_const (it : Iterator.t) : ConstIterator.t :=
  ConstIterator.Make (Iterator.ptr it).

(** [operator==] and [operator!=] compare the raw positions. *)
Definition Iterator_eq (it : Iterator.t) (other : ConstIterator.t) : bool :=
  bool_decide (Iterator.ptr it = ConstIterator.ptr other).
Definition Iterator_ne (it : Iterator.t) (other : ConstIterator.t) : bool :=
  negb (bool_decide (Iterator.ptr it = ConstIterator.ptr other)).
Definition ConstIterator_eq (it other : ConstIterator.t) : bool :=
  bool_decide (ConstIterator.ptr it = ConstIterator.ptr other).
Definition ConstIterator_ne (it other : ConstIterator.t) : bool :=
  negb (bool_decide (ConstIterator.ptr it = ConstIterator.ptr other)).

(** [friend difference_type operator-(lop, rop)]: [lop.ptr - rop.ptr]. *)
Definition ConstIterator_diff (lop rop : ConstIterator.t) : M Z := λ s,
  match ptr_diff (ConstIterator.ptr lop) (ConstIterator.ptr rop) with
  | Some d => Ok d s
  | None =>
      Undefined (InvalidPointerDifference (ConstIterator.ptr lop) (ConstIterator.ptr rop))
  end.

(** [operator*]: the slot at the cursor. *)
Definition Iterator_deref (it : Iterator.t) : M cell := load (Iterator.ptr it).
Definition ConstIterator_deref (it : ConstIterator.t) : M cell :=
  load (ConstIterator.ptr it).

(** [operator++()]: [++ptr; return *this].  The result is the iterator after
    the call. *)
Definition Iterator_pre_increment (it : Iterator.t) : M Iterator.t :=
  p ← index (Iterator.ptr it) 1;
  mret (Iterator.Make p).

Definition ConstIterator_pre_increment (it : ConstIterator.t) : M ConstIterator.t :=
  p ← index (ConstIterator.ptr it) 1;
  mret (ConstIterator.Make p).

(** [operator++(int)]: [iterator old; operator++(); return old].  The result
    is the returned iterator paired with the iterator after the call. *)
Definition Iterator_post_increment (it : Iterator.t) : M (Iterator.t * Iterator.t) :=
  let old := Iterator.default in
  it' ← Iterator_pre_increment it;
  mret (old, it').

Definition ConstIterator_post_increment (it : ConstIterator.t)
  : M (ConstIterator.t * ConstIterator.t) :=
  let old := ConstIterator.default in
  it' ← ConstIterator_pre_increment it;
  mret (old, it').

(** ** Vector: constructors, destructor, assignment *)

(** [Vector() = default], with the default member initialisers. *)
Definition Vector_default : M unit :=
  set_sz 0;; set_max_sz 0;; set_values nullptr.

(** [Vector(const Vector<T> &other)]. *)
Definition Vector_copy (other : Vector) : M unit :=
  set_sz (sz other);;
  set_max_sz (max_sz other);;
  p ← new_array (max_sz other);
  set_values p;;
  for_up (Z.to_nat (sz other)) 0 (λ i,
    v ← get_values;
    assign_slot v i (values other) i).

(** [explicit Vector(const size_type n)]. *)
Definition Vector_n (n : Z) : M unit :=
  set_sz 0;;
  set_max_sz n;;
  p ← new_array n;
  set_values p.

(** The range-for of the initialiser-list constructor:
    [values[i++] = el] for each [el]. *)
Fixpoint fill_from (il : list T) (i : Z) : M unit :=
  match il with
  | [] => mret tt
  | el :: rest =>
      v ← get_values;
      p ← index v i;
      store p (Some el);;
      fill_from rest (size_wrap (i + 1))
  end.

(** [Vector(const std::initializer_list<value_type> il)]. *)
Definition Vector_il (il : list T) : M unit :=
  set_sz (Z.of_nat (length il));;
  set_max_sz (Z.of_nat (length il));;
  p ← new_array (Z.of_nat (length il));
  set_values p;;
  fill_from il 0.

(** [~Vector()]. *)
Definition Vector_dtor : M unit :=
  v ← get_values;
  delete_array v.

(** [operator=(Vector<T> other)]: the parameter is copy-constructed from the
    argument, the three members are swapped with it, and it is destroyed on
    return. *)
Definition Vector_assign (arg : Vector) : M unit :=
  other ← construct (Vector_copy arg);
  a ← get_sz;
  set_sz (sz other);;
  b ← get_max_sz;
  set_max_sz (max_sz other);;
  c ← get_values;
  set_values (values other);;
  on_object (MkVector a b c) Vector_dtor;;
  mret tt.

(** ** Vector: member functions *)

Definition size : M Z := get_sz.

Definition empty : M bool := n ← get_sz; mret (n =? 0).

Definition capacity : M Z := get_max_sz.

Definition clear : M unit := set_sz 0.

Definition reallocate (new_size : Z) : M unit :=
  n ← get_sz;
  if new_size <? n then mret tt
  else
    tmp_array ← new_array new_size;
    for_up (Z.to_nat n) 0 (λ i,
      v ← get_values;
      assign_slot tmp_array i v i);;
    v ← get_values;
    delete_array v;;
    set_values tmp_array;;
    set_max_sz new_size.

Definition reserve (n : Z) : M unit :=
  m ← get_max_sz;
  if m <? n then reallocate n else mret tt.

Definition shrink_to_fit : M unit :=
  n ← get_sz;
  m ← get_max_sz;
  if n <? m then reallocate n else mret tt.

(** The growth request [max_sz + max_sz / 2 + 1], in [size_type]. *)
Definition grown (m : Z) : Z := size_wrap (size_wrap (m + m / 2) + 1).

(** [push_back(const_reference el)]: [el] is read by the assignment
    [values[sz++] = el], after the reallocation. *)
Definition push_back (el : const_reference) : M unit :=
  n ← get_sz;
  m ← get_max_sz;
  (if m <=? n then reallocate (grown m) else mret tt);;
  v ← get_values;
  n ← get_sz;
  x ← read_ref el;
  p ← index v n;
  set_sz (size_wrap (n + 1));;
  store p x.

Definition pop_back : M unit :=
  n ← get_sz;
  if n =? 0 then throw (runtime_error "Vector is empty")
  else set_sz (size_wrap (n - 1)).

(** [operator[]], both overloads: the result is the reference [values[index]]. *)
Definition subscript (i : Z) : M pointer :=
  n ← get_sz;
  if n <=? i then throw (runtime_error "Vector out of bounds")
  else v ← get_values; index v i.

(** [begin()] and [end()]: [iterator{values}], [iterator{values + sz}]. *)
Definition begin_ : M Iterator.t :=
  v ← get_values; mret (Iterator.Make v).

Definition end_ : M Iterator.t :=
  v ← get_values; n ← get_sz; p ← index v n; mret (Iterator.Make p).

(** [begin() const] and [end() const]. *)
Definition cbegin : M ConstIterator.t :=
  v ← get_values; mret (ConstIterator.Make v).

Definition cend : M ConstIterator.t :=
  v ← get_values; n ← get_sz; p ← index v n; mret (ConstIterator.Make p).

(** [insert(const_iterator pos, const_reference val)]: the position is
    turned into an offset from [begin()], checked, and only then is anything
    changed; [val] is read by the assignment [values[current] = val], after
    the reallocation and after the loop that shifts the elements. *)
Definition insert (pos : ConstIterator.t) (val : const_reference) : M Iterator.t :=
  b ← begin_;
  diff ← ConstIterator_diff pos (Iterator_to_const b);
  n ← get_sz;
  if (diff <? 0) || (n <? size_wrap diff)
  then throw (runtime_error "Iterator out of bounds")
  else
    let current := size_wrap diff in
    m ← get_max_sz;
    (if m <=? n then reallocate (grown m) else mret tt);;
    n ← get_sz;
    for_down (Z.to_nat (n - current)) n (λ i,
      v ← get_values;
      assign_slot v i v (size_wrap (i - 1)));;
    v ← get_values;
    x ← read_ref val;
    p ← index v current;
    store p x;;
    n ← get_sz;
    set_sz (size_wrap (n + 1));;
    v ← get_values;
    q ← index v current;
    mret (Iterator.Make q).

(** [erase]: the loop runs for [i] from [current] while [i < sz] and reads
    [values[i + 1]] at each turn. *)
Definition erase (pos : ConstIterator.t) : M Iterator.t :=
  b ← begin_;
  diff ← ConstIterator_diff pos (Iterator_to_const b);
  n ← get_sz;
  if (diff <? 0) || (n <=? size_wrap diff)
  then throw (runtime_error "Iterator out of bounds")
  else
    let current := size_wrap diff in
    for_up (Z.to_nat (n - current)) current (λ i,
      v ← get_values;
      assign_slot v i v (size_wrap (i + 1)));;
    n ← get_sz;
    set_sz (size_wrap (n - 1));;
    v ← get_values;
    q ← index v current;
    mret (Iterator.Make q).

(** ** Rendering: [operator<<] *)

(** What [operator<<] sends to the stream, one item per [<<]: a character, a
    string literal, or an element read from the buffer. *)
Inductive out_item : Type :=
| out_char (c : ascii)
| out_string (str : string)
| out_value (x : cell).

(** An ascending loop whose body writes to the stream: the items written, in
    order. *)
Fixpoint for_up_out (n : nat) (i : Z) (body : Z → M (list out_item))
  : M (list out_item) :=
  match n with
  | O => mret []
  | S n' =>
      o ← body i;
      rest ← for_up_out n' (size_wrap (i + 1)) body;
      mret (o ++ rest)
  end.

(** [operator<<(out, vec)], run on [vec]: the items written to [out].  The
    loop bound [vec.sz - 1] is [size_type] arithmetic. *)
Definition render : M (list out_item) :=
  e ← empty;
  if negb e then
    n ← get_sz;
    front ← for_up_out (Z.to_nat (size_wrap (n - 1))) 0 (λ i,
      v ← get_values;
      p ← index v i;
      x ← load p;
      mret [out_value x; out_string ", "]);
    v ← get_values;
    n ← get_sz;
    p ← index v (size_wrap (n - 1));
    x ← load p;
    mret ([out_char "["%char] ++ front ++ [out_value x; out_char "]"%char])
  else mret [out_char "["%char; out_char "]"%char].

(** ** Vocabulary of the properties *)

(** [repr v h l]: in heap [h] the object [v] is a container holding exactly
    the sequence [l].  Its buffer is a live array of [max_sz] slots owned from
    its start (or no array at all when [max_sz = 0]), of a size [new[]] can
    have served, and slots [0, sz) hold the elements of [l]. *)
Record repr (v : Vector) (h : heap) (l : list T) : Prop := {
  repr_size : sz v = Z.of_nat (length l);
  repr_capacity : sz v ≤ max_sz v;
  repr_limit : max_sz v * Z.pos sizeof_T ≤ PTRDIFF_MAX;
  repr_buffer :
    match values v with
    | nullptr => max_sz v = 0
    | Ptr b off =>
        off = 0 ∧
        ∃ blk, h !! b = Some (Some blk) ∧
               Z.of_nat (length blk) = max_sz v ∧
               ∀ (i : nat) (x : T), l !! i = Some x → blk !! i = Some (Some x)
    end
}.

Definition holds (s : state) (l : list T) : Prop := repr (this s) (mem s) l.

(** [s'] differs from [s] on the heap only in the buffer of [this s] and in
    arrays allocated since, and the buffer of [this s'] is that of [this s]
    or one of the latter. *)
Definition preserves (s s' : state) : Prop :=
  (length (mem s) ≤ length (mem s'))%nat ∧
  (values (this s') = values (this s) ∨
   ∃ b, values (this s') = Ptr b 0 ∧ (length (mem s) ≤ b)%nat) ∧
  ∀ b : nat, (b < length (mem s))%nat → values (this s) ≠ Ptr b 0 →
             mem s' !! b = mem s !! b.

(** [p] points into the array that is the container's buffer. *)
Definition into_buffer (s : state) (p : pointer) : Prop :=
  match p, values (this s) with
  | Ptr b _, Ptr b' _ => b = b'
  | _, _ => False
  end.

(** [v[i]] used as a value: the reference returned by [operator[]] is read. *)
Definition read_at (i : Z) : M cell :=
  p ← subscript i;
  load p.

(** A sequence of [push_back] calls, one per element, in order, each
    argument an object of the caller. *)
Fixpoint push_back_all (els : list T) : M unit :=
  match els with
  | [] => mret tt
  | el :: rest => push_back (ref_object el);; push_back_all rest
  end.

(** The mutating member functions, as calls with their arguments; a value
    argument is an object of the caller. *)
Inductive op : Type :=
| op_push_back (el : T)
| op_pop_back
| op_clear
| op_reserve (n : Z)
| op_shrink_to_fit
| op_insert (pos : ConstIterator.t) (val : T)
| op_erase (pos : ConstIterator.t).

Definition run_op (o : op) : M unit :=
  match o with
  | op_push_back el => push_back (ref_object el)
  | op_pop_back => pop_back
  | op_clear => clear
  | op_reserve n => reserve n
  | op_shrink_to_fit => shrink_to_fit
  | op_insert pos val => insert pos (ref_object val);; mret tt
  | op_erase pos => erase pos;; mret tt
  end.

(** A member function that never throws. *)
Definition no_throw {A} (m : M A) : Prop :=
  ∀ s e s', m s ≠ Throw e s'.

(** A member function that neither throws nor changes the state. *)
Definition read_only {A} (m : M A) : Prop :=
  ∀ s, match m s with
       | Ok _ s' => s' = s
       | Throw _ _ => False
       | Undefined _ => True
       end.

(** A member function that, when it throws, leaves the state as it was. *)
Definition strong {A} (m : M A) : Prop :=
  ∀ s e s', m s = Throw e s' → s' = s.

(** The states a container can be in: produced by a constructor (from another
    container, for the copy constructor), then taken through member
    functions that return or throw; arrays allocated for other objects in the
    meantime extend the heap.  The argument of [push_back] and [insert] is an
    object of the caller ([reach_op], [reach_throw]) or a slot of an array
    that holds a value, a slot of the container's own buffer included; with
    such a slot a call that throws leaves the state it was made in. *)
Inductive reachable : state → Prop :=
| reach_default s0 s :
    Vector_default s0 = Ok tt s → reachable s
| reach_n s0 n s :
    0 ≤ n → Vector_n n s0 = Ok tt s → reachable s
| reach_il s0 il s :
    Vector_il il s0 = Ok tt s → reachable s
| reach_copy s0 w s :
    reachable s0 → construct (Vector_copy (this s0)) s0 = Ok w s →
    reachable (MkState w (mem s))
| reach_assign s0 arg s :
    reachable s0 → reachable (MkState arg (mem s0)) →
    Vector_assign arg s0 = Ok tt s → reachable s
| reach_op s0 o s :
    reachable s0 → run_op o s0 = Ok tt s → reachable s
| reach_throw s0 o e s :
    reachable s0 → run_op o s0 = Throw e s → reachable s
| reach_alloc s0 blk :
    reachable s0 → reachable (MkState (this s0) (mem s0 ++ [Some blk]))
| reach_push_back_slot s0 p x s :
    reachable s0 → load p s0 = Ok (Some x) s0 →
    push_back (ref_slot p) s0 = Ok tt s → reachable s
| reach_insert_slot s0 pos p x it s :
    reachable s0 → load p s0 = Ok (Some x) s0 →
    insert pos (ref_slot p) s0 = Ok it s → reachable s.

(** The rendering of a sequence: its elements separated by [", "]. *)
Fixpoint separated (l : list T) : list out_item :=
  match l with
  | [] => []
  | x :: rest =>
      match rest with
      | [] => [out_value (Some x)]
      | _ :: _ => out_value (Some x) :: out_string ", " :: separated rest
      end
  end.

(** Which blocks of the heap are live arrays. *)
Definition shape (h : heap) : list bool :=
  (λ o, match o with Some _ => true | None => false end) <$> h.

(** A member function that, when it returns, has neither allocated nor
    deleted an array nor redirected or resized the container's buffer. *)
Definition in_place {A} (m : M A) : Prop :=
  ∀ s a s', m s = Ok a s' →
            shape (mem s') = shape (mem s) ∧
            values (this s') = values (this s) ∧
            max_sz (this s') = max_sz (this s).

(** How a call that returns has used the allocator: not at all, or for one
    new buffer, the previous one being deleted. *)
Definition allocation_effect (s s' : state) : Prop :=
  (shape (mem s') = shape (mem s) ∧
   values (this s') = values (this s) ∧
   max_sz (this s') = max_sz (this s)) ∨
  (values (this s') = Ptr (length (mem s)) 0 ∧
   shape (mem s') =
     match values (this s) with
     | nullptr => shape (mem s)
     | Ptr b _ => <[b := false]> (shape (mem s))
     end ++ [true]).

(** [v[i] = x]: a write through the reference [operator[]] returns. *)
Definition write_at (i : Z) (x : T) : M unit :=
  p ← subscript i;
  store p (Some x).

(** A caller's loop from [it] while [it != e], reading [*it] and then
    doing [++it], for at most [fuel] turns: the values read. *)
Fixpoint traverse (fuel : nat) (it e : ConstIterator.t) : M (list cell) :=
  match fuel with
  | O => mret []
  | S fuel' =>
      if ConstIterator_ne it e then
        x ← ConstIterator_deref it;
        it' ← ConstIterator_pre_increment it;
        rest ← traverse fuel' it' e;
        mret (x :: rest)
      else mret []
  end.

(** * Properties *)

(** ** Executing the primitives *)

Lemma bind_unfold {A B} (m : M A) (f : A → M B) (s : state) :
  (m ≫= f) s =
  match m s with
  | Ok a s' => f a s'
  | Throw e s' => Throw e s'
  | Undefined u => Undefined u
  end.
Proof. reflexivity. Qed.

Lemma size_wrap_small (z : Z) : 0 ≤ z < 2 ^ 64 → size_wrap z = z.
Proof. intros Hz. unfold size_wrap. apply Z.mod_small. exact Hz. Qed.

Lemma lookup_heap_old (h : heap) (x : option (list cell)) (b : nat) :
  (b < length h)%nat → (h ++ [x]) !! b = h !! b.
Proof. intros Hb. apply lookup_app_l. exact Hb. Qed.

Lemma lookup_heap_new (h : heap) (x : option (list cell)) :
  (h ++ [x]) !! length h = Some x.
Proof. rewrite lookup_app_r by lia. by rewrite Nat.sub_diag. Qed.

Lemma lookup_live_lt (h : heap) (b : nat) (blk : list cell) :
  h !! b = Some (Some blk) → (b < length h)%nat.
Proof. intros Hb. eapply lookup_lt_Some. exact Hb. Qed.

Lemma index_Ptr v (h : heap) b blk off i :
  h !! b = Some (Some blk) →
  0 ≤ off + i ≤ Z.of_nat (length blk) →
  index (Ptr b off) i (MkState v h) = Ok (Ptr b (off + i)) (MkState v h).
Proof.
  intros Hb Hi. unfold index, ptr_add. cbn. rewrite Hb. cbn.
  destruct (Z.leb_spec 0 (off + i)); [|lia].
  destruct (Z.leb_spec (off + i) (Z.of_nat (length blk))); [|lia].
  reflexivity.
Qed.

Lemma index_nullptr (s : state) : index nullptr 0 s = Ok nullptr s.
Proof. reflexivity. Qed.

Lemma load_Ptr v (h : heap) b blk off c :
  h !! b = Some (Some blk) →
  0 ≤ off →
  blk !! Z.to_nat off = Some c →
  load (Ptr b off) (MkState v h) = Ok c (MkState v h).
Proof.
  intros Hb Hoff Hc. unfold load, slot_of. cbn. rewrite Hb. cbn.
  destruct (Z.leb_spec 0 off); [|lia]. by rewrite Hc.
Qed.

Lemma load_past_end v (h : heap) b blk off :
  h !! b = Some (Some blk) →
  Z.of_nat (length blk) ≤ off →
  load (Ptr b off) (MkState v h) = Undefined (ReadOutOfBounds (Ptr b off)).
Proof.
  intros Hb Hoff. unfold load, slot_of. cbn. rewrite Hb. cbn.
  destruct (Z.leb_spec 0 off); [|lia].
  rewrite lookup_ge_None_2 by lia. reflexivity.
Qed.

Lemma store_Ptr v (h : heap) b blk off c :
  h !! b = Some (Some blk) →
  0 ≤ off < Z.of_nat (length blk) →
  store (Ptr b off) c (MkState v h) =
  Ok tt (MkState v (<[b := Some (<[Z.to_nat off := c]> blk)]> h)).
Proof.
  intros Hb Hoff. unfold store. cbn. rewrite Hb. cbn.
  destruct (Z.leb_spec 0 off); [|lia].
  destruct (Z.ltb_spec off (Z.of_nat (length blk))); [|lia].
  reflexivity.
Qed.

Lemma assign_slot_Ptr v (h : heap) bd blkd j bs blks i c :
  h !! bs = Some (Some blks) →
  h !! bd = Some (Some blkd) →
  0 ≤ i →
  blks !! Z.to_nat i = Some c →
  0 ≤ j < Z.of_nat (length blkd) →
  assign_slot (Ptr bd 0) j (Ptr bs 0) i (MkState v h) =
  Ok tt (MkState v (<[bd := Some (<[Z.to_nat j := c]> blkd)]> h)).
Proof.
  intros Hs Hd Hi Hc Hj. unfold assign_slot.
  apply lookup_lt_Some in Hc as Hlt.
  rewrite bind_unfold, (index_Ptr _ _ _ blks) by (done || lia).
  rewrite bind_unfold, (load_Ptr _ _ _ blks _ c) by (done || lia).
  rewrite bind_unfold, (index_Ptr _ _ _ blkd) by (done || lia).
  by apply store_Ptr.
Qed.

Lemma new_array_ok v (h : heap) n :
  n * Z.pos sizeof_T ≤ PTRDIFF_MAX →
  new_array n (MkState v h) =
  Ok (Ptr (length h) 0) (MkState v (h ++ [Some (replicate (Z.to_nat n) None)])).
Proof.
  intros Hn. unfold new_array. cbn.
  destruct (Z.ltb_spec PTRDIFF_MAX (n * Z.pos sizeof_T)); [lia|]. reflexivity.
Qed.

Lemma new_array_throw (s : state) n :
  PTRDIFF_MAX < n * Z.pos sizeof_T →
  new_array n s = Throw bad_array_new_length s.
Proof.
  intros Hn. unfold new_array.
  destruct (Z.ltb_spec PTRDIFF_MAX (n * Z.pos sizeof_T)); [|lia]. reflexivity.
Qed.

Lemma delete_array_Ptr v (h : heap) b blk :
  h !! b = Some (Some blk) →
  delete_array (Ptr b 0) (MkState v h) = Ok tt (MkState v (<[b := None]> h)).
Proof. intros Hb. unfold delete_array. cbn. by rewrite Hb. Qed.

(** ** The three loops *)

(** The element-copy loop of [reallocate] and of the copy constructor: slots
    [i, i + n) of the destination array receive those of the source. *)
Lemma copy_loop (body : Z → M unit) v bd bs (blks : list cell) (n : nat) :
  ∀ (i : Z) (h : heap) (blkd : list cell),
    (∀ j h', body j (MkState v h') =
             assign_slot (Ptr bd 0) j (Ptr bs 0) j (MkState v h')) →
    bd ≠ bs →
    h !! bs = Some (Some blks) →
    h !! bd = Some (Some blkd) →
    0 ≤ i →
    i + Z.of_nat n ≤ Z.of_nat (length blks) →
    i + Z.of_nat n ≤ Z.of_nat (length blkd) →
    i + Z.of_nat n < 2 ^ 64 →
    ∃ blkd',
      for_up n i body (MkState v h) = Ok tt (MkState v (<[bd := Some blkd']> h)) ∧
      length blkd' = length blkd ∧
      ∀ j : nat, blkd' !! j =
                 if decide (i ≤ Z.of_nat j < i + Z.of_nat n) then blks !! j else blkd !! j.
Proof.
  induction n as [|n IH]; intros i h blkd Hbody Hne Hs Hd Hi Hls Hld Hw.
  - exists blkd. cbn. rewrite list_insert_id by done. split_and!; [done..|].
    intros j. case_decide; [lia|done].
  - destruct (lookup_lt_is_Some_2 blks (Z.to_nat i)) as [c Hc]; [lia|].
    cbn [for_up]. rewrite bind_unfold, Hbody.
    rewrite (assign_slot_Ptr _ _ _ blkd _ _ blks _ c) by (done || lia).
    rewrite size_wrap_small by lia.
    pose proof (lookup_live_lt _ _ _ Hd) as Hbd.
    destruct (IH (i + 1) (<[bd := Some (<[Z.to_nat i := c]> blkd)]> h)
                (<[Z.to_nat i := c]> blkd)) as (blkd' & Hrun & Hlen & Hlook).
    + exact Hbody.
    + exact Hne.
    + by rewrite list_lookup_insert_ne.
    + by rewrite list_lookup_insert_eq.
    + lia.
    + lia.
    + rewrite length_insert. lia.
    + lia.
    + exists blkd'. rewrite Hrun, list_insert_insert_eq.
      rewrite length_insert in Hlen. split_and!; [done..|].
      intros j. rewrite Hlook.
      destruct (decide (j = Z.to_nat i)) as [->|Hj].
      * rewrite list_lookup_insert_eq by lia.
        repeat case_decide; try lia. by rewrite Hc.
      * rewrite list_lookup_insert_ne by done.
        repeat case_decide; try lia; done.
Qed.

(** The loop of [erase]: [values[j] = values[j + 1]] for [j] from [i], [n]
    times.  It reads slot [i + n]. *)
Lemma shift_down_loop (body : Z → M unit) v b (n : nat) :
  ∀ (i : Z) (h : heap) (blk : list cell),
    (∀ j h', body j (MkState v h') =
             assign_slot (Ptr b 0) j (Ptr b 0) (size_wrap (j + 1)) (MkState v h')) →
    h !! b = Some (Some blk) →
    0 ≤ i →
    (n = O ∨ i + Z.of_nat n < Z.of_nat (length blk)) →
    i + Z.of_nat n < 2 ^ 64 →
    ∃ blk',
      for_up n i body (MkState v h) = Ok tt (MkState v (<[b := Some blk']> h)) ∧
      length blk' = length blk ∧
      ∀ j : nat, blk' !! j =
                 if decide (i ≤ Z.of_nat j < i + Z.of_nat n) then blk !! S j else blk !! j.
Proof.
  induction n as [|n IH]; intros i h blk Hbody Hb Hi Hl Hw.
  - exists blk. cbn. rewrite list_insert_id by done. split_and!; [done..|].
    intros j. case_decide; [lia|done].
  - destruct Hl as [|Hl]; [done|].
    destruct (lookup_lt_is_Some_2 blk (Z.to_nat (i + 1))) as [c Hc]; [lia|].
    cbn [for_up]. rewrite bind_unfold, Hbody.
    rewrite (size_wrap_small (i + 1)) by lia.
    rewrite (assign_slot_Ptr _ _ _ blk _ _ blk _ c) by (done || lia).
    pose proof (lookup_live_lt _ _ _ Hb) as Hbd.
    destruct (IH (i + 1) (<[b := Some (<[Z.to_nat i := c]> blk)]> h)
                (<[Z.to_nat i := c]> blk)) as (blk' & Hrun & Hlen & Hlook).
    + exact Hbody.
    + by rewrite list_lookup_insert_eq.
    + lia.
    + right. rewrite length_insert. lia.
    + lia.
    + exists blk'. rewrite Hrun, list_insert_insert_eq.
      rewrite length_insert in Hlen. split_and!; [done..|].
      intros j. rewrite Hlook.
      replace (Z.to_nat (i + 1)) with (S (Z.to_nat i)) in Hc by lia.
      destruct (decide (j = Z.to_nat i)) as [->|Hj].
      * rewrite list_lookup_insert_eq by lia.
        repeat case_decide; try lia. by rewrite Hc.
      * repeat case_decide; try lia.
        -- rewrite list_lookup_insert_ne by lia. done.
        -- rewrite list_lookup_insert_ne by lia. done.
Qed.

(** The loop of [insert]: [values[j] = values[j - 1]] for [j] from [i] down,
    [n] times. *)
Lemma shift_up_loop (body : Z → M unit) v b (n : nat) :
  ∀ (i : Z) (h : heap) (blk : list cell),
    (∀ j h', body j (MkState v h') =
             assign_slot (Ptr b 0) j (Ptr b 0) (size_wrap (j - 1)) (MkState v h')) →
    h !! b = Some (Some blk) →
    Z.of_nat n ≤ i →
    (n = O ∨ i < Z.of_nat (length blk)) →
    i < 2 ^ 64 →
    ∃ blk',
      for_down n i body (MkState v h) = Ok tt (MkState v (<[b := Some blk']> h)) ∧
      length blk' = length blk ∧
      ∀ j : nat, blk' !! j =
                 if decide (i - Z.of_nat n < Z.of_nat j ≤ i) then blk !! pred j else blk !! j.
Proof.
  induction n as [|n IH]; intros i h blk Hbody Hb Hi Hl Hw.
  - exists blk. cbn. rewrite list_insert_id by done. split_and!; [done..|].
    intros j. case_decide; [lia|done].
  - destruct Hl as [|Hl]; [done|].
    destruct (lookup_lt_is_Some_2 blk (Z.to_nat (i - 1))) as [c Hc]; [lia|].
    cbn [for_down]. rewrite bind_unfold, Hbody.
    rewrite (size_wrap_small (i - 1)) by lia.
    rewrite (assign_slot_Ptr _ _ _ blk _ _ blk _ c) by (done || lia).
    pose proof (lookup_live_lt _ _ _ Hb) as Hbd.
    destruct (IH (i - 1) (<[b := Some (<[Z.to_nat i := c]> blk)]> h)
                (<[Z.to_nat i := c]> blk)) as (blk' & Hrun & Hlen & Hlook).
    + exact Hbody.
    + by rewrite list_lookup_insert_eq.
    + lia.
    + right. rewrite length_insert. lia.
    + lia.
    + exists blk'. rewrite Hrun, list_insert_insert_eq.
      rewrite length_insert in Hlen. split_and!; [done..|].
      intros j. rewrite Hlook.
      replace (Z.to_nat (i - 1)) with (pred (Z.to_nat i)) in Hc by lia.
      destruct (decide (j = Z.to_nat i)) as [->|Hj].
      * rewrite list_lookup_insert_eq by lia.
        repeat case_decide; try lia. by rewrite Hc.
      * repeat case_decide; try lia.
        -- rewrite list_lookup_insert_ne by lia. done.
        -- rewrite list_lookup_insert_ne by lia. done.
Qed.

(** ** Running member functions on explicit states *)

Lemma limit_lt (m : Z) : m * Z.pos sizeof_T ≤ PTRDIFF_MAX → m < 2 ^ 63.
Proof. unfold PTRDIFF_MAX. nia. Qed.

Lemma get_sz_eq v (h : heap) : get_sz (MkState v h) = Ok (sz v) (MkState v h).
Proof. reflexivity. Qed.
Lemma get_max_sz_eq v (h : heap) : get_max_sz (MkState v h) = Ok (max_sz v) (MkState v h).
Proof. reflexivity. Qed.
Lemma get_values_eq v (h : heap) : get_values (MkState v h) = Ok (values v) (MkState v h).
Proof. reflexivity. Qed.
Lemma set_sz_eq n v (h : heap) :
  set_sz n (MkState v h) = Ok tt (MkState (MkVector n (max_sz v) (values v)) h).
Proof. reflexivity. Qed.
Lemma set_max_sz_eq n v (h : heap) :
  set_max_sz n (MkState v h) = Ok tt (MkState (MkVector (sz v) n (values v)) h).
Proof. reflexivity. Qed.
Lemma set_values_eq p v (h : heap) :
  set_values p (MkState v h) = Ok tt (MkState (MkVector (sz v) (max_sz v) p) h).
Proof. reflexivity. Qed.
Lemma mret_eq {A} (a : A) (s : state) : (mret a : M A) s = Ok a s.
Proof. reflexivity. Qed.
Lemma read_ref_object_eq (x : T) (s : state) :
  read_ref (ref_object x) s = Ok (Some x) s.
Proof. reflexivity. Qed.

Ltac run :=
  repeat first
    [ rewrite bind_unfold
    | rewrite get_sz_eq | rewrite get_max_sz_eq | rewrite get_values_eq
    | rewrite set_sz_eq | rewrite set_max_sz_eq | rewrite set_values_eq
    | rewrite mret_eq | rewrite read_ref_object_eq
    | progress cbn [this mem sz max_sz values] ].

Lemma insert_heap_new (h : heap) (x y : option (list cell)) :
  <[length h := y]> (h ++ [x]) = h ++ [y].
Proof. rewrite insert_app_r_alt by lia. by rewrite Nat.sub_diag. Qed.

Lemma reallocate_ok (s : state) (l : list T) (new_size : Z) :
  holds s l →
  sz (this s) ≤ new_size →
  new_size * Z.pos sizeof_T ≤ PTRDIFF_MAX →
  ∃ blk,
    reallocate new_size s =
      Ok tt (MkState (MkVector (sz (this s)) new_size (Ptr (length (mem s)) 0))
               (match values (this s) with
                | nullptr => mem s | Ptr b _ => <[b := None]> (mem s) end ++ [Some blk])) ∧
    Z.of_nat (length blk) = new_size ∧
    ∀ (i : nat) (x : T), l !! i = Some x → blk !! i = Some (Some x).
Proof.
  destruct s as [[n m v] h]. intros [Hsz Hcap Hlim Hbuf] Hn Hnew. cbn in *.
  pose proof (limit_lt _ Hlim). pose proof (limit_lt _ Hnew).
  unfold reallocate. run.
  destruct (Z.ltb_spec new_size n); [lia|].
  run. rewrite new_array_ok by done. run.
  destruct v as [|b off].
  - assert (n = 0) as -> by lia. cbn [Z.to_nat for_up]. run.
    unfold delete_array. run.
    exists (replicate (Z.to_nat new_size) None). split_and!; [done| |].
    + rewrite length_replicate. lia.
    + intros i x Hx. apply lookup_lt_Some in Hx. lia.
  - destruct Hbuf as (-> & blk0 & Hb & Hlen & Hel).
    pose proof (lookup_live_lt _ _ _ Hb) as Hlt.
    destruct (copy_loop
                (λ i, v0 ← get_values; assign_slot (Ptr (length h) 0) i v0 i)
                (MkVector n m (Ptr b 0)) (length h) b blk0 (Z.to_nat n) 0
                (h ++ [Some (replicate (Z.to_nat new_size) None)])
                (replicate (Z.to_nat new_size) None))
      as (blk & Hrun & Hlen' & Hlook).
    + intros j h'. by run.
    + lia.
    + by rewrite lookup_heap_old.
    + apply lookup_heap_new.
    + lia.
    + lia.
    + rewrite length_replicate. lia.
    + lia.
    + rewrite Hrun, insert_heap_new. run.
      rewrite (delete_array_Ptr _ _ _ blk0) by (by rewrite lookup_heap_old).
      run. rewrite insert_app_l by done.
      exists blk. split_and!; [done| |].
      * rewrite Hlen', length_replicate. lia.
      * intros i x Hx. rewrite Hlook.
        apply lookup_lt_Some in Hx as Hi.
        case_decide; [|lia]. by apply Hel.
Qed.

Lemma reallocate_small (s : state) (new_size : Z) :
  new_size < sz (this s) → reallocate new_size s = Ok tt s.
Proof.
  destruct s as [[n m v] h]. cbn. intros Hn. unfold reallocate. run.
  destruct (Z.ltb_spec new_size n); [|lia]. by run.
Qed.

Lemma reallocate_throw (s : state) (new_size : Z) :
  sz (this s) ≤ new_size →
  PTRDIFF_MAX < new_size * Z.pos sizeof_T →
  reallocate new_size s = Throw bad_array_new_length s.
Proof.
  destruct s as [[n m v] h]. cbn. intros Hn Hbig. unfold reallocate. run.
  destruct (Z.ltb_spec new_size n); [lia|].
  run. by rewrite new_array_throw.
Qed.

(** [reallocate] to a size that fits, in terms of the invariant. *)
Lemma reallocate_holds (s : state) (l : list T) (new_size : Z) :
  holds s l →
  sz (this s) ≤ new_size →
  new_size * Z.pos sizeof_T ≤ PTRDIFF_MAX →
  ∃ s',
    reallocate new_size s = Ok tt s' ∧
    holds s' l ∧
    preserves s s' ∧
    sz (this s') = sz (this s) ∧
    max_sz (this s') = new_size.
Proof.
  intros Hs Hn Hfit. pose proof Hs as [Hsz Hcap Hlim Hbuf].
  destruct (reallocate_ok s l new_size Hs Hn Hfit) as (blk & Hrun & Hlen & Hel).
  eexists. split; [exact Hrun|].
  assert (length (match values (this s) with
                  | nullptr => mem s | Ptr b _ => <[b:=None]> (mem s) end)
          = length (mem s)) as Hlh
    by (destruct (values (this s)); [done|apply length_insert]).
  split_and!; cbn [this mem sz max_sz values]; try done.
  - split; cbn [this mem sz max_sz values]; [done..|].
    split; [done|]. exists blk. split; [|done].
    rewrite <- Hlh. apply lookup_heap_new.
  - split_and!; cbn [this mem sz max_sz values].
    + rewrite length_app, Hlh. cbn. lia.
    + right. eexists. split; [done|lia].
    + intros b Hb Hne. rewrite lookup_app_l by lia.
      destruct (values (this s)) as [|b0 off0] eqn:Hv; [done|].
      destruct Hbuf as (-> & _).
      rewrite list_lookup_insert_ne; [done|]. congruence.
Qed.

Lemma preserves_refl (s : state) : preserves s s.
Proof. split_and!; [lia|by left|done]. Qed.

Lemma preserves_trans (s1 s2 s3 : state) :
  preserves s1 s2 → preserves s2 s3 → preserves s1 s3.
Proof.
  intros (Hl1 & Hv1 & Hf1) (Hl2 & Hv2 & Hf2). split_and!.
  - lia.
  - destruct Hv2 as [->|(b & -> & Hb)]; [exact Hv1|].
    right. exists b. split; [done|lia].
  - intros b Hb Hne. rewrite <- Hf1 by done. apply Hf2; [lia|].
    destruct Hv1 as [->|(b' & -> & Hb')]; [done|].
    intros [= ->]. lia.
Qed.

(** Another container's representation survives whatever [preserves] allows,
    as long as the two do not share a buffer. *)
Lemma repr_preserved (s s' : state) (w : Vector) (l : list T) :
  preserves s s' →
  repr w (mem s) l →
  values w = nullptr ∨ values w ≠ values (this s) →
  repr w (mem s') l.
Proof.
  intros (Hl & Hv & Hf) [Hsz Hcap Hlim Hbuf] Hsep.
  split; [done..|].
  destruct (values w) as [|b off]; [done|].
  destruct Hbuf as (-> & blk & Hb & Hrest). split; [done|].
  exists blk. split; [|done].
  rewrite Hf; [done|by eapply lookup_live_lt|].
  destruct Hsep as [|Hsep]; [done|]. congruence.
Qed.

Lemma grown_small (m : Z) : 0 ≤ m < 2 ^ 63 → grown m = m + m / 2 + 1.
Proof.
  intros Hm. unfold grown.
  assert (0 ≤ m / 2 < 2 ^ 63) by (split; [apply Z.div_pos; lia|apply Z.div_lt_upper_bound; lia]).
  rewrite (size_wrap_small (m + m / 2)) by lia.
  apply size_wrap_small. lia.
Qed.

(** The growth step shared by [push_back] and [insert]:
    [if (sz >= max_sz) reallocate(max_sz + max_sz / 2 + 1)]. *)
Lemma grow_step (s : state) (l : list T) :
  holds s l →
  (max_sz (this s) ≤ sz (this s) →
   grown (max_sz (this s)) * Z.pos sizeof_T ≤ PTRDIFF_MAX) →
  ∃ s1,
    (if max_sz (this s) <=? sz (this s)
     then reallocate (grown (max_sz (this s))) else mret tt) s = Ok tt s1 ∧
    holds s1 l ∧
    preserves s s1 ∧
    sz (this s1) = sz (this s) ∧
    sz (this s1) < max_sz (this s1) ∧
    max_sz (this s1) =
      (if max_sz (this s) <=? sz (this s)
       then max_sz (this s) + max_sz (this s) / 2 + 1 else max_sz (this s)).
Proof.
  intros Hs Hlim.
  destruct (Z.leb_spec (max_sz (this s)) (sz (this s))) as [Hfull|Hroom].
  - pose proof Hs as [Hsz Hcap Hlim' Hbuf].
    pose proof (limit_lt _ Hlim').
    specialize (Hlim Hfull). rewrite grown_small in * by lia.
    assert (0 ≤ max_sz (this s) / 2) by (apply Z.div_pos; lia).
    destruct (reallocate_holds s l (max_sz (this s) + max_sz (this s) / 2 + 1))
      as (s1 & Hrun & Hs1 & Hp1 & Hsz1 & Hmax1); [done|lia|done|].
    exists s1. split_and!; [done..|lia|done].
  - exists s. split_and!; try done. apply preserves_refl.
Qed.

(** The tail of [push_back]: [values[sz++] = el], with room for it, [el]
    being an object of the caller. *)
Lemma append_slot (s : state) (l : list T) (el : T) :
  holds s l →
  sz (this s) < max_sz (this s) →
  ∃ s',
    (v ← get_values; n ← get_sz; x ← read_ref (ref_object el); p ← index v n;
     set_sz (size_wrap (n + 1));; store p x) s = Ok tt s' ∧
    holds s' (l ++ [el]) ∧
    preserves s s' ∧
    max_sz (this s') = max_sz (this s).
Proof.
  destruct s as [[n m v] h]. intros [Hsz Hcap Hlim Hbuf] Hroom. cbn in *.
  pose proof (limit_lt _ Hlim).
  destruct v as [|b off]; [lia|].
  destruct Hbuf as (-> & blk & Hb & Hlen & Hel).
  pose proof (lookup_live_lt _ _ _ Hb) as Hlt.
  run. rewrite (index_Ptr _ _ _ blk) by (done || lia).
  run. rewrite size_wrap_small by lia.
  rewrite (store_Ptr _ _ _ blk) by (done || lia).
  eexists. split; [done|]. split_and!; cbn [this mem sz max_sz values]; try done.
  - split; cbn [this mem sz max_sz values].
    + rewrite length_app. cbn. lia.
    + lia.
    + done.
    + split; [done|]. eexists. split; [by apply list_lookup_insert_eq|].
      rewrite length_insert. split; [done|].
      intros i x Hx. apply lookup_app_Some in Hx as [Hx|[Hi Hx]].
      * apply lookup_lt_Some in Hx as Hi.
        rewrite list_lookup_insert_ne by lia. by apply Hel.
      * apply list_lookup_singleton_Some in Hx as [Hi0 ->].
        replace i with (Z.to_nat (0 + n)) by lia.
        rewrite list_lookup_insert_eq by lia. done.
  - split_and!; cbn [this mem sz max_sz values].
    + by rewrite length_insert.
    + by left.
    + intros b' Hb' Hne. rewrite list_lookup_insert_ne; [done|]. congruence.
Qed.

Lemma push_back_ok (s : state) (l : list T) (el : T) :
  holds s l →
  (max_sz (this s) ≤ sz (this s) →
   grown (max_sz (this s)) * Z.pos sizeof_T ≤ PTRDIFF_MAX) →
  ∃ s',
    push_back (ref_object el) s = Ok tt s' ∧
    holds s' (l ++ [el]) ∧
    preserves s s' ∧
    max_sz (this s') =
      (if max_sz (this s) <=? sz (this s)
       then max_sz (this s) + max_sz (this s) / 2 + 1 else max_sz (this s)).
Proof.
  intros Hs Hlim.
  destruct (grow_step s l Hs Hlim) as (s1 & Hrun & Hs1 & Hp1 & Hsz1 & Hroom & Hmax).
  destruct (append_slot s1 l el Hs1 Hroom) as (s' & Hrun' & Hs' & Hp' & Hmax').
  exists s'. split_and!.
  - destruct s as [[n m v] h]. unfold push_back. run.
    cbn [this mem sz max_sz values] in Hrun. rewrite Hrun. exact Hrun'.
  - done.
  - by eapply preserves_trans.
  - congruence.
Qed.

Lemma push_back_throw (s : state) (el : const_reference) :
  max_sz (this s) ≤ sz (this s) →
  sz (this s) ≤ grown (max_sz (this s)) →
  PTRDIFF_MAX < grown (max_sz (this s)) * Z.pos sizeof_T →
  push_back el s = Throw bad_array_new_length s.
Proof.
  intros Hfull Hge Hbig. destruct s as [[n m v] h]. cbn in *.
  unfold push_back. run.
  destruct (Z.leb_spec m n); [|lia].
  by rewrite reallocate_throw.
Qed.

(** The tail of [insert]: shift, write, count, and form the result. *)
Lemma insert_slot (s : state) (l : list T) (current : Z) (val : T) :
  holds s l →
  sz (this s) < max_sz (this s) →
  0 ≤ current ≤ sz (this s) →
  ∃ s' q,
    (n ← get_sz;
     for_down (Z.to_nat (n - current)) n (λ i,
       v ← get_values;
       assign_slot v i v (size_wrap (i - 1)));;
     v ← get_values;
     x ← read_ref (ref_object val);
     p ← index v current;
     store p x;;
     n ← get_sz;
     set_sz (size_wrap (n + 1));;
     v ← get_values;
     q ← index v current;
     mret (Iterator.Make q)) s = Ok (Iterator.Make q) s' ∧
    holds s' (take (Z.to_nat current) l ++ val :: drop (Z.to_nat current) l) ∧
    preserves s s' ∧
    max_sz (this s') = max_sz (this s) ∧
    ptr_add (mem s') (values (this s')) current = Some q.
Proof.
  destruct s as [[n m v] h]. intros [Hsz Hcap Hlim Hbuf] Hroom Hcur. cbn in *.
  pose proof (limit_lt _ Hlim).
  destruct v as [|b off]; [lia|].
  destruct Hbuf as (-> & blk & Hb & Hlen & Hel).
  pose proof (lookup_live_lt _ _ _ Hb) as Hlt.
  destruct (shift_up_loop
              (λ i, v ← get_values; assign_slot v i v (size_wrap (i - 1)))
              (MkVector n m (Ptr b 0)) b (Z.to_nat (n - current)) n h blk)
    as (blk' & Hrun & Hlen' & Hlook); [by intros; run|done|lia|lia|lia|].
  run. rewrite Hrun. run.
  assert (<[b:=Some blk']> h !! b = Some (Some blk')) as Hb'
    by (by apply list_lookup_insert_eq).
  rewrite (index_Ptr _ _ _ blk') by (done || lia). run.
  rewrite (store_Ptr _ _ _ blk') by (done || lia). run.
  rewrite list_insert_insert_eq.
  rewrite size_wrap_small by lia.
  set (blk'' := <[Z.to_nat (0 + current):=Some val]> blk').
  assert (<[b:=Some blk'']> h !! b = Some (Some blk'')) as Hb''
    by (by apply list_lookup_insert_eq).
  assert (length blk'' = length blk) as Hlen''
    by (unfold blk''; by rewrite length_insert).
  rewrite (index_Ptr _ _ _ blk'') by (done || lia). run.
  eexists _, _. split; [done|].
  split_and!; cbn [this mem sz max_sz values].
  - split; cbn [this mem sz max_sz values].
    + rewrite length_app, length_take. cbn. rewrite length_drop. lia.
    + lia.
    + done.
    + split; [done|]. exists blk''. split_and!; [done|lia|].
      intros i x Hx. unfold blk''.
      destruct (decide (i = Z.to_nat current)) as [->|Hne].
      * rewrite lookup_app_r in Hx by (rewrite length_take; lia).
        rewrite length_take in Hx.
        replace (Z.to_nat current - Z.to_nat current `min` length l)%nat with O in Hx by lia.
        cbn in Hx. injection Hx as <-.
        replace (Z.to_nat (0 + current)) with (Z.to_nat current) by lia.
        by rewrite list_lookup_insert_eq by lia.
      * rewrite list_lookup_insert_ne by lia. rewrite Hlook.
        destruct (decide (i < Z.to_nat current)%nat) as [Hlo|Hhi].
        -- rewrite lookup_app_l in Hx by (rewrite length_take; lia).
           rewrite lookup_take_lt in Hx by done.
           case_decide; [lia|]. by apply Hel.
        -- rewrite lookup_app_r in Hx by (rewrite length_take; lia).
           rewrite length_take in Hx.
           rewrite lookup_cons_ne_0, lookup_drop in Hx by lia.
           replace (Z.to_nat current + pred (i - Z.to_nat current `min` length l))%nat
             with (pred i) in Hx by lia.
           apply lookup_lt_Some in Hx as Hi.
           case_decide; [|lia]. by apply Hel.
  - split_and!; cbn [this mem sz max_sz values].
    + by rewrite length_insert.
    + by left.
    + intros b' Hlt' Hne. rewrite list_lookup_insert_ne; [done|]. congruence.
  - done.
  - unfold ptr_add. cbn. rewrite Hb''. cbn.
    destruct (Z.leb_spec 0 (0 + current)); [|lia].
    destruct (Z.leb_spec (0 + current) (Z.of_nat (length blk''))); [|lia]. done.
Qed.

(** The position [begin() + k] of a container: what a caller passes to
    [insert] and [erase]. *)
Lemma ptr_diff_Ptr b o1 o2 :
  - 2 ^ 63 ≤ o1 - o2 < 2 ^ 63 → ptr_diff (Ptr b o1) (Ptr b o2) = Some (o1 - o2).
Proof.
  intros Hd. cbn. rewrite decide_True by done.
  destruct (Z.leb_spec (- 2 ^ 63) (o1 - o2)); [|lia].
  destruct (Z.ltb_spec (o1 - o2) (2 ^ 63)); [|lia]. done.
Qed.

Lemma ptr_diff_Some p q d :
  ptr_diff p q = Some d →
  (p = nullptr ∧ q = nullptr ∧ d = 0) ∨
  (∃ b o1 o2, p = Ptr b o1 ∧ q = Ptr b o2 ∧ d = o1 - o2 ∧ - 2 ^ 63 ≤ d < 2 ^ 63).
Proof.
  destruct p as [|b1 o1], q as [|b2 o2]; cbn; try done.
  - intros [= <-]. by left.
  - destruct (decide (b1 = b2)) as [->|]; [|done].
    destruct (Z.leb_spec (- 2 ^ 63) (o1 - o2)); [|done].
    destruct (Z.ltb_spec (o1 - o2) (2 ^ 63)); [|done].
    intros [= <-]. right. by exists b2, o1, o2.
Qed.

Lemma position_inv (s : state) (l : list T) (k : Z) (p : pointer) :
  holds s l →
  0 ≤ k ≤ sz (this s) →
  ptr_add (mem s) (values (this s)) k = Some p →
  ptr_diff p (values (this s)) = Some k.
Proof.
  destruct s as [[n m v] h]. intros [Hsz Hcap Hlim Hbuf] Hk Hp.
  cbn [this mem sz max_sz values] in *. pose proof (limit_lt _ Hlim).
  destruct v as [|b off]; cbn in Hp.
  - destruct (Z.eqb_spec k 0) as [->|]; [|done]. by injection Hp as <-.
  - destruct Hbuf as (-> & blk & Hb & _). rewrite Hb in Hp. cbn in Hp.
    destruct (_ && _); [|done]. injection Hp as <-.
    rewrite ptr_diff_Ptr by lia. f_equal. lia.
Qed.

Lemma position_Ptr (h : heap) b blk k p :
  h !! b = Some (Some blk) →
  ptr_add h (Ptr b 0) k = Some p →
  p = Ptr b k ∧ 0 ≤ k ≤ Z.of_nat (length blk).
Proof.
  intros Hb Hp. cbn in Hp. rewrite Hb in Hp. cbn in Hp.
  destruct (Z.leb_spec 0 (0 + k)); [|done].
  destruct (Z.leb_spec (0 + k) (Z.of_nat (length blk))); [|done].
  injection Hp as <-. split; [f_equal|]; lia.
Qed.

Lemma ptr_add_Ptr (h : heap) b blk k :
  h !! b = Some (Some blk) →
  0 ≤ k ≤ Z.of_nat (length blk) →
  ptr_add h (Ptr b 0) k = Some (Ptr b k).
Proof.
  intros Hb Hk. cbn. rewrite Hb. cbn.
  destruct (Z.leb_spec 0 (0 + k)); [|lia].
  destruct (Z.leb_spec (0 + k) (Z.of_nat (length blk))); [|lia]. done.
Qed.

Lemma insert_ok (s : state) (l : list T) (k : Z) (p : pointer) (val : T) :
  holds s l →
  0 ≤ k ≤ sz (this s) →
  ptr_add (mem s) (values (this s)) k = Some p →
  (max_sz (this s) ≤ sz (this s) →
   grown (max_sz (this s)) * Z.pos sizeof_T ≤ PTRDIFF_MAX) →
  ∃ s' q,
    insert (ConstIterator.Make p) (ref_object val) s = Ok (Iterator.Make q) s' ∧
    holds s' (take (Z.to_nat k) l ++ val :: drop (Z.to_nat k) l) ∧
    preserves s s' ∧
    max_sz (this s') =
      (if max_sz (this s) <=? sz (this s)
       then max_sz (this s) + max_sz (this s) / 2 + 1 else max_sz (this s)) ∧
    ptr_add (mem s') (values (this s')) k = Some q.
Proof.
  intros Hs Hk Hp Hlim.
  pose proof (position_inv s l k p Hs Hk Hp) as Hdiff.
  pose proof Hs as [Hsz Hcap Hlim' Hbuf]. pose proof (limit_lt _ Hlim').
  destruct (grow_step s l Hs Hlim) as (s1 & Hrun & Hs1 & Hp1 & Hsz1 & Hroom & Hmax).
  destruct (insert_slot s1 l k val Hs1 Hroom) as (s' & q & Hrun' & Hs' & Hp' & Hmax' & Hq);
    [lia|].
  exists s', q. split_and!.
  - destruct s as [[n m v] h]. cbn [this mem sz max_sz values] in *.
    unfold insert, begin_, ConstIterator_diff, Iterator_to_const. run.
    cbn [Iterator.ptr ConstIterator.ptr]. rewrite Hdiff. run.
    rewrite size_wrap_small by lia.
    destruct (Z.ltb_spec k 0); [lia|]. destruct (Z.ltb_spec n k); [lia|].
    cbn [orb]. run. rewrite Hrun. exact Hrun'.
  - done.
  - by eapply preserves_trans.
  - congruence.
  - done.
Qed.

Lemma insert_throw (s : state) (pos : ConstIterator.t) (val : const_reference) (d : Z) :
  ptr_diff (ConstIterator.ptr pos) (values (this s)) = Some d →
  d < 0 ∨ sz (this s) < size_wrap d →
  insert pos val s = Throw (runtime_error "Iterator out of bounds") s.
Proof.
  intros Hdiff Hd. destruct s as [[n m v] h]. cbn [this mem sz max_sz values] in *.
  unfold insert, begin_, ConstIterator_diff, Iterator_to_const. run.
  cbn [Iterator.ptr ConstIterator.ptr]. rewrite Hdiff. run.
  destruct (Z.ltb_spec d 0); [done|]. destruct (Z.ltb_spec n (size_wrap d)); [done|]. lia.
Qed.

(** One more iteration at the end of an ascending loop. *)
Lemma for_up_last (body : Z → M unit) (n : nat) :
  ∀ (i : Z) (s : state),
    0 ≤ i → i + Z.of_nat n < 2 ^ 64 →
    for_up (S n) i body s =
    match for_up n i body s with
    | Ok _ s' => body (i + Z.of_nat n) s'
    | Throw e s' => Throw e s'
    | Undefined u => Undefined u
    end.
Proof.
  induction n as [|n IH]; intros i s Hi Hw.
  - cbn [for_up]. rewrite bind_unfold, Z.add_0_r, mret_eq. cbv iota.
    destruct (body i s) as [[] s1| |]; done.
  - change (for_up (S (S n)) i body s)
      with ((body i;; for_up (S n) (size_wrap (i + 1)) body) s).
    change (for_up (S n) i body s)
      with ((body i;; for_up n (size_wrap (i + 1)) body) s).
    rewrite !bind_unfold. destruct (body i s) as [[] s1| |]; [|done..].
    rewrite size_wrap_small by lia. rewrite IH by lia.
    replace (i + 1 + Z.of_nat n) with (i + Z.of_nat (S n)) by lia. done.
Qed.

Lemma erase_ok (s : state) (l : list T) (k : Z) (p : pointer) :
  holds s l →
  0 ≤ k < sz (this s) →
  sz (this s) < max_sz (this s) →
  ptr_add (mem s) (values (this s)) k = Some p →
  ∃ s',
    erase (ConstIterator.Make p) s = Ok (Iterator.Make p) s' ∧
    holds s' (delete (Z.to_nat k) l) ∧
    preserves s s' ∧
    max_sz (this s') = max_sz (this s) ∧
    ptr_add (mem s') (values (this s')) k = Some p.
Proof.
  intros Hs Hk Hroom Hp.
  pose proof (position_inv s l k p Hs ltac:(lia) Hp) as Hdiff.
  destruct s as [[n m v] h]. destruct Hs as [Hsz Hcap Hlim Hbuf].
  cbn [this mem sz max_sz values] in *.
  pose proof (limit_lt _ Hlim).
  destruct v as [|b off]; [lia|].
  destruct Hbuf as (-> & blk & Hb & Hlen & Hel).
  pose proof (lookup_live_lt _ _ _ Hb) as Hlt.
  destruct (position_Ptr _ _ _ _ _ Hb Hp) as [-> _].
  destruct (shift_down_loop
              (λ i, v ← get_values; assign_slot v i v (size_wrap (i + 1)))
              (MkVector n m (Ptr b 0)) b (Z.to_nat (n - k)) k h blk)
    as (blk' & Hrun & Hlen' & Hlook); [by intros; run|done|lia|lia|lia|].
  unfold erase, begin_, ConstIterator_diff, Iterator_to_const. run.
  cbn [Iterator.ptr ConstIterator.ptr]. rewrite Hdiff. run.
  rewrite size_wrap_small by lia.
  destruct (Z.ltb_spec k 0); [lia|]. destruct (Z.leb_spec n k); [lia|].
  cbn [orb]. run. rewrite Hrun. run.
  rewrite size_wrap_small by lia.
  assert (<[b:=Some blk']> h !! b = Some (Some blk')) as Hb'
    by (by apply list_lookup_insert_eq).
  rewrite (index_Ptr _ _ _ blk') by (done || lia). run.
  eexists. split; [done|].
  split_and!; cbn [this mem sz max_sz values].
  - split; cbn [this mem sz max_sz values].
    + rewrite length_delete; [lia|]. apply lookup_lt_is_Some_2. lia.
    + lia.
    + done.
    + split; [done|]. exists blk'. split_and!; [done|lia|].
      intros i x Hx. rewrite Hlook.
      destruct (decide (i < Z.to_nat k)%nat) as [Hlo|Hhi].
      * rewrite list_lookup_delete_lt in Hx by done.
        case_decide; [lia|]. by apply Hel.
      * rewrite list_lookup_delete_ge in Hx by lia.
        apply lookup_lt_Some in Hx as Hi.
        case_decide; [|lia]. by apply Hel.
  - split_and!; cbn [this mem sz max_sz values].
    + by rewrite length_insert.
    + by left.
    + intros b' Hlt' Hne. rewrite list_lookup_insert_ne; [done|]. congruence.
  - done.
  - apply (ptr_add_Ptr _ _ blk'); [done|lia].
Qed.

(** On a full container the last iteration of the loop of [erase] reads
    [values[sz]], one past the end of the array. *)
Lemma erase_full (s : state) (l : list T) (k : Z) (p : pointer) :
  holds s l →
  0 ≤ k < sz (this s) →
  sz (this s) = max_sz (this s) →
  ptr_add (mem s) (values (this s)) k = Some p →
  ∃ q,
    ptr_add (mem s) (values (this s)) (sz (this s)) = Some q ∧
    erase (ConstIterator.Make p) s = Undefined (ReadOutOfBounds q).
Proof.
  intros Hs Hk Hfull Hp.
  pose proof (position_inv s l k p Hs ltac:(lia) Hp) as Hdiff.
  destruct s as [[n m v] h]. destruct Hs as [Hsz Hcap Hlim Hbuf].
  cbn [this mem sz max_sz values] in *.
  pose proof (limit_lt _ Hlim).
  destruct v as [|b off]; [lia|].
  destruct Hbuf as (-> & blk & Hb & Hlen & Hel).
  pose proof (lookup_live_lt _ _ _ Hb) as Hlt.
  exists (Ptr b n). split; [apply (ptr_add_Ptr _ _ blk); [done|lia]|].
  destruct (shift_down_loop
              (λ i, v ← get_values; assign_slot v i v (size_wrap (i + 1)))
              (MkVector n m (Ptr b 0)) b (Z.to_nat (n - k - 1)) k h blk)
    as (blk' & Hrun & Hlen' & Hlook); [by intros; run|done|lia|lia|lia|].
  unfold erase, begin_, ConstIterator_diff, Iterator_to_const. run.
  cbn [Iterator.ptr ConstIterator.ptr]. rewrite Hdiff. run.
  rewrite size_wrap_small by lia.
  destruct (Z.ltb_spec k 0); [lia|]. destruct (Z.leb_spec n k); [lia|].
  cbn [orb]. run.
  replace (Z.to_nat (n - k)) with (S (Z.to_nat (n - k - 1))) by lia.
  rewrite for_up_last by lia. rewrite Hrun. run.
  replace (k + Z.of_nat (Z.to_nat (n - k - 1)) + 1) with n by lia.
  rewrite size_wrap_small by lia.
  assert (<[b:=Some blk']> h !! b = Some (Some blk')) as Hb'
    by (by apply list_lookup_insert_eq).
  unfold assign_slot. run.
  rewrite (index_Ptr _ _ _ blk') by (done || lia). run.
  rewrite (load_past_end _ _ _ blk') by (done || lia). done.
Qed.

Lemma erase_throw (s : state) (pos : ConstIterator.t) (d : Z) :
  ptr_diff (ConstIterator.ptr pos) (values (this s)) = Some d →
  d < 0 ∨ sz (this s) ≤ size_wrap d →
  erase pos s = Throw (runtime_error "Iterator out of bounds") s.
Proof.
  intros Hdiff Hd. destruct s as [[n m v] h]. cbn [this mem sz max_sz values] in *.
  unfold erase, begin_, ConstIterator_diff, Iterator_to_const. run.
  cbn [Iterator.ptr ConstIterator.ptr]. rewrite Hdiff. run.
  destruct (Z.ltb_spec d 0); [done|]. destruct (Z.leb_spec n (size_wrap d)); [done|]. lia.
Qed.

Lemma insert_alloc_throw (s : state) (l : list T) (k : Z) (p : pointer)
    (val : const_reference) :
  holds s l →
  0 ≤ k ≤ sz (this s) →
  ptr_add (mem s) (values (this s)) k = Some p →
  max_sz (this s) ≤ sz (this s) →
  PTRDIFF_MAX < grown (max_sz (this s)) * Z.pos sizeof_T →
  insert (ConstIterator.Make p) val s = Throw bad_array_new_length s.
Proof.
  intros Hs Hk Hp Hfull Hbig.
  pose proof (position_inv s l k p Hs Hk Hp) as Hdiff.
  pose proof Hs as [Hsz Hcap Hlim' Hbuf]. pose proof (limit_lt _ Hlim').
  destruct s as [[n m v] h]. cbn [this mem sz max_sz values] in *.
  unfold insert, begin_, ConstIterator_diff, Iterator_to_const. run.
  cbn [Iterator.ptr ConstIterator.ptr]. rewrite Hdiff. run.
  rewrite size_wrap_small by lia.
  destruct (Z.ltb_spec k 0); [lia|]. destruct (Z.ltb_spec n k); [lia|].
  cbn [orb]. run.
  destruct (Z.leb_spec m n); [|lia].
  rewrite reallocate_throw; [done| |done]. cbn [this sz].
  rewrite grown_small by lia.
  assert (0 ≤ m / 2) by (apply Z.div_pos; lia). lia.
Qed.

Lemma insert_undefined (s : state) (pos : ConstIterator.t) (val : const_reference) :
  ptr_diff (ConstIterator.ptr pos) (values (this s)) = None →
  insert pos val s =
  Undefined (InvalidPointerDifference (ConstIterator.ptr pos) (values (this s))).
Proof.
  intros Hdiff. destruct s as [[n m v] h]. cbn [this mem sz max_sz values] in *.
  unfold insert, begin_, ConstIterator_diff, Iterator_to_const. run.
  cbn [Iterator.ptr ConstIterator.ptr]. by rewrite Hdiff.
Qed.

Lemma erase_undefined (s : state) (pos : ConstIterator.t) :
  ptr_diff (ConstIterator.ptr pos) (values (this s)) = None →
  erase pos s =
  Undefined (InvalidPointerDifference (ConstIterator.ptr pos) (values (this s))).
Proof.
  intros Hdiff. destruct s as [[n m v] h]. cbn [this mem sz max_sz values] in *.
  unfold erase, begin_, ConstIterator_diff, Iterator_to_const. run.
  cbn [Iterator.ptr ConstIterator.ptr]. by rewrite Hdiff.
Qed.

(** A position whose distance from [begin()] is [d], within the buffer, is
    [begin() + d]. *)
Lemma position_of_diff (s : state) (l : list T) (p : pointer) (d : Z) :
  holds s l →
  ptr_diff p (values (this s)) = Some d →
  0 ≤ d ≤ sz (this s) →
  ptr_add (mem s) (values (this s)) d = Some p.
Proof.
  destruct s as [[n m v] h]. intros [Hsz Hcap Hlim Hbuf] Hdiff Hd.
  cbn [this mem sz max_sz values] in *.
  apply ptr_diff_Some in Hdiff as [(-> & -> & ->)|(b & o1 & o2 & -> & -> & -> & _)];
    [done|].
  destruct Hbuf as (-> & blk & Hb & Hlen & _).
  rewrite (ptr_add_Ptr _ _ blk) by (done || lia). do 2 f_equal. lia.
Qed.

(** ** The remaining member functions *)

Lemma pop_back_empty (s : state) :
  sz (this s) = 0 → pop_back s = Throw (runtime_error "Vector is empty") s.
Proof.
  destruct s as [[n m v] h]. cbn. intros ->. reflexivity.
Qed.

Lemma pop_back_nonempty (s : state) :
  sz (this s) ≠ 0 →
  pop_back s =
  Ok tt (MkState (MkVector (size_wrap (sz (this s) - 1)) (max_sz (this s))
                    (values (this s))) (mem s)).
Proof.
  destruct s as [[n m v] h]. cbn. intros Hn. unfold pop_back. run.
  destruct (Z.eqb_spec n 0); [done|]. by run.
Qed.

Lemma repr_shorter (v : Vector) (h : heap) (l : list T) (n : nat) :
  repr v h l →
  (n ≤ length l)%nat →
  repr (MkVector (Z.of_nat n) (max_sz v) (values v)) h (take n l).
Proof.
  intros [Hsz Hcap Hlim Hbuf] Hn. split; cbn [sz max_sz values].
  - rewrite length_take. lia.
  - lia.
  - done.
  - destruct (values v) as [|b off]; [done|].
    destruct Hbuf as (-> & blk & Hb & Hlen & Hel). split; [done|].
    exists blk. split_and!; [done..|].
    intros i x Hx. apply lookup_take_Some in Hx as [Hx _]. by apply Hel.
Qed.

Lemma pop_back_ok (s : state) (l : list T) :
  holds s l →
  sz (this s) ≠ 0 →
  ∃ s',
    pop_back s = Ok tt s' ∧
    holds s' (take (length l - 1) l) ∧
    sz (this s') = sz (this s) - 1 ∧
    max_sz (this s') = max_sz (this s) ∧
    values (this s') = values (this s) ∧
    mem s' = mem s.
Proof.
  intros Hs Hn. pose proof Hs as [Hsz Hcap Hlim Hbuf]. pose proof (limit_lt _ Hlim).
  rewrite pop_back_nonempty by done. rewrite size_wrap_small by lia.
  eexists. split; [done|]. split_and!; try done.
  unfold holds. cbn [this mem].
  replace (sz (this s) - 1) with (Z.of_nat (length l - 1)) by lia.
  apply repr_shorter; [done|lia].
Qed.

Lemma clear_ok (s : state) (l : list T) :
  holds s l →
  clear s = Ok tt (MkState (MkVector 0 (max_sz (this s)) (values (this s))) (mem s)) ∧
  holds (MkState (MkVector 0 (max_sz (this s)) (values (this s))) (mem s)) [].
Proof.
  intros Hs. split; [by destruct s as [[n m v] h]|].
  apply (repr_shorter _ _ _ O) in Hs; [|lia]. by rewrite take_0 in Hs.
Qed.

Lemma subscript_throw (s : state) (i : Z) :
  sz (this s) ≤ i →
  subscript i s = Throw (runtime_error "Vector out of bounds") s.
Proof.
  destruct s as [[n m v] h]. cbn. intros Hi. unfold subscript. run.
  destruct (Z.leb_spec n i); [done|lia].
Qed.

Lemma subscript_in_range (s : state) (i : Z) :
  i < sz (this s) → subscript i s = index (values (this s)) i s.
Proof.
  destruct s as [[n m v] h]. cbn. intros Hi. unfold subscript. run.
  destruct (Z.leb_spec n i); [lia|]. by run.
Qed.

Lemma subscript_ok (s : state) (l : list T) (i : nat) (x : T) :
  holds s l →
  l !! i = Some x →
  ∃ p,
    subscript (Z.of_nat i) s = Ok p s ∧
    ptr_add (mem s) (values (this s)) (Z.of_nat i) = Some p ∧
    load p s = Ok (Some x) s.
Proof.
  intros Hs Hx. apply lookup_lt_Some in Hx as Hi.
  pose proof Hs as [Hsz Hcap Hlim Hbuf].
  rewrite subscript_in_range by lia.
  destruct s as [[n m v] h]. cbn [this mem sz max_sz values] in *.
  destruct v as [|b off]; [lia|].
  destruct Hbuf as (-> & blk & Hb & Hlen & Hel).
  exists (Ptr b (Z.of_nat i)).
  rewrite (index_Ptr _ _ _ blk) by (done || lia).
  rewrite (ptr_add_Ptr _ _ blk) by (done || lia).
  rewrite (load_Ptr _ _ _ blk _ (Some x)); [done|done|lia|].
  rewrite Nat2Z.id. by apply Hel.
Qed.

Lemma reserve_noop (s : state) (n : Z) :
  n ≤ max_sz (this s) → reserve n s = Ok tt s.
Proof.
  destruct s as [[k m v] h]. cbn. intros Hn. unfold reserve. run.
  destruct (Z.ltb_spec m n); [lia|]. by run.
Qed.

Lemma reserve_grow (s : state) (n : Z) :
  max_sz (this s) < n → reserve n s = reallocate n s.
Proof.
  destruct s as [[k m v] h]. cbn. intros Hn. unfold reserve. run.
  destruct (Z.ltb_spec m n); [|lia]. done.
Qed.

Lemma shrink_to_fit_noop (s : state) :
  max_sz (this s) ≤ sz (this s) → shrink_to_fit s = Ok tt s.
Proof.
  destruct s as [[k m v] h]. cbn. intros Hn. unfold shrink_to_fit. run.
  destruct (Z.ltb_spec k m); [lia|]. by run.
Qed.

Lemma shrink_to_fit_shrink (s : state) :
  sz (this s) < max_sz (this s) → shrink_to_fit s = reallocate (sz (this s)) s.
Proof.
  destruct s as [[k m v] h]. cbn. intros Hn. unfold shrink_to_fit. run.
  destruct (Z.ltb_spec k m); [|lia]. done.
Qed.

(** ** Constructors, copy and assignment *)

Lemma Vector_default_ok (v0 : Vector) (h : heap) :
  Vector_default (MkState v0 h) = Ok tt (MkState (MkVector 0 0 nullptr) h) ∧
  holds (MkState (MkVector 0 0 nullptr) h) [].
Proof.
  split; [done|]. split; cbn; [done|done| |done]. unfold PTRDIFF_MAX. lia.
Qed.

Lemma Vector_n_ok (v0 : Vector) (h : heap) (n : Z) :
  0 ≤ n →
  n * Z.pos sizeof_T ≤ PTRDIFF_MAX →
  Vector_n n (MkState v0 h) =
    Ok tt (MkState (MkVector 0 n (Ptr (length h) 0))
             (h ++ [Some (replicate (Z.to_nat n) None)])) ∧
  holds (MkState (MkVector 0 n (Ptr (length h) 0))
           (h ++ [Some (replicate (Z.to_nat n) None)])) [].
Proof.
  intros Hn Hfit. split.
  - unfold Vector_n. run. rewrite new_array_ok by done. by run.
  - split; cbn [this mem sz max_sz values]; [done..|].
    split; [done|]. eexists. split_and!; [apply lookup_heap_new| |done].
    rewrite length_replicate. lia.
Qed.

Lemma Vector_n_throw (s : state) (n : Z) :
  PTRDIFF_MAX < n * Z.pos sizeof_T →
  ∃ s', Vector_n n s = Throw bad_array_new_length s'.
Proof.
  intros Hbig. destruct s as [v0 h]. unfold Vector_n. run.
  rewrite new_array_throw by done. by eexists.
Qed.

(** The loop of the initialiser-list constructor writes the list into slots
    [i, i + length il). *)
Lemma fill_from_ok v b (il : list T) :
  ∀ (i : Z) (h : heap) (blk : list cell),
    values v = Ptr b 0 →
    h !! b = Some (Some blk) →
    0 ≤ i →
    i + Z.of_nat (length il) ≤ Z.of_nat (length blk) →
    i + Z.of_nat (length il) < 2 ^ 64 →
    ∃ blk',
      fill_from il i (MkState v h) = Ok tt (MkState v (<[b := Some blk']> h)) ∧
      length blk' = length blk ∧
      ∀ j : nat, blk' !! j =
                 if decide (i ≤ Z.of_nat j < i + Z.of_nat (length il))
                 then Some <$> il !! (j - Z.to_nat i)%nat else blk !! j.
Proof.
  induction il as [|el il IH]; intros i h blk Hv Hb Hi Hl Hw.
  - exists blk. cbn [fill_from]. rewrite mret_eq, list_insert_id by done.
    split_and!; [done..|]. intros j. cbn [length] in *. case_decide; [lia|done].
  - cbn [length] in *. cbn [fill_from]. destruct v as [n m p]. cbn in Hv. subst p.
    run. rewrite (index_Ptr _ _ _ blk) by (done || lia). run.
    rewrite (store_Ptr _ _ _ blk) by (done || lia). run.
    rewrite size_wrap_small by lia.
    pose proof (lookup_live_lt _ _ _ Hb) as Hlt.
    destruct (IH (i + 1) (<[b:=Some (<[Z.to_nat (0 + i):=Some el]> blk)]> h)
                (<[Z.to_nat (0 + i):=Some el]> blk)) as (blk' & Hrun & Hlen & Hlook).
    + done.
    + by rewrite list_lookup_insert_eq.
    + lia.
    + rewrite length_insert. lia.
    + lia.
    + exists blk'. rewrite Hrun, list_insert_insert_eq.
      rewrite length_insert in Hlen. split_and!; [done..|].
      intros j. rewrite Hlook.
      destruct (decide (j = Z.to_nat i)) as [->|Hj].
      * replace (Z.to_nat (0 + i)) with (Z.to_nat i) by lia.
        rewrite list_lookup_insert_eq by lia.
        repeat case_decide; try lia. by rewrite Nat.sub_diag.
      * rewrite list_lookup_insert_ne by lia.
        repeat case_decide; try lia; [|done].
        rewrite lookup_cons_ne_0 by lia. do 2 f_equal. lia.
Qed.

Lemma Vector_il_ok (v0 : Vector) (h : heap) (il : list T) :
  Z.of_nat (length il) * Z.pos sizeof_T ≤ PTRDIFF_MAX →
  ∃ blk,
    Vector_il il (MkState v0 h) =
      Ok tt (MkState (MkVector (Z.of_nat (length il)) (Z.of_nat (length il))
                        (Ptr (length h) 0)) (h ++ [Some blk])) ∧
    holds (MkState (MkVector (Z.of_nat (length il)) (Z.of_nat (length il))
                      (Ptr (length h) 0)) (h ++ [Some blk])) il.
Proof.
  intros Hfit. pose proof (limit_lt _ Hfit).
  destruct (fill_from_ok
              (MkVector (Z.of_nat (length il)) (Z.of_nat (length il)) (Ptr (length h) 0))
              (length h) il 0
              (h ++ [Some (replicate (Z.to_nat (Z.of_nat (length il))) None)])
              (replicate (Z.to_nat (Z.of_nat (length il))) None))
    as (blk & Hrun & Hlen & Hlook).
  - done.
  - apply lookup_heap_new.
  - lia.
  - rewrite length_replicate. lia.
  - lia.
  - exists blk. rewrite insert_heap_new in Hrun. split.
    + unfold Vector_il. run. rewrite new_array_ok by done. run. exact Hrun.
    + split; cbn [this mem sz max_sz values]; [done|lia|done|].
      split; [done|]. exists blk. split_and!; [apply lookup_heap_new| |].
      * rewrite Hlen, length_replicate. lia.
      * intros i x Hx. apply lookup_lt_Some in Hx as Hi. rewrite Hlook.
        case_decide; [|lia]. rewrite Nat.sub_0_r, Hx. done.
Qed.

Lemma Vector_copy_ok (other v0 : Vector) (h : heap) (l : list T) :
  repr other h l →
  ∃ blk,
    Vector_copy other (MkState v0 h) =
      Ok tt (MkState (MkVector (sz other) (max_sz other) (Ptr (length h) 0))
               (h ++ [Some blk])) ∧
    Z.of_nat (length blk) = max_sz other ∧
    ∀ (i : nat) (x : T), l !! i = Some x → blk !! i = Some (Some x).
Proof.
  destruct other as [n m v]. intros [Hsz Hcap Hlim Hbuf]. cbn [sz max_sz values] in *.
  pose proof (limit_lt _ Hlim).
  unfold Vector_copy. run. rewrite new_array_ok by done. run.
  destruct v as [|b off].
  - assert (n = 0) as -> by lia. cbn [Z.to_nat for_up]. run.
    exists (replicate (Z.to_nat m) None). split_and!; [done| |].
    + rewrite length_replicate. lia.
    + intros i x Hx. apply lookup_lt_Some in Hx. lia.
  - destruct Hbuf as (-> & blk0 & Hb & Hlen & Hel).
    pose proof (lookup_live_lt _ _ _ Hb) as Hlt.
    destruct (copy_loop
                (λ i, v ← get_values; assign_slot v i (Ptr b 0) i)
                (MkVector n m (Ptr (length h) 0)) (length h) b blk0 (Z.to_nat n) 0
                (h ++ [Some (replicate (Z.to_nat m) None)])
                (replicate (Z.to_nat m) None))
      as (blk & Hrun & Hlen' & Hlook).
    + intros j h'. by run.
    + lia.
    + by rewrite lookup_heap_old.
    + apply lookup_heap_new.
    + lia.
    + lia.
    + rewrite length_replicate. lia.
    + lia.
    + rewrite Hrun, insert_heap_new.
      exists blk. split_and!; [done| |].
      * rewrite Hlen', length_replicate. lia.
      * intros i x Hx. rewrite Hlook.
        apply lookup_lt_Some in Hx as Hi.
        case_decide; [|lia]. by apply Hel.
Qed.

(** Copy construction from a container: the new object, the caller's [this]
    untouched, and both containers represented in the new heap. *)
Lemma copy_construct_ok (s : state) (other : Vector) (l : list T) :
  repr other (mem s) l →
  ∃ w h',
    construct (Vector_copy other) s = Ok w (MkState (this s) h') ∧
    sz w = sz other ∧
    max_sz w = max_sz other ∧
    values w = Ptr (length (mem s)) 0 ∧
    repr w h' l ∧
    (∃ blk, h' = mem s ++ [Some blk]).
Proof.
  intros Ho. pose proof Ho as [Hsz Hcap Hlim Hbuf].
  destruct (Vector_copy_ok other (MkVector 0 0 nullptr) (mem s) l Ho)
    as (blk & Hrun & Hlen & Hel).
  eexists _, _. unfold construct. rewrite Hrun. cbn [this mem sz max_sz values].
  split_and!; [done..| |by eexists].
  split; cbn [sz max_sz values]; [done..|].
  split; [done|]. exists blk. split_and!; [apply lookup_heap_new|done..].
Qed.

Lemma repr_heap_app (w : Vector) (h : heap) (x : option (list cell)) (l : list T) :
  repr w h l → repr w (h ++ [x]) l.
Proof.
  intros [Hsz Hcap Hlim Hbuf]. split; [done..|].
  destruct (values w) as [|b off]; [done|].
  destruct Hbuf as (-> & blk & Hb & Hrest). split; [done|].
  exists blk. split; [|done].
  rewrite lookup_heap_old; [done|by eapply lookup_live_lt].
Qed.

Lemma Vector_assign_ok (s : state) (arg : Vector) (l la : list T) :
  holds s l →
  repr arg (mem s) la →
  ∃ s',
    Vector_assign arg s = Ok tt s' ∧
    holds s' la ∧
    sz (this s') = sz arg ∧
    max_sz (this s') = max_sz arg ∧
    preserves s s'.
Proof.
  intros Hs Ha.
  destruct (copy_construct_ok s arg la Ha)
    as (w & h' & Hrun & Hwsz & Hwmax & Hwv & Hw & blk & ->).
  destruct s as [[n m v] h]. destruct Hs as [Hsz Hcap Hlim Hbuf].
  cbn [this mem sz max_sz values] in *.
  destruct w as [wn wm wv]. cbn [sz max_sz values] in *. subst wn wm wv.
  unfold Vector_assign. run. rewrite Hrun. run.
  unfold on_object, Vector_dtor. run.
  destruct v as [|b off].
  - cbn [delete_array]. run. eexists. split; [done|].
    split_and!; cbn [this mem sz max_sz values]; try done.
    split_and!; cbn [this mem sz max_sz values].
    + rewrite length_app. cbn. lia.
    + right. eexists. split; [done|lia].
    + intros b Hb _. by rewrite lookup_heap_old.
  - destruct Hbuf as (-> & blk0 & Hb & Hlen & Hel).
    pose proof (lookup_live_lt _ _ _ Hb) as Hlt.
    rewrite (delete_array_Ptr _ _ _ blk0) by (by rewrite lookup_heap_old).
    run. eexists. split; [done|].
    split_and!; cbn [this mem sz max_sz values]; try done.
    + destruct Hw as [Hsz' Hcap' Hlim' Hbuf']. cbn [sz max_sz values] in *.
      split; cbn [this mem sz max_sz values]; [done..|].
      destruct Hbuf' as (_ & blk' & Hb' & Hrest). split; [done|].
      exists blk'. split; [|done].
      rewrite list_lookup_insert_ne by lia. done.
    + split_and!; cbn [this mem sz max_sz values].
      * rewrite length_insert, length_app. cbn. lia.
      * right. eexists. split; [done|lia].
      * intros b' Hb' Hne. rewrite list_lookup_insert_ne by congruence.
        by rewrite lookup_heap_old.
Qed.

(** ** Exception safety, compositionally *)

Lemma no_throw_strong {A} (m : M A) : no_throw m → strong m.
Proof. intros Hm s e s' Hrun. by apply Hm in Hrun. Qed.

Lemma read_only_no_throw {A} (m : M A) : read_only m → no_throw m.
Proof. intros Hm s e s' Hrun. specialize (Hm s). by rewrite Hrun in Hm. Qed.

Lemma no_throw_bind {A B} (m : M A) (f : A → M B) :
  no_throw m → (∀ a, no_throw (f a)) → no_throw (m ≫= f).
Proof.
  intros Hm Hf s e s'. rewrite bind_unfold.
  destruct (m s) as [a s1|e1 s1|u] eqn:Hrun; [apply Hf|by apply Hm in Hrun|done].
Qed.

Lemma read_only_bind {A B} (m : M A) (f : A → M B) :
  read_only m → (∀ a, read_only (f a)) → read_only (m ≫= f).
Proof.
  intros Hm Hf s. rewrite bind_unfold. specialize (Hm s).
  destruct (m s) as [a s1|e1 s1|u]; [subst s1; apply Hf|done..].
Qed.

Lemma strong_bind_read_only {A B} (m : M A) (f : A → M B) :
  read_only m → (∀ a, strong (f a)) → strong (m ≫= f).
Proof.
  intros Hm Hf s e s'. rewrite bind_unfold. specialize (Hm s).
  destruct (m s) as [a s1|e1 s1|u]; [subst s1; apply Hf|done..].
Qed.

Lemma strong_bind_no_throw {A B} (m : M A) (f : A → M B) :
  strong m → (∀ a, no_throw (f a)) → strong (m ≫= f).
Proof.
  intros Hm Hf s e s'. rewrite bind_unfold.
  destruct (m s) as [a s1|e1 s1|u] eqn:Hrun.
  - intros Hrun'. by apply Hf in Hrun'.
  - intros [= <- <-]. by eapply Hm.
  - done.
Qed.

Lemma read_only_ret {A} (a : A) : read_only (mret a : M A).
Proof. by intros s. Qed.
Lemma read_only_get_sz : read_only get_sz.
Proof. by intros s. Qed.
Lemma read_only_get_max_sz : read_only get_max_sz.
Proof. by intros s. Qed.
Lemma read_only_get_values : read_only get_values.
Proof. by intros s. Qed.
Lemma read_only_index p i : read_only (index p i).
Proof. intros s. unfold index. by destruct (ptr_add _ _ _). Qed.
Lemma read_only_load p : read_only (load p).
Proof. intros s. unfold load. by destruct (slot_of _ _). Qed.
Lemma read_only_read_ref r : read_only (read_ref r).
Proof. destruct r; [by intros s|apply read_only_load]. Qed.
Lemma read_only_begin : read_only begin_.
Proof. by intros s. Qed.
Lemma read_only_diff lop rop : read_only (ConstIterator_diff lop rop).
Proof. intros s. unfold ConstIterator_diff. by destruct (ptr_diff _ _). Qed.

Lemma no_throw_set_sz n : no_throw (set_sz n).
Proof. by intros s e s'. Qed.
Lemma no_throw_set_max_sz n : no_throw (set_max_sz n).
Proof. by intros s e s'. Qed.
Lemma no_throw_set_values p : no_throw (set_values p).
Proof. by intros s e s'. Qed.
Lemma no_throw_store p c : no_throw (store p c).
Proof.
  intros s e s'. unfold store. destruct p; [done|].
  destruct (block_of _ _); [|done]. by destruct (_ && _).
Qed.
Lemma no_throw_delete_array p : no_throw (delete_array p).
Proof.
  intros s e s'. unfold delete_array. destruct p; [done|].
  destruct (block_of _ _); [|done]. by destruct (_ =? _).
Qed.

Lemma no_throw_assign_slot dst j src i : no_throw (assign_slot dst j src i).
Proof.
  unfold assign_slot.
  apply no_throw_bind; [apply read_only_no_throw, read_only_index|intros q].
  apply no_throw_bind; [apply read_only_no_throw, read_only_load|intros x].
  apply no_throw_bind; [apply read_only_no_throw, read_only_index|intros p].
  apply no_throw_store.
Qed.

Lemma no_throw_for_up (body : Z → M unit) (n : nat) :
  (∀ i, no_throw (body i)) → ∀ i, no_throw (for_up n i body).
Proof.
  intros Hbody. induction n as [|n IH]; intros i; [by intros s e s'|].
  cbn [for_up]. apply no_throw_bind; [apply Hbody|intros _; apply IH].
Qed.

Lemma no_throw_for_down (body : Z → M unit) (n : nat) :
  (∀ i, no_throw (body i)) → ∀ i, no_throw (for_down n i body).
Proof.
  intros Hbody. induction n as [|n IH]; intros i; [by intros s e s'|].
  cbn [for_down]. apply no_throw_bind; [apply Hbody|intros _; apply IH].
Qed.

Lemma strong_throw {A} (e : exn) : strong (throw e : M A).
Proof. intros s e' s'. unfold throw. by intros [= _ <-]. Qed.

Lemma strong_new_array n : strong (new_array n).
Proof.
  intros s e s'. unfold new_array. destruct (_ <? _); [|done]. by intros [= _ <-].
Qed.

Create HintDb safety.
#[local] Hint Resolve read_only_ret read_only_get_sz read_only_get_max_sz
  read_only_get_values read_only_index read_only_load read_only_read_ref
  read_only_begin
  read_only_diff no_throw_set_sz no_throw_set_max_sz no_throw_set_values
  no_throw_store no_throw_delete_array no_throw_assign_slot
  strong_throw strong_new_array read_only_no_throw no_throw_strong : safety.

Ltac no_throw_steps :=
  repeat first
    [ solve [auto with safety]
    | apply no_throw_bind; [|intros ?]
    | apply no_throw_for_up; intros ?
    | apply no_throw_for_down; intros ? ].

Lemma strong_reallocate new_size : strong (reallocate new_size).
Proof.
  unfold reallocate. apply strong_bind_read_only; [auto with safety|intros n].
  destruct (_ <? _); [auto with safety|].
  apply strong_bind_no_throw; [auto with safety|intros tmp]. no_throw_steps.
Qed.

Lemma strong_pop_back : strong pop_back.
Proof.
  unfold pop_back. apply strong_bind_read_only; [auto with safety|intros n].
  destruct (_ =? _); auto with safety.
Qed.

Lemma strong_subscript i : strong (subscript i).
Proof.
  unfold subscript. apply strong_bind_read_only; [auto with safety|intros n].
  destruct (_ <=? _); [auto with safety|]. apply no_throw_strong. no_throw_steps.
Qed.

Lemma strong_growth (m n : Z) :
  strong (if m <=? n then reallocate (grown m) else mret tt).
Proof. destruct (_ <=? _); [apply strong_reallocate|auto with safety]. Qed.

Lemma strong_push_back el : strong (push_back el).
Proof.
  unfold push_back. apply strong_bind_read_only; [auto with safety|intros n].
  apply strong_bind_read_only; [auto with safety|intros m].
  apply strong_bind_no_throw; [apply strong_growth|intros _]. no_throw_steps.
Qed.

Lemma strong_insert pos val : strong (insert pos val).
Proof.
  unfold insert. apply strong_bind_read_only; [auto with safety|intros b].
  apply strong_bind_read_only; [auto with safety|intros diff].
  apply strong_bind_read_only; [auto with safety|intros n].
  destruct (_ || _); [auto with safety|].
  apply strong_bind_read_only; [auto with safety|intros m].
  apply strong_bind_no_throw; [apply strong_growth|intros _]. no_throw_steps.
Qed.

Lemma strong_erase pos : strong (erase pos).
Proof.
  unfold erase. apply strong_bind_read_only; [auto with safety|intros b].
  apply strong_bind_read_only; [auto with safety|intros diff].
  apply strong_bind_read_only; [auto with safety|intros n].
  destruct (_ || _); [auto with safety|].
  apply no_throw_strong. no_throw_steps.
Qed.

Lemma strong_reserve n : strong (reserve n).
Proof.
  unfold reserve. apply strong_bind_read_only; [auto with safety|intros m].
  destruct (_ <? _); [apply strong_reallocate|auto with safety].
Qed.

Lemma strong_shrink_to_fit : strong shrink_to_fit.
Proof.
  unfold shrink_to_fit. apply strong_bind_read_only; [auto with safety|intros n].
  apply strong_bind_read_only; [auto with safety|intros m].
  destruct (_ <? _); [apply strong_reallocate|auto with safety].
Qed.

Lemma strong_run_op (o : op) : strong (run_op o).
Proof.
  destruct o; cbn [run_op].
  - apply strong_push_back.
  - apply strong_pop_back.
  - apply no_throw_strong. unfold clear. auto with safety.
  - apply strong_reserve.
  - apply strong_shrink_to_fit.
  - apply strong_bind_no_throw; [apply strong_insert|intros _; auto with safety].
  - apply strong_bind_no_throw; [apply strong_erase|intros _; auto with safety].
Qed.

(** ** Every mutating call keeps the invariant *)

Lemma preserves_same_heap (s s' : state) :
  mem s' = mem s → values (this s') = values (this s) → preserves s s'.
Proof. intros Hm Hv. split_and!; [by rewrite Hm|by left|by rewrite Hm]. Qed.

Lemma grown_ge (m : Z) : 0 ≤ m < 2 ^ 63 → m ≤ grown m.
Proof.
  intros Hm. rewrite grown_small by done.
  assert (0 ≤ m / 2) by (apply Z.div_pos; lia). lia.
Qed.

Lemma run_op_holds (o : op) (s s' : state) (l : list T) :
  holds s l →
  run_op o s = Ok tt s' →
  (∃ l', holds s' l') ∧ preserves s s'.
Proof.
  intros Hs Hrun. pose proof Hs as [Hsz Hcap Hlim Hbuf].
  pose proof (limit_lt _ Hlim) as Hlt.
  destruct o as [el| | |n| |pos val|pos]; cbn [run_op] in Hrun.
  - destruct (Z.le_gt_cases (grown (max_sz (this s)) * Z.pos sizeof_T) PTRDIFF_MAX)
      as [Hfit|Hbig].
    + destruct (push_back_ok s l el Hs) as (s1 & Hrun1 & Hs1 & Hp1 & _); [done|].
      rewrite Hrun1 in Hrun. injection Hrun as <-. eauto.
    + destruct (Z.le_gt_cases (max_sz (this s)) (sz (this s))) as [Hfull|Hroom].
      * rewrite push_back_throw in Hrun; [done|done| |lia].
        pose proof (grown_ge (max_sz (this s))). lia.
      * destruct (push_back_ok s l el Hs) as (s1 & Hrun1 & Hs1 & Hp1 & _); [lia|].
        rewrite Hrun1 in Hrun. injection Hrun as <-. eauto.
  - destruct (decide (sz (this s) = 0)) as [Hz|Hnz].
    + by rewrite pop_back_empty in Hrun.
    + destruct (pop_back_ok s l Hs Hnz) as (s1 & Hrun1 & Hs1 & _ & _ & Hv & Hm).
      rewrite Hrun1 in Hrun. injection Hrun as <-.
      split; [eauto|by apply preserves_same_heap].
  - destruct (clear_ok s l Hs) as [Hrun1 Hs1].
    rewrite Hrun1 in Hrun. injection Hrun as <-.
    split; [eauto|by apply preserves_same_heap].
  - destruct (Z.le_gt_cases n (max_sz (this s))) as [Hle|Hgt].
    + rewrite reserve_noop in Hrun by done. injection Hrun as <-.
      split; [eauto|apply preserves_refl].
    + rewrite reserve_grow in Hrun by lia.
      destruct (Z.le_gt_cases (n * Z.pos sizeof_T) PTRDIFF_MAX) as [Hfit|Hbig].
      * destruct (reallocate_holds s l n Hs) as (s1 & Hrun1 & Hs1 & Hp1 & _);
          [lia|done|].
        rewrite Hrun1 in Hrun. injection Hrun as <-. eauto.
      * rewrite reallocate_throw in Hrun by lia. done.
  - destruct (Z.le_gt_cases (max_sz (this s)) (sz (this s))) as [Hfull|Hroom].
    + rewrite shrink_to_fit_noop in Hrun by done. injection Hrun as <-.
      split; [eauto|apply preserves_refl].
    + rewrite shrink_to_fit_shrink in Hrun by lia.
      destruct (reallocate_holds s l (sz (this s)) Hs) as (s1 & Hrun1 & Hs1 & Hp1 & _);
        [lia|nia|].
      rewrite Hrun1 in Hrun. injection Hrun as <-. eauto.
  - rewrite bind_unfold in Hrun.
    destruct (ptr_diff (ConstIterator.ptr pos) (values (this s))) as [d|] eqn:Hdiff;
      [|by rewrite insert_undefined in Hrun].
    destruct (decide (0 ≤ d ≤ sz (this s))) as [Hd|Hd].
    + pose proof (position_of_diff s l _ d Hs Hdiff Hd) as Hp.
      destruct pos as [p]. cbn [ConstIterator.ptr] in *.
      destruct (Z.le_gt_cases (max_sz (this s)) (sz (this s))) as [Hfull|Hroom];
        [destruct (Z.le_gt_cases (grown (max_sz (this s)) * Z.pos sizeof_T) PTRDIFF_MAX)
          as [Hfit|Hbig]|].
      * destruct (insert_ok s l d p val Hs Hd Hp) as (s1 & q & Hrun1 & Hs1 & Hp1 & _);
          [done|].
        rewrite Hrun1 in Hrun. injection Hrun as <-. eauto.
      * rewrite (insert_alloc_throw s l d p (ref_object val)) in Hrun by (done || lia). done.
      * destruct (insert_ok s l d p val Hs Hd Hp) as (s1 & q & Hrun1 & Hs1 & Hp1 & _);
          [lia|].
        rewrite Hrun1 in Hrun. injection Hrun as <-. eauto.
    + apply ptr_diff_Some in Hdiff as Hrange.
      rewrite (insert_throw s pos (ref_object val) d) in Hrun; [done|done|].
      destruct (Z.lt_ge_cases d 0); [by left|right].
      rewrite size_wrap_small; destruct Hrange as [(_ & _ & ->)|(? & ? & ? & _ & _ & _ & ?)]; lia.
  - rewrite bind_unfold in Hrun.
    destruct (ptr_diff (ConstIterator.ptr pos) (values (this s))) as [d|] eqn:Hdiff;
      [|by rewrite erase_undefined in Hrun].
    destruct (decide (0 ≤ d < sz (this s))) as [Hd|Hd].
    + pose proof (position_of_diff s l _ d Hs Hdiff ltac:(lia)) as Hp.
      destruct pos as [p]. cbn [ConstIterator.ptr] in *.
      destruct (Z.le_gt_cases (max_sz (this s)) (sz (this s))) as [Hfull|Hroom].
      * destruct (erase_full s l d p Hs Hd ltac:(lia) Hp) as (q & _ & Hrun1).
        by rewrite Hrun1 in Hrun.
      * destruct (erase_ok s l d p Hs Hd ltac:(lia) Hp) as (s1 & Hrun1 & Hs1 & Hp1 & _).
        rewrite Hrun1 in Hrun. injection Hrun as <-. eauto.
    + apply ptr_diff_Some in Hdiff as Hrange.
      rewrite (erase_throw s pos d) in Hrun; [done|done|].
      destruct (Z.lt_ge_cases d 0); [by left|right].
      rewrite size_wrap_small; destruct Hrange as [(_ & _ & ->)|(? & ? & ? & _ & _ & _ & ?)]; lia.
Qed.

(** ** Arguments passed by reference *)

(** [push_back] reads its argument once, in the state the growth step has
    left. *)
Lemma push_back_reads (el : const_reference) (s s1 : state) :
  (if max_sz (this s) <=? sz (this s)
   then reallocate (grown (max_sz (this s))) else mret tt) s = Ok tt s1 →
  (∀ x, read_ref el s1 = Ok (Some x) s1 →
        push_back el s = push_back (ref_object x) s) ∧
  (∀ u, read_ref el s1 = Undefined u → push_back el s = Undefined u).
Proof.
  intros Hgrow. destruct s as [[n m v] h]. cbn [this sz max_sz] in Hgrow.
  destruct s1 as [[n1 m1 v1] h1].
  split; [intros x Hx|intros u Hu]; unfold push_back; run; rewrite Hgrow; run.
  - rewrite Hx. by run.
  - by rewrite Hu.
Qed.

(** [insert] at a position it accepts reads its argument once, in the state
    the growth step and the shifting loop have left. *)
Lemma insert_reads (pos : ConstIterator.t) (val : const_reference) (s s2 : state)
    (d : Z) :
  ptr_diff (ConstIterator.ptr pos) (values (this s)) = Some d →
  0 ≤ d →
  size_wrap d ≤ sz (this s) →
  ((if max_sz (this s) <=? sz (this s)
    then reallocate (grown (max_sz (this s))) else mret tt);;
   n ← get_sz;
   for_down (Z.to_nat (n - size_wrap d)) n (λ i,
     v ← get_values;
     assign_slot v i v (size_wrap (i - 1)))) s = Ok tt s2 →
  (∀ x, read_ref val s2 = Ok (Some x) s2 →
        insert pos val s = insert pos (ref_object x) s) ∧
  (∀ u, read_ref val s2 = Undefined u → insert pos val s = Undefined u).
Proof.
  intros Hdiff Hd0 Hdn Hpre. destruct s as [[n m v] h].
  cbn [this mem sz max_sz values] in *. revert Hpre. rewrite bind_unfold.
  destruct ((if m <=? n then reallocate (grown m) else mret tt)
              (MkState (MkVector n m v) h)) as [[] [[n1 m1 v1] h1]|e1 s1|u1] eqn:Hgrow;
    [|done..].
  run.
  destruct (for_down _ _ _ _) as [[] [[n2 m2 v2] h2]|e2 s2'|u2] eqn:Hshift; [|done..].
  intros [= <-].
  assert (∀ r, insert pos r (MkState (MkVector n m v) h) =
               (x ← read_ref r;
                p ← index v2 (size_wrap d);
                store p x;;
                n ← get_sz;
                set_sz (size_wrap (n + 1));;
                v ← get_values;
                q ← index v (size_wrap d);
                mret (Iterator.Make q)) (MkState (MkVector n2 m2 v2) h2)) as Hins.
  { intros r. unfold insert, begin_, ConstIterator_diff, Iterator_to_const. run.
    cbn [Iterator.ptr ConstIterator.ptr]. rewrite Hdiff. run.
    destruct (Z.ltb_spec d 0); [lia|]. destruct (Z.ltb_spec n (size_wrap d)); [lia|].
    cbn [orb]. run. rewrite Hgrow. run. rewrite Hshift. by run. }
  split; [intros x Hx|intros u Hu]; rewrite !Hins, !bind_unfold.
  - by rewrite Hx, read_ref_object_eq.
  - by rewrite Hu.
Qed.

(** The growth step on a full container: the elements are in a new array,
    the old one is dead, and no other array has changed. *)
Lemma grow_step_full (s : state) (l : list T) :
  holds s l →
  max_sz (this s) ≤ sz (this s) →
  grown (max_sz (this s)) * Z.pos sizeof_T ≤ PTRDIFF_MAX →
  ∃ s1,
    (if max_sz (this s) <=? sz (this s)
     then reallocate (grown (max_sz (this s))) else mret tt) s = Ok tt s1 ∧
    holds s1 l ∧
    sz (this s1) = sz (this s) ∧
    sz (this s1) < max_sz (this s1) ∧
    values (this s1) = Ptr (length (mem s)) 0 ∧
    length (mem s1) = S (length (mem s)) ∧
    (∀ b off, values (this s) = Ptr b off → mem s1 !! b = Some None) ∧
    ∀ b, (b < length (mem s))%nat → ¬ into_buffer s (Ptr b 0) →
         mem s1 !! b = mem s !! b.
Proof.
  intros Hs Hfull Hfit.
  destruct (grow_step s l Hs (λ _, Hfit)) as (s1 & Hrun & Hs1 & Hp1 & Hsz1 & Hroom & _).
  exists s1. split_and!; [done..| | | |].
  all: pose proof Hs as [Hsz Hcap Hlim Hbuf]; pose proof (limit_lt _ Hlim);
    pose proof (grown_ge (max_sz (this s)) ltac:(lia));
    destruct (reallocate_ok s l (grown (max_sz (this s))) Hs ltac:(lia) Hfit)
      as (blk & Hrun' & _);
    destruct (Z.leb_spec (max_sz (this s)) (sz (this s))); [|lia];
    rewrite Hrun' in Hrun; injection Hrun as <-; cbn [this mem values].
  - done.
  - rewrite length_app. cbn. destruct (values (this s)); [lia|].
    rewrite length_insert. lia.
  - intros b off Hv. rewrite Hv in *. destruct Hbuf as (_ & blk0 & Hb & _).
    apply lookup_live_lt in Hb.
    rewrite lookup_app_l by (by rewrite length_insert).
    by apply list_lookup_insert_eq.
  - intros b Hb Hne. unfold into_buffer in Hne.
    destruct (values (this s)) as [|b0 off0].
    + by rewrite lookup_app_l.
    + rewrite lookup_app_l by (by rewrite length_insert).
      by rewrite list_lookup_insert_ne by congruence.
Qed.

(** The loop of [insert] that moves the elements from offset [current] on up
    by one slot, with room for it: afterwards slot [j] holds what slot
    [j - 1] held, for [current < j <= sz], and the other slots are as
    before. *)
Lemma shift_step (s : state) (l : list T) (current : Z) :
  holds s l →
  sz (this s) < max_sz (this s) →
  0 ≤ current ≤ sz (this s) →
  ∃ b blk blk',
    values (this s) = Ptr b 0 ∧
    mem s !! b = Some (Some blk) ∧
    (n ← get_sz;
     for_down (Z.to_nat (n - current)) n (λ i,
       v ← get_values;
       assign_slot v i v (size_wrap (i - 1)))) s
      = Ok tt (MkState (this s) (<[b := Some blk']> (mem s))) ∧
    (∀ (i : nat) (x : T), l !! i = Some x → blk !! i = Some (Some x)) ∧
    ∀ j : nat, blk' !! j =
               if decide (current < Z.of_nat j ≤ sz (this s))
               then blk !! pred j else blk !! j.
Proof.
  destruct s as [[n m v] h]. intros [Hsz Hcap Hlim Hbuf] Hroom Hcur. cbn in *.
  pose proof (limit_lt _ Hlim).
  destruct v as [|b off]; [lia|].
  destruct Hbuf as (-> & blk & Hb & Hlen & Hel).
  destruct (shift_up_loop
              (λ i, v ← get_values; assign_slot v i v (size_wrap (i - 1)))
              (MkVector n m (Ptr b 0)) b (Z.to_nat (n - current)) n h blk)
    as (blk' & Hrun & Hlen' & Hlook); [by intros; run|done|lia|lia|lia|].
  exists b, blk, blk'. split_and!; [done|done| |done|].
  - run. exact Hrun.
  - intros j. rewrite Hlook. repeat case_decide; (done || lia).
Qed.

(** [push_back] of a slot that holds a value: with room, and when the slot
    is in another array than the buffer, the value is appended; on a full
    container a slot of the buffer is read after the buffer was deleted. *)
Lemma push_back_slot (s : state) (l : list T) (p : pointer) (x : T) :
  holds s l →
  load p s = Ok (Some x) s →
  (max_sz (this s) ≤ sz (this s) →
   grown (max_sz (this s)) * Z.pos sizeof_T ≤ PTRDIFF_MAX) →
  (sz (this s) < max_sz (this s) ∨ ¬ into_buffer s p →
   push_back (ref_slot p) s = push_back (ref_object x) s) ∧
  (max_sz (this s) ≤ sz (this s) → into_buffer s p →
   push_back (ref_slot p) s = Undefined (ReadOutOfBounds p)).
Proof.
  intros Hs Hload Hfit.
  destruct (Z.le_gt_cases (max_sz (this s)) (sz (this s))) as [Hfull|Hroom].
  - destruct (grow_step_full s l Hs Hfull (Hfit Hfull))
      as (s1 & Hrun & _ & _ & _ & _ & _ & Hdead & Hkeep).
    destruct (push_back_reads (ref_slot p) s s1 Hrun) as [Hval Hub].
    destruct p as [|b off]; [done|].
    assert (b < length (mem s))%nat as Hb.
    { unfold load, slot_of in Hload. cbn in Hload.
      destruct (mem s !! b) as [o|] eqn:Hmb; [|done]. by apply lookup_lt_Some in Hmb. }
    split.
    + intros [?|Hne]; [lia|]. apply Hval. cbn [read_ref].
      unfold load, slot_of, block_of in *. rewrite Hkeep by done.
      destruct (_ ≫= _) as [c|]; [|done]. by injection Hload as ->.
    + intros _ Hin. apply Hub. cbn [read_ref]. unfold into_buffer in Hin.
      destruct (values (this s)) as [|b0 off0] eqn:Hv; [done|]. subst b0.
      unfold load, slot_of, block_of. by rewrite (Hdead b off0).
  - split; [|lia]. intros _.
    apply (push_back_reads (ref_slot p) s s).
    + by destruct (Z.leb_spec (max_sz (this s)) (sz (this s))); [lia|].
    + exact Hload.
Qed.

(** [insert], at a position it accepts, of a slot that holds a value.  A
    slot of another array than the buffer is read as it was.  A slot of the
    buffer is read after [reallocate] has deleted the buffer, on a full
    container, and after the shifting loop otherwise: at an offset in
    [(current, sz]] it then holds the element that was one slot below. *)
Lemma insert_slot_cases (s : state) (l : list T) (k : Z) (pos p : pointer) (x : T) :
  holds s l →
  0 ≤ k ≤ sz (this s) →
  ptr_add (mem s) (values (this s)) k = Some pos →
  load p s = Ok (Some x) s →
  (max_sz (this s) ≤ sz (this s) →
   grown (max_sz (this s)) * Z.pos sizeof_T ≤ PTRDIFF_MAX) →
  (¬ into_buffer s p →
   insert (ConstIterator.Make pos) (ref_slot p) s
   = insert (ConstIterator.Make pos) (ref_object x) s) ∧
  (max_sz (this s) ≤ sz (this s) → into_buffer s p →
   insert (ConstIterator.Make pos) (ref_slot p) s = Undefined (ReadOutOfBounds p)) ∧
  (sz (this s) < max_sz (this s) →
   ∀ b off, p = Ptr b off → into_buffer s p →
     ∃ y, (if decide (k < off ≤ sz (this s))
           then l !! Z.to_nat (off - 1) = Some y else y = x) ∧
          insert (ConstIterator.Make pos) (ref_slot p) s
          = insert (ConstIterator.Make pos) (ref_object y) s).
Proof.
  intros Hs Hk Hpos Hload Hfit.
  pose proof (position_inv s l k pos Hs Hk Hpos) as Hdiff.
  pose proof Hs as [Hsz Hcap Hlim Hbuf]. pose proof (limit_lt _ Hlim).
  assert (size_wrap k = k) as Hwrap by (apply size_wrap_small; lia).
  destruct p as [|b off]; [done|].
  assert ((b < length (mem s))%nat ∧ 0 ≤ off ∧
          ∃ blk, mem s !! b = Some (Some blk) ∧ blk !! Z.to_nat off = Some (Some x))
    as (Hb & Hoff & blk & Hmb & Hx).
  { unfold load, slot_of in Hload. cbn in Hload.
    destruct (mem s !! b) as [[blk|]|] eqn:Hmb; [|done..]. cbn in Hload.
    destruct (Z.leb_spec 0 off); [|done].
    destruct (blk !! Z.to_nat off) as [c|] eqn:Hc; [|done]. injection Hload as ->.
    split_and!; [by apply lookup_lt_Some in Hmb|done|eauto]. }
  destruct (Z.le_gt_cases (max_sz (this s)) (sz (this s))) as [Hfull|Hroom].
  - destruct (grow_step_full s l Hs Hfull (Hfit Hfull))
      as (s1 & Hrun & Hs1 & Hsz1 & Hroom1 & Hv1 & Hlen1 & Hdead & Hkeep).
    destruct (shift_step s1 l k Hs1 Hroom1 ltac:(lia))
      as (b1 & blk1 & blk1' & Hvb1 & Hmb1 & Hshift & _ & _).
    rewrite Hv1 in Hvb1. injection Hvb1 as <-.
    set (s2 := MkState (this s1) (<[length (mem s) := Some blk1']> (mem s1))).
    assert (mem s2 !! b = mem s1 !! b) as Hsame
      by (unfold s2; cbn [mem]; rewrite list_lookup_insert_ne by lia; done).
    destruct (insert_reads (ConstIterator.Make pos) (ref_slot (Ptr b off)) s s2 k)
      as [Hval Hub]; [done|lia|lia| |].
    { rewrite bind_unfold, Hrun, Hwrap. exact Hshift. }
    split_and!.
    + intros Hne. apply Hval. cbn [read_ref].
      unfold load, slot_of, block_of. rewrite Hsame, Hkeep by done.
      rewrite Hmb. cbn. destruct (Z.leb_spec 0 off); [|lia]. by rewrite Hx.
    + intros _ Hin. apply Hub. cbn [read_ref]. unfold into_buffer in Hin.
      destruct (values (this s)) as [|b0 off0] eqn:Hv; [done|]. subst b0.
      unfold load, slot_of, block_of. by rewrite Hsame, (Hdead b off0).
    + lia.
  - destruct (shift_step s l k Hs Hroom Hk)
      as (b0 & blk0 & blk0' & Hv & Hmb0 & Hshift & Hel & Hlook).
    set (s2 := MkState (this s) (<[b0 := Some blk0']> (mem s))).
    destruct (insert_reads (ConstIterator.Make pos) (ref_slot (Ptr b off)) s s2 k)
      as [Hval _]; [done|lia|lia| |].
    { rewrite bind_unfold.
      destruct (Z.leb_spec (max_sz (this s)) (sz (this s))); [lia|].
      rewrite mret_eq, Hwrap. exact Hshift. }
    split_and!.
    + intros Hne. apply Hval. cbn [read_ref]. unfold into_buffer in Hne.
      rewrite Hv in Hne. unfold load, slot_of, block_of, s2. cbn [mem].
      rewrite list_lookup_insert_ne by congruence.
      rewrite Hmb. cbn. destruct (Z.leb_spec 0 off); [|lia]. by rewrite Hx.
    + lia.
    + intros _ b' off' [= <- <-] Hin. unfold into_buffer in Hin.
      rewrite Hv in Hin. subst b0. rewrite Hmb0 in Hmb. injection Hmb as <-.
      assert (∃ y, blk0' !! Z.to_nat off = Some (Some y) ∧
                   if decide (k < off ≤ sz (this s))
                   then l !! Z.to_nat (off - 1) = Some y else y = x)
        as (y & Hy & Hwhich).
      { rewrite Hlook. rewrite Z2Nat.id by lia.
        destruct (decide (k < off ≤ sz (this s))) as [Hin|Hout].
        - destruct (lookup_lt_is_Some_2 l (Z.to_nat (off - 1))) as [y Hy]; [lia|].
          exists y. split; [|done].
          replace (pred (Z.to_nat off)) with (Z.to_nat (off - 1)) by lia.
          by apply Hel.
        - by exists x. }
      exists y. split; [done|]. apply Hval. cbn [read_ref].
      unfold load, slot_of, block_of, s2. cbn [mem].
      rewrite list_lookup_insert_eq by (by apply lookup_lt_Some in Hmb0).
      cbn. destruct (Z.leb_spec 0 off); [|lia]. by rewrite Hy.
Qed.

Lemma into_buffer_cases (s : state) (p : pointer) :
  into_buffer s p ∨ ¬ into_buffer s p.
Proof.
  unfold into_buffer. destruct p as [|b off], (values (this s)) as [|b' off'];
    [right; intros []..|]. destruct (decide (b = b')); [by left|by right].
Qed.

(** A returning call whose argument is a slot holding a value leaves a
    well-formed container, and other containers as they were. *)
Lemma push_back_slot_holds (s s' : state) (l : list T) (p : pointer) (x : T) :
  holds s l →
  load p s = Ok (Some x) s →
  push_back (ref_slot p) s = Ok tt s' →
  holds s' (l ++ [x]) ∧ preserves s s'.
Proof.
  intros Hs Hload Hrun. pose proof Hs as [Hsz Hcap Hlim Hbuf].
  pose proof (limit_lt _ Hlim).
  destruct (Z.le_gt_cases (max_sz (this s)) (sz (this s))) as [Hfull|Hroom];
    [destruct (Z.le_gt_cases (grown (max_sz (this s)) * Z.pos sizeof_T) PTRDIFF_MAX)
      as [Hfit|Hbig]|].
  - destruct (push_back_slot s l p x Hs Hload (λ _, Hfit)) as [Hval Hub].
    destruct (into_buffer_cases s p) as [Hin|Hout].
    + by rewrite Hub in Hrun.
    + rewrite Hval in Hrun by (by right).
      destruct (push_back_ok s l x Hs (λ _, Hfit)) as (s1 & Hrun1 & Hs1 & Hp1 & _).
      rewrite Hrun1 in Hrun. by injection Hrun as <-.
  - rewrite push_back_throw in Hrun; [done|done| |done].
    pose proof (grown_ge (max_sz (this s))). lia.
  - destruct (push_back_slot s l p x Hs Hload ltac:(lia)) as [Hval _].
    rewrite Hval in Hrun by (by left).
    destruct (push_back_ok s l x Hs ltac:(lia)) as (s1 & Hrun1 & Hs1 & Hp1 & _).
    rewrite Hrun1 in Hrun. by injection Hrun as <-.
Qed.

Lemma insert_slot_holds (s s' : state) (l : list T) (pos : ConstIterator.t)
    (p : pointer) (x : T) (it : Iterator.t) :
  holds s l →
  load p s = Ok (Some x) s →
  insert pos (ref_slot p) s = Ok it s' →
  ∃ l', holds s' l' ∧ preserves s s'.
Proof.
  intros Hs Hload Hrun. pose proof Hs as [Hsz Hcap Hlim Hbuf].
  pose proof (limit_lt _ Hlim).
  destruct (ptr_diff (ConstIterator.ptr pos) (values (this s))) as [d|] eqn:Hdiff;
    [|by rewrite insert_undefined in Hrun].
  destruct (decide (0 ≤ d ≤ sz (this s))) as [Hd|Hd].
  2:{ apply ptr_diff_Some in Hdiff as Hrange.
      rewrite (insert_throw s pos _ d) in Hrun; [done|done|].
      destruct (Z.lt_ge_cases d 0); [by left|right].
      rewrite size_wrap_small;
        destruct Hrange as [(_ & _ & ->)|(? & ? & ? & _ & _ & _ & ?)]; lia. }
  pose proof (position_of_diff s l _ d Hs Hdiff Hd) as Hpos.
  destruct pos as [q]. cbn [ConstIterator.ptr] in *.
  assert (∀ y, insert (ConstIterator.Make q) (ref_slot p) s
               = insert (ConstIterator.Make q) (ref_object y) s →
               (max_sz (this s) ≤ sz (this s) →
                grown (max_sz (this s)) * Z.pos sizeof_T ≤ PTRDIFF_MAX) →
               ∃ l', holds s' l' ∧ preserves s s') as Hobj.
  { intros y Heq Hfit. rewrite Heq in Hrun.
    destruct (insert_ok s l d q y Hs Hd Hpos Hfit) as (s1 & q1 & Hrun1 & Hs1 & Hp1 & _).
    rewrite Hrun1 in Hrun. injection Hrun as _ <-. eauto. }
  destruct (Z.le_gt_cases (max_sz (this s)) (sz (this s))) as [Hfull|Hroom];
    [destruct (Z.le_gt_cases (grown (max_sz (this s)) * Z.pos sizeof_T) PTRDIFF_MAX)
      as [Hfit|Hbig]|].
  - destruct (insert_slot_cases s l d q p x Hs Hd Hpos Hload (λ _, Hfit))
      as (Hout & Hub & _).
    destruct (into_buffer_cases s p) as [Hin|Hnot].
    + by rewrite Hub in Hrun.
    + by apply (Hobj x); [apply Hout|].
  - by rewrite (insert_alloc_throw s l d q) in Hrun.
  - destruct (insert_slot_cases s l d q p x Hs Hd Hpos Hload ltac:(lia))
      as (Hout & _ & Hin).
    destruct (into_buffer_cases s p) as [Hyes|Hnot].
    + destruct p as [|b off]; [done|].
      destruct (Hin Hroom b off eq_refl Hyes) as (y & _ & Heq).
      apply (Hobj y); [done|lia].
    + apply (Hobj x); [by apply Hout|lia].
Qed.

(** * The claims *)

Lemma holds_size (s : state) (l : list T) :
  holds s l → size s = Ok (Z.of_nat (length l)) s.
Proof. intros [Hsz _ _ _]. destruct s as [[n m v] h]. cbn in *. by subst n. Qed.

Lemma holds_read_at (s : state) (l : list T) (i : nat) (x : T) :
  holds s l → l !! i = Some x → read_at (Z.of_nat i) s = Ok (Some x) s.
Proof.
  intros Hs Hx. destruct (subscript_ok s l i x Hs Hx) as (p & Hp & _ & Hload).
  unfold read_at. by rewrite bind_unfold, Hp.
Qed.

Lemma push_back_all_ok (els : list T) :
  ∀ (s : state) (l : list T),
    holds s l →
    (Z.of_nat (length l + length els) + Z.of_nat (length l + length els) / 2)
      * Z.pos sizeof_T ≤ PTRDIFF_MAX →
    ∃ s', push_back_all els s = Ok tt s' ∧ holds s' (l ++ els).
Proof.
  induction els as [|el els IH]; intros s l Hs Hfit.
  - exists s. by rewrite app_nil_r.
  - cbn [length] in Hfit. pose proof Hs as [Hsz Hcap Hlim Hbuf].
    pose proof (limit_lt _ Hlim).
    destruct (push_back_ok s l el Hs) as (s1 & Hrun1 & Hs1 & _).
    { intros Hfull. rewrite grown_small by lia.
      assert (max_sz (this s) = Z.of_nat (length l)) as -> by lia.
      eapply Z.le_trans; [|exact Hfit].
      apply Z.mul_le_mono_nonneg_r; [lia|].
      pose proof (Z.div_le_mono (Z.of_nat (length l))
                    (Z.of_nat (length l + S (length els))) 2). lia. }
    destruct (IH s1 (l ++ [el]) Hs1) as (s' & Hrun' & Hs').
    { rewrite length_app. cbn [length].
      by replace (length l + 1 + length els)%nat with (length l + S (length els))%nat by lia. }
    exists s'. cbn [push_back_all]. rewrite bind_unfold, Hrun1, Hrun'.
    by rewrite <- app_assoc in Hs'.
Qed.

(** C2. On a container with [size == capacity], [push_back], and [insert] at
    a valid offset, leave the capacity at exactly
    [old + old / 2 + 1] (so at 1 from 0); with [size < capacity] they leave
    it unchanged. *)
Theorem growth_policy (s : state) (l : list T) (k : Z) (p : pointer) (el : T) :
  holds s l →
  0 ≤ k ≤ sz (this s) →
  ptr_add (mem s) (values (this s)) k = Some p →
  (sz (this s) = max_sz (this s) →
   (max_sz (this s) + max_sz (this s) / 2 + 1) * Z.pos sizeof_T ≤ PTRDIFF_MAX) →
  ∃ s1 s2 it,
    push_back (ref_object el) s = Ok tt s1 ∧
    insert (ConstIterator.Make p) (ref_object el) s = Ok it s2 ∧
    (sz (this s) = max_sz (this s) →
     max_sz (this s1) = max_sz (this s) + max_sz (this s) / 2 + 1 ∧
     max_sz (this s2) = max_sz (this s) + max_sz (this s) / 2 + 1) ∧
    (sz (this s) = max_sz (this s) → max_sz (this s) = 0 →
     max_sz (this s1) = 1 ∧ max_sz (this s2) = 1) ∧
    (sz (this s) < max_sz (this s) →
     max_sz (this s1) = max_sz (this s) ∧ max_sz (this s2) = max_sz (this s)).
Proof.
  intros Hs Hk Hp Hfit. pose proof Hs as [Hsz Hcap Hlim Hbuf].
  pose proof (limit_lt _ Hlim).
  assert (max_sz (this s) ≤ sz (this s) →
          grown (max_sz (this s)) * Z.pos sizeof_T ≤ PTRDIFF_MAX) as Hfit'.
  { intros Hfull. rewrite grown_small by lia. apply Hfit. lia. }
  destruct (push_back_ok s l el Hs Hfit') as (s1 & Hrun1 & _ & _ & Hmax1).
  destruct (insert_ok s l k p el Hs Hk Hp Hfit') as (s2 & q & Hrun2 & _ & _ & Hmax2 & _).
  exists s1, s2, (Iterator.Make q). split_and!; [done..| | |].
  - intros Hfull. destruct (Z.leb_spec (max_sz (this s)) (sz (this s))); [done|lia].
  - intros Hfull Hzero.
    destruct (Z.leb_spec (max_sz (this s)) (sz (this s))); [|lia].
    rewrite Hzero in *. done.
  - intros Hroom. destruct (Z.leb_spec (max_sz (this s)) (sz (this s))); [lia|done].
Qed.

Lemma reachable_holds (s : state) : reachable s → ∃ l, holds s l.
Proof.
  induction 1 as [s0 s Hrun|s0 n s Hn Hrun|s0 il s Hrun|s0 w s _ [l Hs0] Hrun
                  |s0 arg s _ [l Hs0] _ [la Ha] Hrun|s0 o s _ [l Hs0] Hrun
                  |s0 o e s _ [l Hs0] Hrun|s0 blk _ [l Hs0]
                  |s0 p x s _ [l Hs0] Hload Hrun
                  |s0 pos p x it s _ [l Hs0] Hload Hrun].
  - destruct s0 as [v0 h]. destruct (Vector_default_ok v0 h) as [Hrun' Hs].
    rewrite Hrun' in Hrun. injection Hrun as <-. eauto.
  - destruct s0 as [v0 h].
    destruct (Z.le_gt_cases (n * Z.pos sizeof_T) PTRDIFF_MAX) as [Hfit|Hbig].
    + destruct (Vector_n_ok v0 h n Hn Hfit) as [Hrun' Hs].
      rewrite Hrun' in Hrun. injection Hrun as <-. eauto.
    + destruct (Vector_n_throw (MkState v0 h) n Hbig) as [s' Hrun'].
      by rewrite Hrun' in Hrun.
  - destruct s0 as [v0 h].
    destruct (Z.le_gt_cases (Z.of_nat (length il) * Z.pos sizeof_T) PTRDIFF_MAX)
      as [Hfit|Hbig].
    + destruct (Vector_il_ok v0 h il Hfit) as (blk & Hrun' & Hs).
      rewrite Hrun' in Hrun. injection Hrun as <-. eauto.
    + unfold Vector_il in Hrun. revert Hrun. run.
      by rewrite new_array_throw.
  - destruct (copy_construct_ok s0 (this s0) l Hs0) as (w' & h' & Hrun' & _ & _ & _ & Hw & _).
    rewrite Hrun' in Hrun. injection Hrun as <- <-. by exists l.
  - destruct (Vector_assign_ok s0 arg l la Hs0 Ha) as (s' & Hrun' & Hs' & _).
    rewrite Hrun' in Hrun. injection Hrun as <-. eauto.
  - destruct (run_op_holds o s0 s l Hs0 Hrun) as [Hs _]. exact Hs.
  - apply strong_run_op in Hrun as ->. eauto.
  - exists l. by apply repr_heap_app.
  - destruct (push_back_slot_holds s0 s l p x Hs0 Hload Hrun) as [Hs _]. eauto.
  - destruct (insert_slot_holds s0 s l pos p x it Hs0 Hload Hrun) as (l' & Hs & _).
    eauto.
Qed.

(** C3. In every reachable state of a container, [size() <= capacity()]. *)
Theorem size_le_capacity (s : state) :
  reachable s → 0 ≤ sz (this s) ≤ max_sz (this s).
Proof.
  intros Hs. apply reachable_holds in Hs as [l [Hsz Hcap _ _]]. lia.
Qed.

(** C5. [pop_back] throws exactly when the container is empty, and otherwise
    decrements [sz] and touches nothing else; [operator[]] throws exactly
    when [index >= sz], in particular at [index == size()]. *)
Theorem checked_access (s : state) (l : list T) :
  holds s l →
  (sz (this s) = 0 → pop_back s = Throw (runtime_error "Vector is empty") s) ∧
  (sz (this s) ≠ 0 →
   pop_back s =
   Ok tt (MkState (MkVector (sz (this s) - 1) (max_sz (this s)) (values (this s)))
            (mem s))) ∧
  (∀ i, sz (this s) ≤ i →
        subscript i s = Throw (runtime_error "Vector out of bounds") s) ∧
  (∀ i, 0 ≤ i < sz (this s) →
        ∃ p, subscript i s = Ok p s ∧
             ptr_add (mem s) (values (this s)) i = Some p) ∧
  (∀ i e s', i < sz (this s) → subscript i s ≠ Throw e s') ∧
  subscript (sz (this s)) s = Throw (runtime_error "Vector out of bounds") s.
Proof.
  intros Hs. pose proof Hs as [Hsz Hcap Hlim Hbuf]. pose proof (limit_lt _ Hlim).
  split_and!.
  - apply pop_back_empty.
  - intros Hn. rewrite pop_back_nonempty by done. by rewrite size_wrap_small by lia.
  - apply subscript_throw.
  - intros i Hi.
    destruct (lookup_lt_is_Some_2 l (Z.to_nat i)) as [x Hx]; [lia|].
    destruct (subscript_ok s l _ x Hs Hx) as (p & Hp & Hadd & _).
    rewrite Z2Nat.id in * by lia. eauto.
  - intros i e s' Hi Hrun. rewrite subscript_in_range in Hrun by done.
    by apply (read_only_no_throw _ (read_only_index _ _)) in Hrun.
  - by apply subscript_throw.
Qed.

(** C6. A call of [pop_back], [operator[]], [insert] or [erase] that throws
    leaves the object and the heap exactly as they were. *)
Theorem rejected_call_changes_nothing (s s' : state) (e : exn) :
  (pop_back s = Throw e s' → s' = s) ∧
  (∀ i, subscript i s = Throw e s' → s' = s) ∧
  (∀ pos val, insert pos val s = Throw e s' → s' = s) ∧
  (∀ pos, erase pos s = Throw e s' → s' = s).
Proof.
  split_and!.
  - apply strong_pop_back.
  - intros i. apply strong_subscript.
  - intros pos val. apply strong_insert.
  - intros pos. apply strong_erase.
Qed.

Lemma run_op_frame (o : op) (a w : Vector) (h : heap) (l lw : list T) (s2 : state) :
  repr a h l →
  repr w h lw →
  values w = nullptr ∨ values w ≠ values a →
  run_op o (MkState a h) = Ok tt s2 ∨ (∃ e, run_op o (MkState a h) = Throw e s2) →
  repr w (mem s2) lw.
Proof.
  intros Ha Hw Hsep [Hrun|[e Hrun]].
  - destruct (run_op_holds o (MkState a h) s2 l Ha Hrun) as [_ Hp].
    by apply (repr_preserved _ _ _ _ Hp).
  - by apply strong_run_op in Hrun as ->.
Qed.

(** C9. Copy construction yields a container with the size, the elements and
    the capacity of the source, the source being left as it was; whatever
    mutating call is then made on the source, the copy still holds the same
    elements.  Copy assignment from another container does the same to the
    assigned container. *)
Theorem copy_is_deep (s : state) (a : Vector) (l lthis : list T) :
  holds s lthis →
  repr a (mem s) l →
  values a = nullptr ∨ values a ≠ values (this s) →
  (∃ w s1,
     construct (Vector_copy a) s = Ok w s1 ∧
     sz w = sz a ∧ max_sz w = max_sz a ∧
     repr w (mem s1) l ∧ repr a (mem s1) l ∧
     ∀ o s2,
       run_op o (MkState a (mem s1)) = Ok tt s2 ∨
       (∃ e, run_op o (MkState a (mem s1)) = Throw e s2) →
       repr w (mem s2) l ∧ sz w = Z.of_nat (length l)) ∧
  (∃ s1,
     Vector_assign a s = Ok tt s1 ∧
     sz (this s1) = sz a ∧ max_sz (this s1) = max_sz a ∧
     holds s1 l ∧ repr a (mem s1) l ∧
     ∀ o s2,
       run_op o (MkState a (mem s1)) = Ok tt s2 ∨
       (∃ e, run_op o (MkState a (mem s1)) = Throw e s2) →
       repr (this s1) (mem s2) l ∧ sz (this s1) = Z.of_nat (length l)).
Proof.
  intros Hs Ha Hsep. split.
  - destruct (copy_construct_ok s a l Ha)
      as (w & h' & Hrun & Hwsz & Hwmax & Hwv & Hw & blk & ->).
    exists w, (MkState (this s) (mem s ++ [Some blk])). cbn [mem].
    assert (repr a (mem s ++ [Some blk]) l) as Ha' by (by apply repr_heap_app).
    split_and!; [done..|].
    intros o s2 Hrun2. split; [|by destruct Hw].
    eapply run_op_frame; [exact Ha'|exact Hw| |exact Hrun2].
    right. rewrite Hwv. destruct Ha as [_ _ _ Hbuf].
    destruct (values a) as [|b off]; [done|].
    destruct Hbuf as (-> & blk0 & Hb & _). apply lookup_live_lt in Hb.
    intros [= Heq]. lia.
  - destruct (Vector_assign_ok s a lthis l Hs Ha) as (s1 & Hrun & Hs1 & Hsz1 & Hmax1 & Hp).
    exists s1.
    assert (repr a (mem s1) l) as Ha'
      by (apply (repr_preserved s s1); [done|done|]; destruct Hsep; auto).
    split_and!; [done..|].
    intros o s2 Hrun2. split; [|by destruct Hs1].
    eapply run_op_frame; [exact Ha'|exact Hs1| |exact Hrun2].
    destruct Hp as (_ & [Hv|(b & Hv & Hb)] & _); rewrite Hv.
    + destruct Hsep as [Hnull|Hne]; [|right; congruence].
      destruct (values (this s)); [by left|]. right. by rewrite Hnull.
    + right. destruct Ha as [_ _ _ Hbuf].
      destruct (values a) as [|b0 off]; [done|].
      destruct Hbuf as (-> & blk0 & Hb0 & _). apply lookup_live_lt in Hb0.
      intros [= Heq]. lia.
Qed.

(** C10. Post-increment, on [Iterator] and on [ConstIterator] alike, moves
    the cursor one slot forward and returns a default-constructed iterator,
    which is null and so differs from the position the cursor had. *)
Theorem post_increment_returns_null (s : state) (it : Iterator.t) (cit : ConstIterator.t) :
  match Iterator_post_increment it s with
  | Ok (r, it') s' =>
      s' = s ∧
      ptr_add (mem s) (Iterator.ptr it) 1 = Some (Iterator.ptr it') ∧
      r = Iterator.default ∧
      Iterator_eq r (Iterator_to_const it) = false
  | Throw _ _ => False
  | Undefined _ => ptr_add (mem s) (Iterator.ptr it) 1 = None
  end ∧
  match ConstIterator_post_increment cit s with
  | Ok (r, cit') s' =>
      s' = s ∧
      ptr_add (mem s) (ConstIterator.ptr cit) 1 = Some (ConstIterator.ptr cit') ∧
      r = ConstIterator.default ∧
      ConstIterator_eq r cit = false
  | Throw _ _ => False
  | Undefined _ => ptr_add (mem s) (ConstIterator.ptr cit) 1 = None
  end ∧
  (is_Some (slot_of (mem s) (Iterator.ptr it)) →
   ∃ it', Iterator_post_increment it s = Ok (Iterator.default, it') s) ∧
  (is_Some (slot_of (mem s) (ConstIterator.ptr cit)) →
   ∃ cit', ConstIterator_post_increment cit s = Ok (ConstIterator.default, cit') s).
Proof.
  assert (∀ p q, ptr_add (mem s) p 1 = Some q → p ≠ nullptr) as Hnn
    by (by intros [|] q).
  assert (∀ p, is_Some (slot_of (mem s) p) → is_Some (ptr_add (mem s) p 1)) as Hslot.
  { intros [|b off] [c Hc]; [done|]. cbn in *.
    destruct (mjoin (mem s !! b)) as [blk|]; [|done]. cbn in *.
    destruct (Z.leb_spec 0 off); [|done]. apply lookup_lt_Some in Hc.
    destruct (Z.leb_spec 0 (off + 1)); [|lia].
    destruct (Z.leb_spec (off + 1) (Z.of_nat (length blk))); [|lia]. by eexists. }
  unfold Iterator_post_increment, Iterator_pre_increment,
    ConstIterator_post_increment, ConstIterator_pre_increment, index.
  rewrite !bind_unfold. split_and!.
  - destruct it as [p]. cbn [Iterator.ptr].
    destruct (ptr_add (mem s) p 1) as [q|] eqn:Hq; [|done].
    rewrite mret_eq. cbv iota. rewrite mret_eq.
    split_and!; [done..|]. unfold Iterator_eq. cbn.
    apply bool_decide_eq_false. intros Heq. by apply (Hnn p q).
  - destruct cit as [p]. cbn [ConstIterator.ptr].
    destruct (ptr_add (mem s) p 1) as [q|] eqn:Hq; [|done].
    rewrite mret_eq. cbv iota. rewrite mret_eq.
    split_and!; [done..|]. unfold ConstIterator_eq. cbn.
    apply bool_decide_eq_false. intros Heq. by apply (Hnn p q).
  - intros [q Hq]%Hslot. rewrite Hq. by eexists.
  - intros [q Hq]%Hslot. rewrite Hq. by eexists.
Qed.

(** The round trip of C8, where the buffer has a spare slot: [erase] at
    offset [k], then [insert] of the erased value at the offset returned,
    gives back the same elements, size and capacity. *)
Lemma erase_insert_with_room (s : state) (l : list T) (k : nat) (x : T) (p : pointer) :
  holds s l →
  l !! k = Some x →
  sz (this s) < max_sz (this s) →
  ptr_add (mem s) (values (this s)) (Z.of_nat k) = Some p →
  ∃ s1 s2 it it',
    erase (ConstIterator.Make p) s = Ok it s1 ∧
    insert (Iterator_to_const it) (ref_object x) s1 = Ok it' s2 ∧
    holds s2 l ∧
    sz (this s2) = sz (this s) ∧
    max_sz (this s2) = max_sz (this s).
Proof.
  intros Hs Hx Hroom Hp. apply lookup_lt_Some in Hx as Hk.
  pose proof Hs as [Hsz Hcap Hlim Hbuf].
  destruct (erase_ok s l (Z.of_nat k) p Hs) as (s1 & Hrun1 & Hs1 & _ & Hmax1 & Hp1);
    [lia|done|done|].
  pose proof Hs1 as [Hsz1 Hcap1 _ _].
  rewrite Nat2Z.id, length_delete in * by eauto.
  destruct (insert_ok s1 _ (Z.of_nat k) p x Hs1) as (s2 & q & Hrun2 & Hs2 & _ & Hmax2 & _);
    [lia|done|lia|].
  exists s1, s2, (Iterator.Make p), (Iterator.Make q).
  rewrite Nat2Z.id in Hs2.
  assert (take k (delete k l) ++ x :: drop k (delete k l) = l) as Heq.
  { rewrite delete_take_drop, take_app_length', drop_app_length'
      by (rewrite length_take; lia).
    rewrite <- (take_drop_middle l k x) at 3 by done. done. }
  rewrite Heq in Hs2. split_and!; [done..| |].
  - destruct Hs2 as [-> _ _ _]. lia.
  - destruct (Z.leb_spec (max_sz (this s1)) (sz (this s1))); [lia|]. congruence.
Qed.

(** * Further properties of the code *)

(** ** Rendering *)

Lemma render_front_ok v b (blk : list cell) (h : heap) (n : nat) :
  ∀ (i : nat) (l : list T),
    values v = Ptr b 0 →
    h !! b = Some (Some blk) →
    (∀ (j : nat) (x : T), l !! j = Some x → blk !! (i + j)%nat = Some (Some x)) →
    length l = n →
    Z.of_nat (i + n) ≤ Z.of_nat (length blk) →
    Z.of_nat (i + n) < 2 ^ 64 →
    for_up_out n (Z.of_nat i) (λ i,
      v ← get_values;
      p ← index v i;
      x ← load p;
      mret [out_value x; out_string ", "]) (MkState v h)
    = Ok (flat_map (λ x, [out_value (Some x); out_string ", "]) l) (MkState v h).
Proof.
  induction n as [|n IH]; intros i l Hv Hb Hel Hlen Hle Hw.
  - destruct l; [done|done].
  - destruct l as [|x l]; [done|]. cbn [length] in Hlen.
    destruct v as [vn vm vp]. cbn in Hv. subst vp.
    cbn [for_up_out]. run.
    rewrite (index_Ptr _ _ _ blk) by (done || lia). run.
    rewrite (load_Ptr _ _ _ blk _ (Some x)); [|done|lia|].
    2:{ specialize (Hel O x eq_refl). rewrite Nat.add_0_r in Hel.
        by replace (Z.to_nat (0 + Z.of_nat i)) with i by lia. }
    run. rewrite size_wrap_small by lia.
    replace (Z.of_nat i + 1) with (Z.of_nat (S i)) by lia.
    rewrite (IH (S i) l); [done|done|done| |lia|lia|lia].
    intros j y Hy. specialize (Hel (S j) y Hy).
    by replace (S i + j)%nat with (i + S j)%nat by lia.
Qed.

Lemma separated_front_last (l : list T) (x : T) :
  flat_map (λ y, [out_value (Some y); out_string ", "]) l ++ [out_value (Some x)]
  = separated (l ++ [x]).
Proof.
  induction l as [|y l IH]; [done|].
  cbn [flat_map app]. rewrite IH. cbn [separated].
  by destruct (l ++ [x]) eqn:Heq; [destruct l|].
Qed.

(** X1. [operator<<] on a container holding [l] writes ['['], the elements
    of [l] in order separated by [", "], and [']'] (so ["[]"] when empty),
    and changes nothing. *)
Theorem render_elements (s : state) (l : list T) :
  holds s l →
  render s = Ok ([out_char "["%char] ++ separated l ++ [out_char "]"%char]) s.
Proof.
  intros Hs. destruct s as [[n m v] h]. pose proof Hs as [Hsz Hcap Hlim Hbuf].
  cbn [this mem sz max_sz values] in *. pose proof (limit_lt _ Hlim).
  unfold render, empty. run.
  destruct (Z.eqb_spec n 0) as [Hz|Hnz]; cbn [negb].
  - destruct l; [done|]. cbn [length] in Hsz. lia.
  - destruct v as [|b off]; [lia|].
    destruct Hbuf as (-> & blk & Hb & Hlen & Hel).
    destruct (exists_last (l:=l)) as (front & x & ->).
    { intros ->. cbn in Hsz. lia. }
    rewrite length_app in Hsz. cbn [length] in Hsz.
    run. rewrite size_wrap_small by lia.
    replace (Z.to_nat (n - 1)) with (length front) by lia.
    rewrite (render_front_ok _ b blk h (length front) O front); [|done|done| |done|lia|lia].
    2:{ intros j y Hy. apply Hel. by apply lookup_app_l_Some. }
    run. rewrite size_wrap_small by lia.
    rewrite (index_Ptr _ _ _ blk) by (done || lia). run.
    rewrite (load_Ptr _ _ _ blk _ (Some x)); [|done|lia|].
    2:{ replace (Z.to_nat (0 + (n - 1))) with (length front) by lia.
        apply Hel. rewrite lookup_app_r by lia. by rewrite Nat.sub_diag. }
    run. rewrite <- separated_front_last. by rewrite <- !app_assoc.
Qed.

(** ** What happens to the heap *)

Lemma in_place_bind {A B} (m : M A) (f : A → M B) :
  in_place m → (∀ a, in_place (f a)) → in_place (m ≫= f).
Proof.
  intros Hm Hf s b s'. rewrite bind_unfold.
  destruct (m s) as [a s1|e1 s1|u] eqn:Hrun; [|done..].
  intros Hrun'. apply Hm in Hrun as (H1 & H2 & H3).
  apply Hf in Hrun' as (H4 & H5 & H6). split_and!; congruence.
Qed.

Lemma read_only_in_place {A} (m : M A) : read_only m → in_place m.
Proof.
  intros Hm s a s' Hrun. specialize (Hm s). rewrite Hrun in Hm. by subst s'.
Qed.

Lemma in_place_throw {A} (e : exn) : in_place (throw e : M A).
Proof. by intros s a s'. Qed.

Lemma in_place_set_sz n : in_place (set_sz n).
Proof. intros s a s'. unfold set_sz. by intros [= _ <-]. Qed.

Lemma shape_store (h : heap) b (blk blk' : list cell) :
  h !! b = Some (Some blk) → shape (<[b := Some blk']> h) = shape h.
Proof.
  intros Hb. unfold shape. rewrite list_fmap_insert.
  apply list_insert_id. by rewrite list_lookup_fmap, Hb.
Qed.

Lemma block_of_Some (h : heap) b off (blk : list cell) :
  block_of h (Ptr b off) = Some blk → h !! b = Some (Some blk).
Proof. cbn. by destruct (h !! b) as [[|]|]; intros [= ->]. Qed.

Lemma in_place_store p c : in_place (store p c).
Proof.
  intros s a s'. unfold store. destruct p as [|b off]; [done|].
  destruct (block_of (mem s) (Ptr b off)) as [blk|] eqn:Hblk; [|done].
  destruct (_ && _); [|done]. intros [= _ <-]. cbn [this mem].
  split; [|done]. eapply shape_store. by eapply block_of_Some.
Qed.

Lemma in_place_assign_slot dst j src i : in_place (assign_slot dst j src i).
Proof.
  unfold assign_slot.
  apply in_place_bind; [apply read_only_in_place, read_only_index|intros q].
  apply in_place_bind; [apply read_only_in_place, read_only_load|intros x].
  apply in_place_bind; [apply read_only_in_place, read_only_index|intros p].
  apply in_place_store.
Qed.

Lemma in_place_for_up (body : Z → M unit) (n : nat) :
  (∀ i, in_place (body i)) → ∀ i, in_place (for_up n i body).
Proof.
  intros Hbody. induction n as [|n IH]; intros i.
  - intros s a s'. cbn [for_up]. rewrite mret_eq. by intros [= _ <-].
  - cbn [for_up]. apply in_place_bind; [apply Hbody|intros _; apply IH].
Qed.

Lemma in_place_for_down (body : Z → M unit) (n : nat) :
  (∀ i, in_place (body i)) → ∀ i, in_place (for_down n i body).
Proof.
  intros Hbody. induction n as [|n IH]; intros i.
  - intros s a s'. cbn [for_down]. rewrite mret_eq. by intros [= _ <-].
  - cbn [for_down]. apply in_place_bind; [apply Hbody|intros _; apply IH].
Qed.

#[local] Hint Resolve read_only_in_place in_place_throw in_place_set_sz
  in_place_store in_place_assign_slot : safety.

Ltac in_place_steps :=
  repeat first
    [ solve [auto with safety]
    | apply in_place_bind; [|intros ?]
    | apply in_place_for_up; intros ?
    | apply in_place_for_down; intros ? ].

Lemma in_place_erase pos : in_place (erase pos).
Proof.
  unfold erase.
  apply in_place_bind; [auto with safety|intros b].
  apply in_place_bind; [auto with safety|intros diff].
  apply in_place_bind; [auto with safety|intros n].
  destruct (_ || _); [auto with safety|]. in_place_steps.
Qed.

Lemma in_place_pop_back : in_place pop_back.
Proof.
  unfold pop_back. apply in_place_bind; [auto with safety|intros n].
  destruct (_ =? _); auto with safety.
Qed.

(** The tails of [push_back] and [insert], after the growth step. *)
Lemma in_place_push_back_tail (el : const_reference) :
  in_place (v ← get_values; n ← get_sz; x ← read_ref el; p ← index v n;
            set_sz (size_wrap (n + 1));; store p x).
Proof. in_place_steps. Qed.

Lemma in_place_insert_tail (current : Z) (val : const_reference) :
  in_place (n ← get_sz;
            for_down (Z.to_nat (n - current)) n (λ i,
              v ← get_values;
              assign_slot v i v (size_wrap (i - 1)));;
            v ← get_values;
            x ← read_ref val;
            p ← index v current;
            store p x;;
            n ← get_sz;
            set_sz (size_wrap (n + 1));;
            v ← get_values;
            q ← index v current;
            mret (Iterator.Make q)).
Proof. in_place_steps. Qed.

(** A reallocation that returns has allocated one array, the new buffer, and
    deleted the previous one. *)
Lemma reallocate_shape (s s1 : state) (l : list T) (new_size : Z) :
  holds s l →
  sz (this s) ≤ new_size →
  reallocate new_size s = Ok tt s1 →
  values (this s1) = Ptr (length (mem s)) 0 ∧
  max_sz (this s1) = new_size ∧
  shape (mem s1) =
    match values (this s) with
    | nullptr => shape (mem s)
    | Ptr b _ => <[b := false]> (shape (mem s))
    end ++ [true].
Proof.
  intros Hs Hn Hrun.
  destruct (Z.le_gt_cases (new_size * Z.pos sizeof_T) PTRDIFF_MAX) as [Hfit|Hbig];
    [|by rewrite reallocate_throw in Hrun].
  destruct (reallocate_ok s l new_size Hs Hn Hfit) as (blk & Hrun' & _).
  rewrite Hrun' in Hrun. injection Hrun as <-. cbn [this mem values max_sz].
  split_and!; [done..|]. unfold shape. rewrite fmap_app. cbn. f_equal.
  destruct (values (this s)); [done|]. by rewrite list_fmap_insert.
Qed.

Lemma grow_then_in_place {A} (s s' : state) (l : list T) (f : M A) (a : A) :
  holds s l →
  in_place f →
  ((if max_sz (this s) <=? sz (this s)
    then reallocate (grown (max_sz (this s))) else mret tt) ≫= λ _, f) s = Ok a s' →
  allocation_effect s s' ∧
  (sz (this s) < max_sz (this s) →
   shape (mem s') = shape (mem s) ∧
   values (this s') = values (this s) ∧
   max_sz (this s') = max_sz (this s)) ∧
  (max_sz (this s) ≤ sz (this s) →
   values (this s') = Ptr (length (mem s)) 0 ∧
   shape (mem s') =
     match values (this s) with
     | nullptr => shape (mem s)
     | Ptr b _ => <[b := false]> (shape (mem s))
     end ++ [true]).
Proof.
  intros Hs Hf Hrun. pose proof Hs as [Hsz Hcap Hlim Hbuf].
  pose proof (limit_lt _ Hlim). rewrite bind_unfold in Hrun.
  destruct (Z.leb_spec (max_sz (this s)) (sz (this s))) as [Hfull|Hroom].
  - destruct (reallocate _ s) as [[] s1|e1 s1|u] eqn:Hre; [|done..].
    apply (reallocate_shape s s1 l) in Hre as (Hv1 & _ & Hsh1); [|done|].
    2:{ pose proof (grown_ge (max_sz (this s))). lia. }
    apply Hf in Hrun as (Hsh & Hv & _).
    split_and!.
    + right. split; congruence.
    + intros; lia.
    + intros _. split; congruence.
  - rewrite mret_eq in Hrun. apply Hf in Hrun.
    split_and!; [by left|done|intros; lia].
Qed.

Lemma push_back_allocation (s s' : state) (l : list T) (el : const_reference) :
  holds s l →
  push_back el s = Ok tt s' →
  allocation_effect s s' ∧
  (sz (this s) < max_sz (this s) →
   shape (mem s') = shape (mem s) ∧
   values (this s') = values (this s) ∧
   max_sz (this s') = max_sz (this s)) ∧
  (max_sz (this s) ≤ sz (this s) →
   values (this s') = Ptr (length (mem s)) 0 ∧
   shape (mem s') =
     match values (this s) with
     | nullptr => shape (mem s)
     | Ptr b _ => <[b := false]> (shape (mem s))
     end ++ [true]).
Proof.
  intros Hs Hrun.
  eapply (grow_then_in_place s s' l _ tt Hs (in_place_push_back_tail el)).
  destruct s as [[n m v] h]. revert Hrun. unfold push_back. by run.
Qed.

Lemma insert_allocation (s s' : state) (l : list T) pos (val : const_reference) it :
  holds s l →
  insert pos val s = Ok it s' →
  allocation_effect s s'.
Proof.
  intros Hs Hrun. destruct s as [[n m v] h]. revert Hrun.
  unfold insert, begin_, ConstIterator_diff, Iterator_to_const. run.
  cbn [Iterator.ptr ConstIterator.ptr].
  destruct (ptr_diff (ConstIterator.ptr pos) v) as [d|]; [|done]. run.
  destruct (_ || _); [done|]. run. intros Hrun.
  by eapply (grow_then_in_place _ s' l _ it Hs (in_place_insert_tail (size_wrap d) val)).
Qed.

Lemma shape_dead (h : heap) (b : nat) :
  shape h !! b = Some false → h !! b = Some None.
Proof.
  unfold shape. rewrite list_lookup_fmap.
  by destruct (h !! b) as [[|]|]; intros [=].
Qed.

Lemma shape_length (h h' : heap) : shape h' = shape h → length h' = length h.
Proof.
  intros Heq. apply (f_equal length) in Heq. unfold shape in Heq.
  by rewrite !length_fmap in Heq.
Qed.

(** X2. [reserve(n)] does nothing when [n <= capacity()]; otherwise, when
    [new[]] can serve [n] elements, it moves the elements to a buffer of
    exactly [n] slots, and when not, it throws and changes nothing. *)
Theorem reserve_exact (s : state) (l : list T) (n : Z) :
  holds s l →
  (n ≤ max_sz (this s) → reserve n s = Ok tt s) ∧
  (max_sz (this s) < n → n * Z.pos sizeof_T ≤ PTRDIFF_MAX →
   ∃ s', reserve n s = Ok tt s' ∧ holds s' l ∧
         sz (this s') = sz (this s) ∧ max_sz (this s') = n) ∧
  (PTRDIFF_MAX < n * Z.pos sizeof_T →
   reserve n s = Throw bad_array_new_length s).
Proof.
  intros Hs. pose proof Hs as [Hsz Hcap Hlim Hbuf]. split_and!.
  - apply reserve_noop.
  - intros Hgt Hfit. rewrite reserve_grow by done.
    destruct (reallocate_holds s l n Hs) as (s' & Hrun & Hs' & _ & Hsz' & Hmax');
      [lia|done|]. eauto.
  - intros Hbig. assert (max_sz (this s) < n) by nia.
    rewrite reserve_grow by done. apply reallocate_throw; [lia|done].
Qed.

(** X3. [shrink_to_fit] always returns on a well-formed container, keeps
    the elements, and leaves [capacity() == size()]; when they were already
    equal nothing changes. *)
Theorem shrink_to_fit_exact (s : state) (l : list T) :
  holds s l →
  ∃ s',
    shrink_to_fit s = Ok tt s' ∧
    holds s' l ∧
    sz (this s') = sz (this s) ∧
    max_sz (this s') = sz (this s) ∧
    (sz (this s) = max_sz (this s) → s' = s).
Proof.
  intros Hs. pose proof Hs as [Hsz Hcap Hlim Hbuf].
  destruct (Z.le_gt_cases (max_sz (this s)) (sz (this s))) as [Hfull|Hroom].
  - exists s. rewrite shrink_to_fit_noop by done. split_and!; [done..|lia|done].
  - rewrite shrink_to_fit_shrink by done.
    destruct (reallocate_holds s l (sz (this s)) Hs) as (s' & Hrun & Hs' & _ & Hsz' & Hmax');
      [lia|nia|].
    exists s'. split_and!; [done..|lia].
Qed.

Lemma push_back_room (s : state) (l : list T) (el : T) :
  holds s l →
  sz (this s) < max_sz (this s) →
  ∃ s',
    push_back (ref_object el) s = Ok tt s' ∧
    holds s' (l ++ [el]) ∧
    shape (mem s') = shape (mem s) ∧
    values (this s') = values (this s) ∧
    max_sz (this s') = max_sz (this s).
Proof.
  intros Hs Hroom.
  destruct (push_back_ok s l el Hs) as (s' & Hrun & Hs' & _); [lia|].
  destruct (push_back_allocation s s' l (ref_object el) Hs Hrun) as (_ & Hin & _).
  exists s'. by destruct (Hin Hroom) as (? & ? & ?).
Qed.

Lemma push_back_all_room (els : list T) :
  ∀ (s : state) (l : list T),
    holds s l →
    Z.of_nat (length l + length els) ≤ max_sz (this s) →
    ∃ s',
      push_back_all els s = Ok tt s' ∧
      holds s' (l ++ els) ∧
      shape (mem s') = shape (mem s) ∧
      values (this s') = values (this s) ∧
      max_sz (this s') = max_sz (this s).
Proof.
  induction els as [|el els IH]; intros s l Hs Hfit.
  - exists s. by rewrite app_nil_r.
  - cbn [length] in Hfit. pose proof Hs as [Hsz _ _ _].
    destruct (push_back_room s l el Hs) as (s1 & Hrun1 & Hs1 & Hsh1 & Hv1 & Hmax1); [lia|].
    destruct (IH s1 (l ++ [el]) Hs1) as (s' & Hrun' & Hs' & Hsh' & Hv' & Hmax').
    { rewrite length_app, Hmax1. cbn [length]. lia. }
    exists s'. cbn [push_back_all]. rewrite bind_unfold, Hrun1, Hrun'.
    rewrite <- app_assoc in Hs'. split_and!; [done|done|congruence..].
Qed.

(** X4. While the elements fit the capacity (as after [reserve(n)] or
    [Vector(n)]), a sequence of [push_back] calls returns without throwing,
    allocates and deletes nothing, and leaves the buffer where it is. *)
Theorem push_back_within_capacity (s : state) (l els : list T) :
  holds s l →
  Z.of_nat (length l + length els) ≤ max_sz (this s) →
  ∃ s',
    push_back_all els s = Ok tt s' ∧
    holds s' (l ++ els) ∧
    size s' = Ok (Z.of_nat (length l + length els)) s' ∧
    shape (mem s') = shape (mem s) ∧
    values (this s') = values (this s) ∧
    max_sz (this s') = max_sz (this s).
Proof.
  intros Hs Hfit.
  destruct (push_back_all_room els s l Hs Hfit) as (s' & Hrun & Hs' & Hsh & Hv & Hmax).
  exists s'. split_and!; [done|done| |done..].
  by rewrite (holds_size _ _ Hs'), length_app.
Qed.

(** X5. A [push_back] with spare capacity keeps every iterator into the
    container valid, reading the same element; a [push_back] on a full
    container moves the elements to a new array and deletes the old one, so
    that dereferencing any iterator obtained before is undefined. *)
Theorem push_back_and_iterators (s : state) (l : list T) (el : T) (b : nat) :
  holds s l →
  values (this s) = Ptr b 0 →
  (max_sz (this s) ≤ sz (this s) →
   grown (max_sz (this s)) * Z.pos sizeof_T ≤ PTRDIFF_MAX) →
  ∃ s',
    push_back (ref_object el) s = Ok tt s' ∧
    (sz (this s) < max_sz (this s) →
     ∀ (i : nat) (x : T),
       l !! i = Some x →
       Iterator_deref (Iterator.Make (Ptr b (Z.of_nat i))) s' = Ok (Some x) s') ∧
    (max_sz (this s) ≤ sz (this s) →
     ∀ off, Iterator_deref (Iterator.Make (Ptr b off)) s'
            = Undefined (ReadOutOfBounds (Ptr b off))).
Proof.
  intros Hs Hv Hfit.
  destruct (push_back_ok s l el Hs Hfit) as (s' & Hrun & Hs' & _).
  destruct (push_back_allocation s s' l (ref_object el) Hs Hrun) as (_ & Hin & Hmove).
  exists s'. split_and!; [done| |].
  - intros Hroom i x Hx. destruct (Hin Hroom) as (_ & Hv' & _).
    destruct (subscript_ok s' (l ++ [el]) i x Hs') as (p & _ & Hp & Hload).
    { by apply lookup_app_l_Some. }
    rewrite Hv', Hv in Hp. destruct Hs' as [_ _ _ Hbuf'].
    rewrite Hv', Hv in Hbuf'. destruct Hbuf' as (_ & blk & Hb & _).
    apply (position_Ptr _ _ _ _ _ Hb) in Hp as [-> _]. exact Hload.
  - intros Hfull off. destruct (Hmove Hfull) as (_ & Hsh).
    rewrite Hv in Hsh. destruct Hs as [_ _ _ Hbuf]. rewrite Hv in Hbuf.
    destruct Hbuf as (_ & blk & Hb & _). apply lookup_live_lt in Hb.
    assert (mem s' !! b = Some None) as Hdead.
    { apply shape_dead. rewrite Hsh, lookup_app_l
        by (rewrite length_insert; unfold shape; rewrite length_fmap; lia).
      apply list_lookup_insert_eq. unfold shape. rewrite length_fmap. lia. }
    unfold Iterator_deref, load, slot_of. cbn. by rewrite Hdead.
Qed.

(** X6. A mutating call that returns has either left the allocator alone
    (same live arrays, same buffer, same capacity) or allocated exactly one
    array, now the buffer, and deleted the previous buffer: nothing leaks.
    [pop_back], [clear] and [erase] are always of the first kind. *)
Theorem calls_do_not_leak (o : op) (s s' : state) (l : list T) :
  holds s l →
  run_op o s = Ok tt s' →
  allocation_effect s s' ∧
  (match o with
   | op_pop_back | op_clear | op_erase _ => True
   | _ => False
   end →
   shape (mem s') = shape (mem s) ∧
   values (this s') = values (this s) ∧
   max_sz (this s') = max_sz (this s)).
Proof.
  intros Hs Hrun. pose proof Hs as [Hsz Hcap Hlim Hbuf].
  destruct o as [el| | |n| |pos val|pos]; cbn [run_op] in Hrun.
  - split; [|done]. by destruct (push_back_allocation s s' l (ref_object el) Hs Hrun).
  - apply in_place_pop_back in Hrun. split; [by left|done].
  - apply in_place_set_sz in Hrun. split; [by left|done].
  - split; [|done].
    destruct (Z.le_gt_cases n (max_sz (this s))) as [Hle|Hgt].
    + rewrite reserve_noop in Hrun by done. injection Hrun as <-. by left.
    + rewrite reserve_grow in Hrun by done.
      apply (reallocate_shape s s' l) in Hrun as (? & _ & ?); [by right|done|lia].
  - split; [|done].
    destruct (Z.le_gt_cases (max_sz (this s)) (sz (this s))) as [Hfull|Hroom].
    + rewrite shrink_to_fit_noop in Hrun by done. injection Hrun as <-. by left.
    + rewrite shrink_to_fit_shrink in Hrun by done.
      apply (reallocate_shape s s' l) in Hrun as (? & _ & ?); [by right|done|lia].
  - split; [|done]. rewrite bind_unfold in Hrun.
    destruct (insert pos (ref_object val) s) as [it s1|e1 s1|u] eqn:Hins; [|done..].
    rewrite mret_eq in Hrun. injection Hrun as <-.
    by eapply insert_allocation.
  - rewrite bind_unfold in Hrun.
    destruct (erase pos s) as [it s1|e1 s1|u] eqn:Hers; [|done..].
    rewrite mret_eq in Hrun. injection Hrun as <-.
    apply in_place_erase in Hers. split; [by left|done].
Qed.

(** ** Destruction and assignment *)

(** X7. The destructor of a well-formed container deletes its buffer and
    nothing else; running it a second time on the same object (as for two
    objects sharing one buffer) is undefined unless there was no buffer. *)
Theorem destructor_releases_buffer (s : state) (l : list T) :
  holds s l →
  ∃ s',
    Vector_dtor s = Ok tt s' ∧
    this s' = this s ∧
    shape (mem s') =
      match values (this s) with
      | nullptr => shape (mem s)
      | Ptr b _ => <[b := false]> (shape (mem s))
      end ∧
    (∀ b, values (this s) ≠ Ptr b 0 → mem s' !! b = mem s !! b) ∧
    (values (this s) ≠ nullptr →
     Vector_dtor s' = Undefined (InvalidDelete (values (this s)))).
Proof.
  destruct s as [[n m v] h]. intros [Hsz Hcap Hlim Hbuf].
  cbn [this mem sz max_sz values] in *. unfold Vector_dtor. run.
  destruct v as [|b off].
  - eexists. split; [done|]. by split_and!.
  - destruct Hbuf as (-> & blk & Hb & _).
    pose proof (lookup_live_lt _ _ _ Hb) as Hlt.
    rewrite (delete_array_Ptr _ _ _ blk) by done.
    eexists. split; [done|]. cbn [this mem values]. split_and!.
    + done.
    + unfold shape. by rewrite list_fmap_insert.
    + intros b' Hne. rewrite list_lookup_insert_ne; [done|congruence].
    + intros _. run. unfold delete_array. cbn.
      by rewrite list_lookup_insert_eq.
Qed.

Lemma Vector_assign_state (s : state) (arg : Vector) (l la : list T) :
  holds s l →
  repr arg (mem s) la →
  ∃ blk,
    Vector_assign arg s =
    Ok tt (MkState (MkVector (sz arg) (max_sz arg) (Ptr (length (mem s)) 0))
             (match values (this s) with
              | nullptr => mem s ++ [Some blk]
              | Ptr b _ => <[b := None]> (mem s ++ [Some blk])
              end)).
Proof.
  intros Hs Ha.
  destruct (copy_construct_ok s arg la Ha)
    as (w & h' & Hrun & Hwsz & Hwmax & Hwv & Hw & blk & ->).
  destruct s as [[n m v] h]. destruct Hs as [Hsz Hcap Hlim Hbuf].
  cbn [this mem sz max_sz values] in *.
  destruct w as [wn wm wv]. cbn [sz max_sz values] in *. subst wn wm wv.
  exists blk. unfold Vector_assign. run. rewrite Hrun. run.
  unfold on_object, Vector_dtor. run.
  destruct v as [|b off].
  - cbn [delete_array]. by run.
  - destruct Hbuf as (-> & blk0 & Hb & Hlen & Hel).
    pose proof (lookup_live_lt _ _ _ Hb) as Hlt.
    rewrite (delete_array_Ptr _ _ _ blk0) by (by rewrite lookup_heap_old).
    by run.
Qed.

(** X8. [operator=] allocates one array, the copy, which becomes the
    buffer, and deletes the buffer the assigned container had: the
    assignment leaks nothing and leaves every other array as it was. *)
Theorem assignment_releases_old_buffer (s : state) (arg : Vector) (l la : list T) :
  holds s l →
  repr arg (mem s) la →
  ∃ s',
    Vector_assign arg s = Ok tt s' ∧
    values (this s') = Ptr (length (mem s)) 0 ∧
    shape (mem s') =
      match values (this s) with
      | nullptr => shape (mem s)
      | Ptr b _ => <[b := false]> (shape (mem s))
      end ++ [true] ∧
    ∀ b, (b < length (mem s))%nat → values (this s) ≠ Ptr b 0 →
         mem s' !! b = mem s !! b.
Proof.
  intros Hs Ha. destruct (Vector_assign_state s arg l la Hs Ha) as (blk & Hrun).
  eexists. split; [exact Hrun|]. cbn [this mem values].
  pose proof Hs as [_ _ _ Hbuf]. split_and!; [done| |].
  - destruct (values (this s)) as [|b off].
    + unfold shape. by rewrite fmap_app.
    + destruct Hbuf as (_ & blk0 & Hb & _). apply lookup_live_lt in Hb.
      unfold shape. rewrite list_fmap_insert, fmap_app. cbn.
      rewrite insert_app_l; [done|]. by rewrite length_fmap.
  - intros b Hb Hne. destruct (values (this s)) as [|b0 off] eqn:Hv.
    + by rewrite lookup_heap_old.
    + destruct Hbuf as (-> & _).
      rewrite list_lookup_insert_ne by congruence. by rewrite lookup_heap_old.
Qed.

(** X9. Self-assignment [v = v] is safe: the container keeps its elements,
    size and capacity (in a new array). *)
Theorem self_assignment (s : state) (l : list T) :
  holds s l →
  ∃ s',
    Vector_assign (this s) s = Ok tt s' ∧
    holds s' l ∧
    sz (this s') = sz (this s) ∧
    max_sz (this s') = max_sz (this s).
Proof.
  intros Hs.
  destruct (Vector_assign_ok s (this s) l l Hs Hs) as (s' & Hrun & Hs' & Hsz' & Hmax' & _).
  by exists s'.
Qed.

(** X10. Independence also holds the other way round: after copy
    construction, whatever mutating call is made on the copy, the source
    still holds its elements. *)
Theorem source_survives_copy_mutation (s : state) (a : Vector) (l : list T) :
  repr a (mem s) l →
  ∃ w s1,
    construct (Vector_copy a) s = Ok w s1 ∧
    repr w (mem s1) l ∧
    ∀ o s2,
      run_op o (MkState w (mem s1)) = Ok tt s2 ∨
      (∃ e, run_op o (MkState w (mem s1)) = Throw e s2) →
      repr a (mem s2) l.
Proof.
  intros Ha.
  destruct (copy_construct_ok s a l Ha)
    as (w & h' & Hrun & Hwsz & Hwmax & Hwv & Hw & blk & ->).
  exists w, (MkState (this s) (mem s ++ [Some blk])). cbn [mem].
  assert (repr a (mem s ++ [Some blk]) l) as Ha' by (by apply repr_heap_app).
  split_and!; [done..|].
  intros o s2 Hrun2.
  eapply run_op_frame; [exact Hw|exact Ha'| |exact Hrun2].
  destruct Ha as [_ _ _ Hbuf]. destruct (values a) as [|b off]; [by left|right].
  destruct Hbuf as (-> & blk0 & Hb & _). apply lookup_live_lt in Hb.
  rewrite Hwv. intros [= Heq]. lia.
Qed.

(** ** Positional insertion and removal *)

Lemma cend_ok (s : state) (l : list T) :
  holds s l →
  ∃ p, cend s = Ok (ConstIterator.Make p) s ∧
       end_ s = Ok (Iterator.Make p) s ∧
       ptr_add (mem s) (values (this s)) (sz (this s)) = Some p.
Proof.
  destruct s as [[n m v] h]. intros [Hsz Hcap Hlim Hbuf].
  cbn [this mem sz max_sz values] in *. unfold cend, end_. run.
  destruct v as [|b off].
  - assert (n = 0) as -> by lia. exists nullptr. by rewrite index_nullptr.
  - destruct Hbuf as (-> & blk & Hb & Hlen & _). exists (Ptr b n).
    rewrite (index_Ptr _ _ _ blk) by (done || lia). run.
    rewrite (ptr_add_Ptr _ _ blk) by (done || lia).
    replace (0 + n) with n by lia. done.
Qed.

(** X11. [insert(end(), x)] does what [push_back(x)] does: when one returns
    so does the other, in the very same state, the iterator returned being
    the old [end()] position; when one throws (from [new[]]) so does the
    other. *)
Theorem insert_at_end_is_push_back (s : state) (l : list T) (el : T) :
  holds s l →
  ∃ e,
    cend s = Ok e s ∧
    match push_back (ref_object el) s with
    | Ok _ s1 =>
        ∃ it, insert e (ref_object el) s = Ok it s1 ∧
              ptr_add (mem s1) (values (this s1)) (sz (this s))
              = Some (Iterator.ptr it)
    | Throw x s1 => insert e (ref_object el) s = Throw x s1
    | Undefined _ => False
    end.
Proof.
  intros Hs. pose proof Hs as [Hsz Hcap Hlim Hbuf]. pose proof (limit_lt _ Hlim).
  destruct (cend_ok s l Hs) as (p & Hend & _ & Hp).
  exists (ConstIterator.Make p). split; [done|].
  pose proof (position_inv s l (sz (this s)) p Hs ltac:(lia) Hp) as Hdiff.
  destruct (Z.le_gt_cases (max_sz (this s)) (sz (this s))) as [Hfull|Hroom];
    [destruct (Z.le_gt_cases (grown (max_sz (this s)) * Z.pos sizeof_T) PTRDIFF_MAX)
      as [Hfit|Hbig]|].
  2:{ rewrite push_back_throw; [|done| |done].
      - by apply (insert_alloc_throw s l (sz (this s))); [|lia|..].
      - pose proof (grown_ge (max_sz (this s))). lia. }
  all: destruct (grow_step s l Hs ltac:(first [done|lia]))
         as (s1 & Hgrow & Hs1 & _ & Hsz1 & Hroom1 & _).
  all: destruct s as [[n m v] h]; cbn [this mem sz max_sz values] in *.
  all: destruct s1 as [[n1 m1 v1] h1]; destruct Hs1 as [_ Hcap1 Hlim1 Hbuf1].
  all: cbn [this mem sz max_sz values] in *; subst n1.
  all: pose proof (limit_lt _ Hlim1).
  all: destruct v1 as [|b1 off1]; [lia|].
  all: destruct Hbuf1 as (-> & blk1 & Hb1 & Hlen1 & _).
  all: pose proof (lookup_live_lt _ _ _ Hb1) as Hlt1.
  all: assert (push_back (ref_object el) (MkState (MkVector n m v) h) =
               Ok tt (MkState (MkVector (n + 1) m1 (Ptr b1 0))
                        (<[b1:=Some (<[Z.to_nat (0 + n):=Some el]> blk1)]> h1))) as Hpb
         by (unfold push_back; run; rewrite Hgrow; run;
             rewrite (index_Ptr _ _ _ blk1) by (done || lia); run;
             rewrite size_wrap_small by lia;
             by rewrite (store_Ptr _ _ _ blk1) by (done || lia)).
  all: rewrite Hpb; exists (Iterator.Make (Ptr b1 (0 + n))); split.
  1,3: (unfold insert, begin_, ConstIterator_diff, Iterator_to_const;
            run; cbn [Iterator.ptr ConstIterator.ptr]; rewrite Hdiff; run;
            rewrite (size_wrap_small n) by lia;
            destruct (Z.ltb_spec n 0); [lia|]; destruct (Z.ltb_spec n n); [lia|];
            cbn [orb]; run; rewrite Hgrow; run;
            replace (Z.to_nat (n - n)) with O by lia; cbn [for_down]; run;
            rewrite (index_Ptr _ _ _ blk1) by (done || lia); run;
            rewrite (store_Ptr _ _ _ blk1) by (done || lia); run;
            rewrite size_wrap_small by lia;
            rewrite (index_Ptr _ _ _ (<[Z.to_nat (0 + n):=Some el]> blk1))
              by (first [by apply list_lookup_insert_eq|rewrite length_insert; lia]);
            by run).
  all: cbn [this mem sz values Iterator.ptr].
  all: rewrite (ptr_add_Ptr _ _ (<[Z.to_nat (0 + n):=Some el]> blk1));
         [do 2 f_equal; lia|by apply list_lookup_insert_eq|rewrite length_insert; lia].
Qed.

(** X12. [insert] at a valid offset [k] of a value that is an object of the
    caller, and no element of the container, leaves the elements before [k]
    in place, puts the value at [k], moves the elements from [k] on one slot
    up, and adds one to the size. *)
Theorem insert_elements (s : state) (l : list T) (k : nat) (p : pointer) (val : T) :
  holds s l →
  (k ≤ length l)%nat →
  ptr_add (mem s) (values (this s)) (Z.of_nat k) = Some p →
  (max_sz (this s) ≤ sz (this s) →
   grown (max_sz (this s)) * Z.pos sizeof_T ≤ PTRDIFF_MAX) →
  ∃ s' it,
    insert (ConstIterator.Make p) (ref_object val) s = Ok it s' ∧
    size s' = Ok (Z.of_nat (length l) + 1) s' ∧
    read_at (Z.of_nat k) s' = Ok (Some val) s' ∧
    ∀ (i : nat) (x : T),
      l !! i = Some x →
      ((i < k)%nat → read_at (Z.of_nat i) s' = Ok (Some x) s') ∧
      ((k ≤ i)%nat → read_at (Z.of_nat (S i)) s' = Ok (Some x) s').
Proof.
  intros Hs Hk Hp Hfit. pose proof Hs as [Hsz _ _ _].
  destruct (insert_ok s l (Z.of_nat k) p val Hs ltac:(lia) Hp Hfit)
    as (s' & q & Hrun & Hs' & _).
  rewrite Nat2Z.id in Hs'. exists s', (Iterator.Make q). split_and!.
  - done.
  - rewrite (holds_size _ _ Hs'), length_app, length_take. cbn [length].
    rewrite length_drop. do 2 f_equal. lia.
  - apply (holds_read_at _ _ _ _ Hs').
    rewrite lookup_app_r by (rewrite length_take; lia).
    rewrite length_take. by replace (k - k `min` length l)%nat with O by lia.
  - intros i x Hx. apply lookup_lt_Some in Hx as Hi. split; intros Hik.
    + apply (holds_read_at _ _ _ _ Hs').
      rewrite lookup_app_l by (rewrite length_take; lia).
      by rewrite lookup_take_lt.
    + apply (holds_read_at _ _ _ _ Hs').
      rewrite lookup_app_r by (rewrite length_take; lia).
      rewrite length_take, lookup_cons_ne_0, lookup_drop by lia.
      by replace (k + pred (S i - k `min` length l))%nat with i by lia.
Qed.

(** X26. [insert] at a valid offset [k] of a value that is an object of the
    caller returns the iterator [begin() + k] of the container as it is
    after the call, whether or not the buffer was reallocated, and that
    iterator designates the inserted value. *)
Theorem insert_returns_position (s : state) (l : list T) (k : Z) (p : pointer) (val : T) :
  holds s l →
  0 ≤ k ≤ sz (this s) →
  ptr_add (mem s) (values (this s)) k = Some p →
  (max_sz (this s) ≤ sz (this s) →
   (max_sz (this s) + max_sz (this s) / 2 + 1) * Z.pos sizeof_T ≤ PTRDIFF_MAX) →
  ∃ s' it b,
    insert (ConstIterator.Make p) (ref_object val) s = Ok it s' ∧
    begin_ s' = Ok b s' ∧
    ptr_add (mem s') (Iterator.ptr b) k = Some (Iterator.ptr it) ∧
    Iterator_deref it s' = Ok (Some val) s'.
Proof.
  intros Hs Hk Hp Hfit. pose proof Hs as [Hsz Hcap Hlim Hbuf].
  pose proof (limit_lt _ Hlim).
  destruct (insert_ok s l k p val Hs Hk Hp) as (s' & q & Hrun & Hs' & _ & _ & Hq).
  { intros Hfull. rewrite grown_small by lia. by apply Hfit. }
  exists s', (Iterator.Make q), (Iterator.Make (values (this s'))).
  split_and!; [done| by destruct s' as [[] ?] |done|].
  destruct (subscript_ok s' _ (Z.to_nat k) val Hs') as (p' & _ & Hp' & Hload).
  { rewrite lookup_app_r by (rewrite length_take; lia).
    rewrite length_take. by replace (Z.to_nat k - Z.to_nat k `min` length l)%nat with O by lia. }
  rewrite Z2Nat.id in Hp' by lia. rewrite Hq in Hp'. injection Hp' as <-.
  exact Hload.
Qed.

(** X13. With a spare slot in the buffer, [erase] at a valid offset [k]
    removes that element: those before stay, those after move one slot down,
    the size drops by one, the capacity stays, and the iterator returned is
    at offset [k], which is [end()] exactly when the last element was
    removed. *)
Theorem erase_elements (s : state) (l : list T) (k : nat) (p : pointer) :
  holds s l →
  (k < length l)%nat →
  sz (this s) < max_sz (this s) →
  ptr_add (mem s) (values (this s)) (Z.of_nat k) = Some p →
  ∃ s' e,
    erase (ConstIterator.Make p) s = Ok (Iterator.Make p) s' ∧
    size s' = Ok (Z.of_nat (length l) - 1) s' ∧
    max_sz (this s') = max_sz (this s) ∧
    ptr_add (mem s') (values (this s')) (Z.of_nat k) = Some p ∧
    cend s' = Ok e s' ∧
    Iterator_eq (Iterator.Make p) e = bool_decide (S k = length l) ∧
    ∀ (i : nat) (x : T),
      l !! i = Some x →
      ((i < k)%nat → read_at (Z.of_nat i) s' = Ok (Some x) s') ∧
      ((k < i)%nat → read_at (Z.of_nat (pred i)) s' = Ok (Some x) s').
Proof.
  intros Hs Hk Hroom Hp. pose proof Hs as [Hsz _ _ _].
  destruct (erase_ok s l (Z.of_nat k) p Hs ltac:(lia) Hroom Hp)
    as (s' & Hrun & Hs' & _ & Hmax & Hp').
  rewrite Nat2Z.id in Hs'.
  destruct (cend_ok s' _ Hs') as (q & Hend & _ & Hq).
  exists s', (ConstIterator.Make q). split_and!; [done| |done..| |].
  - rewrite (holds_size _ _ Hs'), length_delete by (by apply lookup_lt_is_Some_2).
    do 2 f_equal. lia.
  - pose proof Hs' as [Hsz' _ _ Hbuf'].
    rewrite length_delete in Hsz' by (by apply lookup_lt_is_Some_2).
    destruct (values (this s')) as [|b off]; [lia|].
    destruct Hbuf' as (-> & blk & Hb & _).
    apply (position_Ptr _ _ _ _ _ Hb) in Hp' as [-> _].
    apply (position_Ptr _ _ _ _ _ Hb) in Hq as [-> _].
    unfold Iterator_eq. cbn. apply bool_decide_ext. split.
    + intros [= Heq]. lia.
    + intros Heq. do 2 f_equal. lia.
  - intros i x Hx. apply lookup_lt_Some in Hx as Hi. split; intros Hik.
    + apply (holds_read_at _ _ _ _ Hs'). by rewrite list_lookup_delete_lt.
    + apply (holds_read_at _ _ _ _ Hs').
      rewrite list_lookup_delete_ge by lia.
      by replace (S (pred i)) with i by lia.
Qed.

(** X14. On a full container ([size() == capacity()]), [erase] at any valid
    offset has undefined behaviour: its loop reads [values[size()]], one
    past the end of the buffer. *)
Theorem erase_on_full_container (s : state) (l : list T) (k : nat) (p : pointer) :
  holds s l →
  (k < length l)%nat →
  sz (this s) = max_sz (this s) →
  ptr_add (mem s) (values (this s)) (Z.of_nat k) = Some p →
  ∃ q,
    ptr_add (mem s) (values (this s)) (sz (this s)) = Some q ∧
    erase (ConstIterator.Make p) s = Undefined (ReadOutOfBounds q).
Proof.
  intros Hs Hk Hfull Hp. pose proof Hs as [Hsz _ _ _].
  apply (erase_full s l (Z.of_nat k) p Hs); [lia|done..].
Qed.

(** X15. For a position in the container's own buffer, at distance [d] from
    [begin()]: [insert] throws "Iterator out of bounds" exactly when
    [d < 0] or [d > size()], and [erase] exactly when [d < 0] or
    [d >= size()]; so [erase(end())] throws on every container, the empty
    one included. *)
Theorem position_checks (s : state) (l : list T) (pos : ConstIterator.t) (d : Z) (val : T) :
  holds s l →
  ptr_diff (ConstIterator.ptr pos) (values (this s)) = Some d →
  (insert pos (ref_object val) s = Throw (runtime_error "Iterator out of bounds") s ↔
   d < 0 ∨ sz (this s) < d) ∧
  (erase pos s = Throw (runtime_error "Iterator out of bounds") s ↔
   d < 0 ∨ sz (this s) ≤ d) ∧
  ∃ e, cend s = Ok e s ∧
       erase e s = Throw (runtime_error "Iterator out of bounds") s.
Proof.
  intros Hs Hdiff. pose proof Hs as [Hsz Hcap Hlim Hbuf].
  pose proof (limit_lt _ Hlim).
  assert (- 2 ^ 63 ≤ d < 2 ^ 63) as Hrange
    by (apply ptr_diff_Some in Hdiff as [(_ & _ & ->)|(? & ? & ? & _ & _ & _ & ?)]; lia).
  split_and!.
  - split.
    + intros Hrun. destruct (decide (0 ≤ d ≤ sz (this s))) as [Hd|Hd]; [|lia].
      pose proof (position_of_diff s l _ d Hs Hdiff Hd) as Hp.
      destruct pos as [p]. cbn [ConstIterator.ptr] in *.
      destruct (Z.le_gt_cases (max_sz (this s)) (sz (this s))) as [Hfull|Hroom];
        [destruct (Z.le_gt_cases (grown (max_sz (this s)) * Z.pos sizeof_T) PTRDIFF_MAX)
          as [Hfit|Hbig]|].
      * destruct (insert_ok s l d p val Hs Hd Hp) as (s1 & q & Hrun1 & _); [done|].
        by rewrite Hrun1 in Hrun.
      * by rewrite (insert_alloc_throw s l d p (ref_object val)) in Hrun.
      * destruct (insert_ok s l d p val Hs Hd Hp) as (s1 & q & Hrun1 & _); [lia|].
        by rewrite Hrun1 in Hrun.
    + intros Hd. apply (insert_throw s pos (ref_object val) d Hdiff).
      destruct Hd as [Hd|Hd]; [by left|right]. by rewrite size_wrap_small by lia.
  - split.
    + intros Hrun. destruct (decide (0 ≤ d < sz (this s))) as [Hd|Hd]; [|lia].
      pose proof (position_of_diff s l _ d Hs Hdiff ltac:(lia)) as Hp.
      destruct pos as [p]. cbn [ConstIterator.ptr] in *.
      destruct (Z.le_gt_cases (max_sz (this s)) (sz (this s))) as [Hfull|Hroom].
      * destruct (erase_full s l d p Hs Hd ltac:(lia) Hp) as (q & _ & Hrun1).
        by rewrite Hrun1 in Hrun.
      * destruct (erase_ok s l d p Hs Hd ltac:(lia) Hp) as (s1 & Hrun1 & _).
        by rewrite Hrun1 in Hrun.
    + intros Hd. apply (erase_throw s pos d Hdiff).
      destruct Hd as [Hd|Hd]; [by left|right]. by rewrite size_wrap_small by lia.
  - destruct (cend_ok s l Hs) as (p & Hend & _ & Hp). eexists. split; [done|].
    pose proof (position_inv s l (sz (this s)) p Hs ltac:(lia) Hp) as Hdiff'.
    apply (erase_throw s _ (sz (this s))); [done|].
    right. rewrite size_wrap_small by lia. lia.
Qed.

(** ** Appending *)

(** X25. Any sequence of [push_back] calls on a default-constructed
    container, each argument an object of the caller and no element of the
    container (and the growth requests such that [new[]] can serve them),
    returns normally; afterwards [size()] is the number of calls, and
    [operator[]] at each [i] below it yields the [i]-th value appended. *)
Theorem push_back_sequence (s0 : state) (els : list T) :
  (Z.of_nat (length els) + Z.of_nat (length els) / 2) * Z.pos sizeof_T ≤ PTRDIFF_MAX →
  ∃ s',
    (Vector_default;; push_back_all els) s0 = Ok tt s' ∧
    size s' = Ok (Z.of_nat (length els)) s' ∧
    ∀ (i : nat) (x : T),
      els !! i = Some x → read_at (Z.of_nat i) s' = Ok (Some x) s'.
Proof.
  intros Hfit. destruct s0 as [v0 h].
  destruct (Vector_default_ok v0 h) as [Hrun0 Hs0].
  destruct (push_back_all_ok els _ [] Hs0 Hfit) as (s' & Hrun & Hs').
  exists s'. rewrite bind_unfold, Hrun0. split_and!.
  - exact Hrun.
  - by apply holds_size.
  - intros i x Hx. by eapply holds_read_at.
Qed.

(** X16. [push_back(x)] followed by [pop_back()] gives back the same
    elements and size; only the capacity may have grown. *)
Theorem push_back_then_pop_back (s : state) (l : list T) (el : T) :
  holds s l →
  (max_sz (this s) ≤ sz (this s) →
   grown (max_sz (this s)) * Z.pos sizeof_T ≤ PTRDIFF_MAX) →
  ∃ s1 s2,
    push_back (ref_object el) s = Ok tt s1 ∧
    pop_back s1 = Ok tt s2 ∧
    holds s2 l ∧
    sz (this s2) = sz (this s) ∧
    max_sz (this s) ≤ max_sz (this s2).
Proof.
  intros Hs Hfit. pose proof Hs as [Hsz Hcap Hlim Hbuf]. pose proof (limit_lt _ Hlim).
  destruct (push_back_ok s l el Hs Hfit) as (s1 & Hrun1 & Hs1 & _ & Hmax1).
  pose proof Hs1 as [Hsz1 _ _ _]. rewrite length_app in Hsz1. cbn [length] in Hsz1.
  destruct (pop_back_ok s1 _ Hs1) as (s2 & Hrun2 & Hs2 & Hsz2 & Hmax2 & _); [lia|].
  exists s1, s2. rewrite length_app in Hs2. cbn [length] in Hs2.
  replace (length l + 1 - 1)%nat with (length l) in Hs2 by lia.
  rewrite take_app_length in Hs2. split_and!; [done..|lia|].
  rewrite Hmax2, Hmax1.
  assert (0 ≤ max_sz (this s) / 2) by (apply Z.div_pos; lia).
  destruct (_ <=? _); lia.
Qed.

Lemma push_back_all_capacity (els : list T) :
  ∀ (s s' : state) (l : list T),
    holds s l →
    max_sz (this s) ≤ sz (this s) + sz (this s) / 2 + 1 →
    push_back_all els s = Ok tt s' →
    holds s' (l ++ els) ∧
    max_sz (this s') ≤ sz (this s') + sz (this s') / 2 + 1.
Proof.
  induction els as [|el els IH]; intros s s' l Hs Hbound Hrun.
  - cbn [push_back_all] in Hrun. rewrite mret_eq in Hrun. injection Hrun as <-.
    by rewrite app_nil_r.
  - cbn [push_back_all] in Hrun. rewrite bind_unfold in Hrun.
    destruct (push_back (ref_object el) s) as [[] s1|e1 s1|u] eqn:Hpush; [|done..].
    pose proof Hs as [Hsz Hcap Hlim Hbuf]. pose proof (limit_lt _ Hlim).
    destruct (Z.le_gt_cases (grown (max_sz (this s)) * Z.pos sizeof_T) PTRDIFF_MAX)
      as [Hfit|Hbig];
      [|destruct (Z.le_gt_cases (max_sz (this s)) (sz (this s))) as [Hfull|Hroom]].
    2:{ rewrite push_back_throw in Hpush; [done|done| |lia].
        pose proof (grown_ge (max_sz (this s))). lia. }
    all: destruct (push_back_ok s l el Hs ltac:(first [done|lia]))
           as (s1' & Hrun1 & Hs1 & _ & Hmax1).
    all: rewrite Hrun1 in Hpush; injection Hpush as <-.
    all: rewrite (app_assoc l [el] els : l ++ el :: els = (l ++ [el]) ++ els).
    all: apply (IH s1' s' _ Hs1); [|done].
    all: pose proof Hs1 as [Hsz1 _ _ _]; rewrite length_app in Hsz1.
    all: cbn [length] in Hsz1; rewrite Hmax1.
    all: assert (sz (this s1') = sz (this s) + 1) as -> by lia.
    all: pose proof (Z.div_le_mono (sz (this s)) (sz (this s) + 1) 2).
    all: destruct (Z.leb_spec (max_sz (this s)) (sz (this s)));
           [replace (max_sz (this s)) with (sz (this s)) by lia|]; lia.
Qed.

(** X17. After any sequence of [push_back] calls on a default-constructed
    container, the capacity is at most one and a half times the size, plus
    one: [size <= capacity <= size + size / 2 + 1]. *)
Theorem capacity_after_push_backs (s0 s' : state) (els : list T) :
  (Vector_default;; push_back_all els) s0 = Ok tt s' →
  sz (this s') = Z.of_nat (length els) ∧
  sz (this s') ≤ max_sz (this s') ≤ sz (this s') + sz (this s') / 2 + 1.
Proof.
  intros Hrun. destruct s0 as [v0 h].
  destruct (Vector_default_ok v0 h) as [Hrun0 Hs0].
  rewrite bind_unfold, Hrun0 in Hrun.
  destruct (push_back_all_capacity els _ s' [] Hs0) as [[Hsz Hcap _ _] Hbound];
    [by vm_compute|exact Hrun|].
  cbn [app] in Hsz. by split_and!.
Qed.

(** ** Iterators over a container *)

Lemma traverse_from v (h : heap) b (blk : list cell) (l : list T) (fuel : nat) :
  ∀ k : nat,
    h !! b = Some (Some blk) →
    (∀ (i : nat) (x : T), l !! i = Some x → blk !! i = Some (Some x)) →
    (length l ≤ length blk)%nat →
    (k ≤ length l)%nat →
    (length l - k ≤ fuel)%nat →
    traverse fuel (ConstIterator.Make (Ptr b (Z.of_nat k)))
      (ConstIterator.Make (Ptr b (Z.of_nat (length l)))) (MkState v h)
    = Ok (Some <$> drop k l) (MkState v h).
Proof.
  induction fuel as [|fuel IH]; intros k Hb Hel Hlen Hk Hfuel.
  - rewrite drop_ge by lia. done.
  - cbn [traverse]. unfold ConstIterator_ne. cbn [ConstIterator.ptr].
    destruct (decide (k = length l)) as [->|Hne].
    + rewrite bool_decide_eq_true_2 by done. cbn [negb].
      rewrite drop_ge by lia. done.
    + rewrite bool_decide_eq_false_2 by (intros [= Heq]; lia). cbn [negb].
      destruct (lookup_lt_is_Some_2 l k) as [x Hx]; [lia|].
      unfold ConstIterator_deref, ConstIterator_pre_increment.
      cbn [ConstIterator.ptr]. run.
      rewrite (load_Ptr _ _ _ blk _ (Some x)); [|done|lia|].
      2:{ rewrite Nat2Z.id. by apply Hel. }
      run. rewrite (index_Ptr _ _ _ blk) by (done || lia). run.
      replace (Z.of_nat k + 1) with (Z.of_nat (S k)) by lia.
      rewrite (IH (S k)) by (done || lia). run.
      by rewrite (drop_S l x k Hx).
Qed.

(** X18. Iterating from [begin()] to [end()] with [!=], [*] and [++] reads
    exactly the elements of the container, in order, and then stops (for an
    empty container at once); the container is not changed. *)
Theorem iteration_reads_elements (s : state) (l : list T) (fuel : nat) :
  holds s l →
  (length l ≤ fuel)%nat →
  (b ← cbegin; e ← cend; traverse fuel b e) s = Ok (Some <$> l) s.
Proof.
  intros Hs Hfuel. destruct (cend_ok s l Hs) as (p & Hend & _ & Hp).
  destruct s as [[n m v] h]. pose proof Hs as [Hsz Hcap Hlim Hbuf].
  cbn [this mem sz max_sz values] in *.
  unfold cbegin. run. rewrite Hend. run.
  destruct v as [|b off].
  - assert (n = 0) as -> by lia. destruct l; [|done].
    cbn in Hp. injection Hp as <-.
    destruct fuel; [done|]. cbn [traverse]. unfold ConstIterator_ne.
    by rewrite bool_decide_eq_true_2.
  - destruct Hbuf as (-> & blk & Hb & Hlen & Hel).
    apply (position_Ptr _ _ _ _ _ Hb) in Hp as [-> _]. subst n.
    apply (traverse_from _ _ _ blk l fuel O); [done..|lia|lia|lia].
Qed.

(** X19. [end() - begin()] is [size()], and [begin() == end()] exactly when
    the container is empty. *)
Theorem iterator_range (s : state) (l : list T) :
  holds s l →
  ∃ b e,
    begin_ s = Ok b s ∧
    cend s = Ok e s ∧
    ConstIterator_diff e (Iterator_to_const b) s = Ok (Z.of_nat (length l)) s ∧
    Iterator_eq b e = bool_decide (l = []).
Proof.
  intros Hs. destruct (cend_ok s l Hs) as (p & Hend & _ & Hp).
  pose proof Hs as [Hsz Hcap Hlim Hbuf]. pose proof (limit_lt _ Hlim).
  pose proof (position_inv s l (sz (this s)) p Hs ltac:(lia) Hp) as Hdiff.
  exists (Iterator.Make (values (this s))), (ConstIterator.Make p).
  split_and!; [by destruct s as [[] ?]|done| |].
  - unfold ConstIterator_diff, Iterator_to_const.
    cbn [Iterator.ptr ConstIterator.ptr]. by rewrite Hdiff, Hsz.
  - unfold Iterator_eq. cbn [Iterator.ptr ConstIterator.ptr].
    apply bool_decide_ext.
    apply ptr_diff_Some in Hdiff as [(-> & Hv & Hz)|(b & o1 & o2 & -> & Hv & Hd & _)].
    + rewrite Hv. split; [intros _|done]. destruct l; [done|]. cbn in Hsz. lia.
    + rewrite Hv. split.
      * intros [= Heq]. destruct l; [done|]. cbn in Hsz. lia.
      * intros ->. cbn in Hsz. do 2 f_equal. lia.
Qed.

(** X20. Writing through the reference [operator[]] returns replaces that
    element and nothing else, in place; with the index out of range nothing
    is written: the call throws and the state is as before. *)
Theorem write_through_subscript (s : state) (l : list T) (i : Z) (x : T) :
  holds s l →
  (0 ≤ i < sz (this s) →
   ∃ s', write_at i x s = Ok tt s' ∧
         holds s' (<[Z.to_nat i := x]> l) ∧
         shape (mem s') = shape (mem s) ∧
         this s' = this s) ∧
  (sz (this s) ≤ i →
   write_at i x s = Throw (runtime_error "Vector out of bounds") s).
Proof.
  intros Hs. split.
  - intros Hi. unfold write_at. rewrite bind_unfold, subscript_in_range by lia.
    destruct s as [[n m v] h]. destruct Hs as [Hsz Hcap Hlim Hbuf].
    cbn [this mem sz max_sz values] in *.
    destruct v as [|b off]; [lia|].
    destruct Hbuf as (-> & blk & Hb & Hlen & Hel).
    rewrite (index_Ptr _ _ _ blk) by (done || lia).
    rewrite (store_Ptr _ _ _ blk) by (done || lia).
    eexists. split; [done|]. cbn [this mem]. split_and!; [|by eapply shape_store|done].
    split; cbn [this mem sz max_sz values].
    + by rewrite length_insert.
    + done.
    + done.
    + split; [done|]. eexists. split_and!.
      * apply list_lookup_insert_eq. by eapply lookup_live_lt.
      * by rewrite length_insert.
      * intros j y Hy. replace (Z.to_nat (0 + i)) with (Z.to_nat i) by lia.
        destruct (decide (j = Z.to_nat i)) as [->|Hne].
        -- rewrite list_lookup_insert_eq in Hy by lia. injection Hy as <-.
           by rewrite list_lookup_insert_eq by lia.
        -- rewrite list_lookup_insert_ne in Hy by done.
           rewrite list_lookup_insert_ne by done. by apply Hel.
  - intros Hi. unfold write_at. by rewrite bind_unfold, subscript_throw.
Qed.

(** ** Constructors *)

(** X21. The initialiser-list constructor allocates one array of exactly
    [il.size()] slots and fills it with the list in order, so that
    [size() == capacity() == il.size()]; when [new[]] cannot serve the list
    it throws with the heap untouched. *)
Theorem initializer_list_constructor (s0 : state) (il : list T) :
  (Z.of_nat (length il) * Z.pos sizeof_T ≤ PTRDIFF_MAX →
   ∃ s',
     Vector_il il s0 = Ok tt s' ∧
     holds s' il ∧
     sz (this s') = Z.of_nat (length il) ∧
     max_sz (this s') = Z.of_nat (length il) ∧
     shape (mem s') = shape (mem s0) ++ [true] ∧
     ∀ (i : nat) (x : T),
       il !! i = Some x → read_at (Z.of_nat i) s' = Ok (Some x) s') ∧
  (PTRDIFF_MAX < Z.of_nat (length il) * Z.pos sizeof_T →
   ∃ s', Vector_il il s0 = Throw bad_array_new_length s' ∧ mem s' = mem s0).
Proof.
  destruct s0 as [v0 h]. split.
  - intros Hfit. destruct (Vector_il_ok v0 h il Hfit) as (blk & Hrun & Hs).
    eexists. split; [exact Hrun|]. cbn [this mem sz max_sz].
    split_and!; [done..| |].
    + unfold shape. by rewrite fmap_app.
    + intros i x Hx. by eapply holds_read_at.
  - intros Hbig. unfold Vector_il. run. rewrite new_array_throw by done.
    by eexists.
Qed.

(** X22. [Vector(n)] allocates [n] slots and holds no element; up to [n]
    [push_back] calls then fill that same array without any further
    allocation, leaving the capacity at [n]. *)
Theorem explicit_capacity_constructor (s0 : state) (n : Z) (els : list T) :
  Z.of_nat (length els) ≤ n →
  n * Z.pos sizeof_T ≤ PTRDIFF_MAX →
  ∃ s1 s',
    Vector_n n s0 = Ok tt s1 ∧
    empty s1 = Ok true s1 ∧
    max_sz (this s1) = n ∧
    shape (mem s1) = shape (mem s0) ++ [true] ∧
    push_back_all els s1 = Ok tt s' ∧
    holds s' els ∧
    max_sz (this s') = n ∧
    values (this s') = values (this s1) ∧
    shape (mem s') = shape (mem s1).
Proof.
  intros Hlen Hfit. destruct s0 as [v0 h].
  destruct (Vector_n_ok v0 h n ltac:(lia) Hfit) as [Hrun Hs1].
  destruct (push_back_all_room els _ [] Hs1) as (s' & Hrun' & Hs' & Hsh & Hv & Hmax).
  { cbn [this max_sz length]. lia. }
  eexists _, s'. split; [exact Hrun|]. cbn [this mem max_sz values] in *.
  split_and!; [done|done| |done..].
  unfold shape. by rewrite fmap_app.
Qed.

(** ** Compositions *)

(** X23. With a spare slot in the buffer, [erase] at a valid offset followed
    by [insert] of the erased value at the iterator [erase] returned gives
    back the container as it was: same size, same capacity, and every index
    reads the element it read before. *)
Theorem erase_then_insert_restores (s : state) (l : list T) (k : nat) (x : T) (p : pointer) :
  holds s l →
  l !! k = Some x →
  sz (this s) < max_sz (this s) →
  ptr_add (mem s) (values (this s)) (Z.of_nat k) = Some p →
  ∃ s1 s2 it it',
    erase (ConstIterator.Make p) s = Ok it s1 ∧
    insert (Iterator_to_const it) (ref_object x) s1 = Ok it' s2 ∧
    sz (this s2) = sz (this s) ∧
    max_sz (this s2) = max_sz (this s) ∧
    ∀ (i : nat) (y : T),
      l !! i = Some y → read_at (Z.of_nat i) s2 = Ok (Some y) s2 ∧
                        read_at (Z.of_nat i) s = Ok (Some y) s.
Proof.
  intros Hs Hx Hroom Hp.
  destruct (erase_insert_with_room s l k x p Hs Hx Hroom Hp)
    as (s1 & s2 & it & it' & Hrun1 & Hrun2 & Hs2 & Hsz & Hmax).
  exists s1, s2, it, it'. split_and!; [done..|].
  intros i y Hy. split; by eapply holds_read_at.
Qed.

(** X24. [clear()] empties the container without giving up its buffer: the
    capacity stays, and as many elements as the capacity allows can then be
    appended in place, with no allocation. *)
Theorem clear_keeps_capacity (s : state) (l els : list T) :
  holds s l →
  Z.of_nat (length els) ≤ max_sz (this s) →
  ∃ s1 s',
    clear s = Ok tt s1 ∧
    empty s1 = Ok true s1 ∧
    max_sz (this s1) = max_sz (this s) ∧
    mem s1 = mem s ∧
    push_back_all els s1 = Ok tt s' ∧
    holds s' els ∧
    values (this s') = values (this s) ∧
    max_sz (this s') = max_sz (this s) ∧
    shape (mem s') = shape (mem s).
Proof.
  intros Hs Hlen. destruct (clear_ok s l Hs) as [Hrun Hs1].
  destruct (push_back_all_room els _ [] Hs1) as (s' & Hrun' & Hs' & Hsh & Hv & Hmax).
  { cbn [this max_sz length]. lia. }
  eexists _, s'. split; [exact Hrun|]. cbn [this mem max_sz values] in *.
  by split_and!.
Qed.


(** ** Arguments that refer to elements *)

(** The reference [v[j]] to an element: a slot of the buffer. *)
Lemma element_reference (s : state) (l : list T) (j : nat) (x : T) :
  holds s l →
  l !! j = Some x →
  ∃ b,
    values (this s) = Ptr b 0 ∧
    subscript (Z.of_nat j) s = Ok (Ptr b (Z.of_nat j)) s ∧
    load (Ptr b (Z.of_nat j)) s = Ok (Some x) s.
Proof.
  intros Hs Hx. destruct (subscript_ok s l j x Hs Hx) as (p & Hsub & Hp & Hload).
  pose proof Hs as [Hsz Hcap _ Hbuf]. apply lookup_lt_Some in Hx as Hj.
  destruct (values (this s)) as [|b off] eqn:Hv; [lia|].
  destruct Hbuf as (-> & blk & Hb & _).
  apply (position_Ptr _ _ _ _ _ Hb) in Hp as [-> _]. by exists b.
Qed.

(** X27. [push_back(v[j])], the argument being the reference that
    [operator[]] returns: with spare capacity a copy of element [j] is
    appended; on a full container the reference is read after [reallocate]
    has deleted the array it points into, which is undefined. *)
Theorem push_back_of_element (s : state) (l : list T) (j : nat) (x : T) :
  holds s l →
  l !! j = Some x →
  (max_sz (this s) ≤ sz (this s) →
   grown (max_sz (this s)) * Z.pos sizeof_T ≤ PTRDIFF_MAX) →
  ∃ el,
    subscript (Z.of_nat j) s = Ok el s ∧
    (sz (this s) < max_sz (this s) →
     ∃ s', push_back (ref_slot el) s = Ok tt s' ∧
           holds s' (l ++ [x]) ∧
           max_sz (this s') = max_sz (this s)) ∧
    (max_sz (this s) ≤ sz (this s) →
     push_back (ref_slot el) s = Undefined (ReadOutOfBounds el)).
Proof.
  intros Hs Hx Hfit.
  destruct (element_reference s l j x Hs Hx) as (b & Hv & Hsub & Hload).
  destruct (push_back_slot s l _ x Hs Hload Hfit) as [Hval Hub].
  exists (Ptr b (Z.of_nat j)). split_and!; [done| |].
  - intros Hroom. rewrite Hval by (by left).
    destruct (push_back_ok s l x Hs Hfit) as (s' & Hrun & Hs' & _ & Hmax).
    exists s'. split_and!; [done..|].
    by destruct (Z.leb_spec (max_sz (this s)) (sz (this s))); [lia|].
  - intros Hfull. apply Hub; [done|]. unfold into_buffer. by rewrite Hv.
Qed.

(** X28. [insert(pos, v[j])] at a valid offset [k].  With spare capacity the
    reference is read after the loop that shifts the elements: the value
    stored at offset [k] is element [j] when [j <= k], but element [j - 1]
    when [j > k], which the loop has moved into slot [j].  On a full
    container the reference is read after [reallocate] has deleted the array
    it points into, which is undefined. *)
Theorem insert_of_element (s : state) (l : list T) (k j : nat) (p : pointer) (x : T) :
  holds s l →
  (k ≤ length l)%nat →
  ptr_add (mem s) (values (this s)) (Z.of_nat k) = Some p →
  l !! j = Some x →
  (max_sz (this s) ≤ sz (this s) →
   grown (max_sz (this s)) * Z.pos sizeof_T ≤ PTRDIFF_MAX) →
  ∃ el,
    subscript (Z.of_nat j) s = Ok el s ∧
    (sz (this s) < max_sz (this s) →
     ∃ y s' it,
       l !! (if decide (k < j)%nat then pred j else j) = Some y ∧
       insert (ConstIterator.Make p) (ref_slot el) s = Ok it s' ∧
       holds s' (take k l ++ y :: drop k l) ∧
       read_at (Z.of_nat k) s' = Ok (Some y) s') ∧
    (max_sz (this s) ≤ sz (this s) →
     insert (ConstIterator.Make p) (ref_slot el) s
     = Undefined (ReadOutOfBounds el)).
Proof.
  intros Hs Hk Hp Hx Hfit. pose proof Hs as [Hsz _ _ _].
  destruct (element_reference s l j x Hs Hx) as (b & Hv & Hsub & Hload).
  apply lookup_lt_Some in Hx as Hj.
  destruct (insert_slot_cases s l (Z.of_nat k) p _ x Hs ltac:(lia) Hp Hload Hfit)
    as (_ & Hub & Hin).
  assert (into_buffer s (Ptr b (Z.of_nat j))) as Hinto
    by (unfold into_buffer; by rewrite Hv).
  exists (Ptr b (Z.of_nat j)). split_and!; [done| |].
  - intros Hroom. destruct (Hin Hroom b (Z.of_nat j) eq_refl Hinto) as (y & Hy & Heq).
    destruct (insert_ok s l (Z.of_nat k) p y Hs ltac:(lia) Hp Hfit)
      as (s' & q & Hrun & Hs' & _).
    rewrite Nat2Z.id in Hs'. exists y, s', (Iterator.Make q). split_and!.
    + destruct (decide (k < j)%nat); case_decide; try lia.
      * by replace (pred j) with (Z.to_nat (Z.of_nat j - 1)) by lia.
      * by subst y.
    + by rewrite Heq.
    + done.
    + apply (holds_read_at _ _ _ _ Hs').
      rewrite lookup_app_r by (rewrite length_take; lia).
      rewrite length_take. by replace (k - k `min` length l)%nat with O by lia.
  - intros Hfull. by apply Hub.
Qed.

(** X29. An argument that refers to an element of another array than the
    buffer, as in [a.push_back(b[0])] for two containers: [push_back] and
    [insert] at a valid offset do what they do for an object of the caller
    holding that element's value, on a full container too. *)
Theorem element_of_another_array (s : state) (l : list T) (k : Z) (pos p : pointer)
    (x : T) :
  holds s l →
  load p s = Ok (Some x) s →
  ¬ into_buffer s p →
  0 ≤ k ≤ sz (this s) →
  ptr_add (mem s) (values (this s)) k = Some pos →
  (max_sz (this s) ≤ sz (this s) →
   grown (max_sz (this s)) * Z.pos sizeof_T ≤ PTRDIFF_MAX) →
  push_back (ref_slot p) s = push_back (ref_object x) s ∧
  insert (ConstIterator.Make pos) (ref_slot p) s
  = insert (ConstIterator.Make pos) (ref_object x) s ∧
  ∃ s1 s2 it,
    push_back (ref_slot p) s = Ok tt s1 ∧ holds s1 (l ++ [x]) ∧
    insert (ConstIterator.Make pos) (ref_slot p) s = Ok it s2 ∧
    holds s2 (take (Z.to_nat k) l ++ x :: drop (Z.to_nat k) l).
Proof.
  intros Hs Hload Hout Hk Hpos Hfit.
  destruct (push_back_slot s l p x Hs Hload Hfit) as [Hval _].
  destruct (insert_slot_cases s l k pos p x Hs Hk Hpos Hload Hfit) as (Hins & _).
  destruct (push_back_ok s l x Hs Hfit) as (s1 & Hrun1 & Hs1 & _).
  destruct (insert_ok s l k pos x Hs Hk Hpos Hfit) as (s2 & q & Hrun2 & Hs2 & _).
  rewrite Hval by (by right). rewrite Hins by done.
  split_and!; [done..|]. by exists s1, s2, (Iterator.Make q).
Qed.

(** The capacity after the growth step and a tail that works in place. *)
Lemma grow_then_in_place_capacity {A} (s s' : state) (l : list T) (f : M A) (a : A) :
  holds s l →
  in_place f →
  ((if max_sz (this s) <=? sz (this s)
    then reallocate (grown (max_sz (this s))) else mret tt) ≫= λ _, f) s = Ok a s' →
  max_sz (this s') =
    if max_sz (this s) <=? sz (this s)
    then max_sz (this s) + max_sz (this s) / 2 + 1 else max_sz (this s).
Proof.
  intros Hs Hf Hrun. pose proof Hs as [Hsz Hcap Hlim Hbuf].
  pose proof (limit_lt _ Hlim). rewrite bind_unfold in Hrun.
  destruct (Z.leb_spec (max_sz (this s)) (sz (this s))) as [Hfull|Hroom].
  - destruct (reallocate _ s) as [[] s1|e1 s1|u] eqn:Hre; [|done..].
    apply (reallocate_shape s s1 l) in Hre as (_ & Hmax1 & _); [|done|].
    2:{ pose proof (grown_ge (max_sz (this s))). lia. }
    apply Hf in Hrun as (_ & _ & Hmax). rewrite Hmax, Hmax1.
    apply grown_small. lia.
  - rewrite mret_eq in Hrun. by apply Hf in Hrun as (_ & _ & Hmax).
Qed.

(** X30. Whatever its argument refers to, an object of the caller or a slot
    of any array, a [push_back] or [insert] that returns has left the
    capacity at [old + old / 2 + 1] when the container was full, and
    unchanged otherwise. *)
Theorem capacity_after_returning_call (s s' : state) (l : list T)
    (pos : ConstIterator.t) (el : const_reference) (it : Iterator.t) :
  holds s l →
  push_back el s = Ok tt s' ∨ insert pos el s = Ok it s' →
  max_sz (this s') =
    if max_sz (this s) <=? sz (this s)
    then max_sz (this s) + max_sz (this s) / 2 + 1 else max_sz (this s).
Proof.
  intros Hs [Hrun|Hrun].
  - eapply (grow_then_in_place_capacity s s' l _ tt Hs (in_place_push_back_tail el)).
    destruct s as [[n m v] h]. revert Hrun. unfold push_back. by run.
  - destruct s as [[n m v] h]. revert Hrun.
    unfold insert, begin_, ConstIterator_diff, Iterator_to_const. run.
    cbn [Iterator.ptr ConstIterator.ptr].
    destruct (ptr_diff (ConstIterator.ptr pos) v) as [d|]; [|done]. run.
    destruct (_ || _); [done|]. run. intros Hrun.
    by eapply (grow_then_in_place_capacity _ s' l _ it Hs
                 (in_place_insert_tail (size_wrap d) el)).
Qed.

End Vector.

Arguments Ok {T A} a s.
Arguments Throw {T A} e s.
Arguments Undefined {T A} u.

(** * Concrete runs, for [Vector<long>]-like elements of eight bytes *)

(** No object yet, empty heap. *)
Local Abbreviation start := (MkState (MkVector 0 0 nullptr) [] : @state Z).

(** The container [{1, 2, 3}], as the initialiser-list constructor leaves it:
    full, in block 0. *)
Local Abbreviation v123 := (MkVector 3 3 (Ptr 0 0) : @Vector).
Local Abbreviation full123 :=
  (MkState v123 [Some [Some 1; Some 2; Some 3]] : @state Z).

(** The elements [1, 2, 3] in an array of four slots. *)
Local Abbreviation a123 := (MkVector 3 4 (Ptr 0 0) : @Vector).
Local Abbreviation room123 :=
  (MkState a123 [Some [Some 1; Some 2; Some 3; None]] : @state Z).

Ltac concrete_repr :=
  split; cbn;
  [ reflexivity | lia | unfold PTRDIFF_MAX; lia
  | try (split; [reflexivity|]; eexists; split_and!;
         [reflexivity|reflexivity|];
         intros i x Hx;
         repeat (destruct i as [|i]; [cbn in Hx; by injection Hx as <-|]);
         done);
    try reflexivity ].

Lemma growth_policy_witness :
  ∃ s1 s2 it,
    push_back 8 (ref_object 4) full123 = Ok tt s1 ∧
    insert 8 (ConstIterator.Make (Ptr 0 1)) (ref_object 4) full123 = Ok it s2 ∧
    (sz v123 = max_sz v123 →
     max_sz (this s1) = 3 + 3 / 2 + 1 ∧ max_sz (this s2) = 3 + 3 / 2 + 1) ∧
    (sz v123 = max_sz v123 → max_sz v123 = 0 →
     max_sz (this s1) = 1 ∧ max_sz (this s2) = 1) ∧
    (sz v123 < max_sz v123 →
     max_sz (this s1) = 3 ∧ max_sz (this s2) = 3).
Proof.
  apply (growth_policy 8 full123 [1; 2; 3] 1 (Ptr 0 1) 4).
  - concrete_repr.
  - cbn. lia.
  - reflexivity.
  - intros _. by vm_compute.
Defined.

Lemma size_le_capacity_witness :
  0 ≤ sz (this (MkState (MkVector 1 1 (Ptr 0 0)) [Some [Some 7]] : @state Z))
    ≤ max_sz (this (MkState (MkVector 1 1 (Ptr 0 0)) [Some [Some 7]] : @state Z)).
Proof.
  apply (size_le_capacity 8).
  apply (reach_op 8 start (op_push_back 7)); [|reflexivity].
  by apply (reach_default 8 start).
Defined.

Lemma checked_access_witness :
  (sz v123 = 0 → pop_back full123 = Throw (runtime_error "Vector is empty") full123) ∧
  (sz v123 ≠ 0 →
   pop_back full123 =
   Ok tt (MkState (MkVector (3 - 1) 3 (Ptr 0 0)) [Some [Some 1; Some 2; Some 3]])) ∧
  (∀ i, 3 ≤ i →
        subscript i full123 = Throw (runtime_error "Vector out of bounds") full123) ∧
  (∀ i, 0 ≤ i < 3 →
        ∃ p, subscript i full123 = Ok p full123 ∧
             ptr_add (mem full123) (Ptr 0 0) i = Some p) ∧
  (∀ i e s', i < 3 → subscript i full123 ≠ Throw e s') ∧
  subscript 3 full123 = Throw (runtime_error "Vector out of bounds") full123.
Proof. apply (checked_access 8 full123 [1; 2; 3]). concrete_repr. Defined.

Lemma rejected_call_witness :
  start = start ∧ full123 = full123.
Proof.
  split.
  - apply (proj1 (rejected_call_changes_nothing 8 start start
                    (runtime_error "Vector is empty"))).
    reflexivity.
  - apply (proj1 (proj2 (proj2 (rejected_call_changes_nothing 8 full123 full123
                                  (runtime_error "Iterator out of bounds"))))
             (ConstIterator.Make (Ptr 0 4)) (ref_object 9)).
    reflexivity.
Defined.

Lemma copy_is_deep_witness :
  (∃ w s1,
     construct (Vector_copy 8 a123) (MkState (MkVector 0 0 nullptr) (mem room123))
       = Ok w s1 ∧
     sz w = 3 ∧ max_sz w = 4 ∧
     repr 8 w (mem s1) [1; 2; 3] ∧ repr 8 a123 (mem s1) [1; 2; 3] ∧
     ∀ o s2,
       run_op 8 o (MkState a123 (mem s1)) = Ok tt s2 ∨
       (∃ e, run_op 8 o (MkState a123 (mem s1)) = Throw e s2) →
       repr 8 w (mem s2) [1; 2; 3] ∧ sz w = Z.of_nat (length [1; 2; 3])) ∧
  (∃ s1,
     Vector_assign 8 a123 (MkState (MkVector 0 0 nullptr) (mem room123)) = Ok tt s1 ∧
     sz (this s1) = 3 ∧ max_sz (this s1) = 4 ∧
     holds 8 s1 [1; 2; 3] ∧ repr 8 a123 (mem s1) [1; 2; 3] ∧
     ∀ o s2,
       run_op 8 o (MkState a123 (mem s1)) = Ok tt s2 ∨
       (∃ e, run_op 8 o (MkState a123 (mem s1)) = Throw e s2) →
       repr 8 (this s1) (mem s2) [1; 2; 3] ∧
       sz (this s1) = Z.of_nat (length [1; 2; 3])).
Proof.
  apply (copy_is_deep 8 (MkState (MkVector 0 0 nullptr) (mem room123)) a123
           [1; 2; 3] []).
  - concrete_repr.
  - concrete_repr.
  - by right.
Defined.

(** The scenario of the specification: [B = A] with [A] holding [1, 2, 3],
    then [A.push_back(4)]; [B], in block 1, still reads [1, 2, 3], with the
    capacity [A] had. *)
Example assign_then_push_back :
  (Vector_assign 8 a123;; on_object a123 (push_back 8 (ref_object 4)))
    (MkState (MkVector 0 0 nullptr) (mem room123))
  = Ok (tt, MkVector 4 4 (Ptr 0 0))
      (MkState (MkVector 3 4 (Ptr 1 0))
         [Some [Some 1; Some 2; Some 3; Some 4];
          Some [Some 1; Some 2; Some 3; None]]).
Proof. reflexivity. Qed.

(** The first scenario of the specification up to its [insert]: three
    [push_back] give size 3 and capacity 4 (0, 1, 2, 4), then
    [insert(begin() + 1, 9)] gives [1, 9, 2, 3]. *)
Example push_back_then_insert :
  (Vector_default;; push_back 8 (ref_object 1);; push_back 8 (ref_object 2);;
   push_back 8 (ref_object 3)) start
    = Ok tt (MkState (MkVector 3 4 (Ptr 2 0))
               [None; None; Some [Some 1; Some 2; Some 3; None]]) ∧
  (Vector_default;; push_back 8 (ref_object 1);; push_back 8 (ref_object 2);;
   push_back 8 (ref_object 3);;
   insert 8 (ConstIterator.Make (Ptr 2 1)) (ref_object 9)) start
    = Ok (Iterator.Make (Ptr 2 1))
        (MkState (MkVector 4 4 (Ptr 2 0))
           [None; None; Some [Some 1; Some 9; Some 2; Some 3]]).
Proof. split; reflexivity. Qed.

(** C1, at a failing input.  [Vector<long> v; v.push_back(7);
    v.push_back(v[0]);]: the second call finds [sz == max_sz], [reallocate]
    copies the element to a new array and deletes the old one, and the
    assignment [values[sz++] = el] then reads [el], which refers to slot 0
    of the deleted array.  Likewise [v.push_back(v[0])] on the full
    container [{1, 2, 3}]. *)
Theorem push_back_reads_deleted_buffer :
  (Vector_default;; push_back 8 (ref_object 7);;
   el ← subscript 0; push_back 8 (ref_slot el)) start
    = Undefined (ReadOutOfBounds (Ptr 0 0)) ∧
  (el ← subscript 0; push_back 8 (ref_slot el)) full123
    = Undefined (ReadOutOfBounds (Ptr 0 0)).
Proof. split; reflexivity. Qed.

(** C4, at a failing input.  On the full container [{1, 2, 3}],
    [erase(begin())] reads [values[3]], the slot at offset [size()], which is
    past the end of the array; with a spare slot ([Vector(2)] after
    [push_back(1)]) the same read copies the indeterminate slot 1 over
    slot 0. *)
Theorem erase_reads_slot_at_size :
  erase (ConstIterator.Make (Ptr 0 0)) full123
    = Undefined (ReadOutOfBounds (Ptr 0 3)) ∧
  (Vector_n 8 2;; push_back 8 (ref_object 1);; b ← cbegin; erase b) start
    = Ok (Iterator.Make (Ptr 0 0))
        (MkState (MkVector 0 2 (Ptr 0 0)) [Some [None; None]]).
Proof. split; reflexivity. Qed.

(** C7, at a failing input.  On the full container [{1, 2, 3}],
    [v.insert(v.begin(), v[0])] returns no iterator: [reallocate] deletes
    the array [val] refers to before the assignment [values[current] = val]
    reads it.  Likewise [v.insert(v.begin() + 1, v[2])]. *)
Theorem insert_reads_deleted_buffer :
  (pos ← cbegin; val ← subscript 0; insert 8 pos (ref_slot val)) full123
    = Undefined (ReadOutOfBounds (Ptr 0 0)) ∧
  (val ← subscript 2; insert 8 (ConstIterator.Make (Ptr 0 1)) (ref_slot val)) full123
    = Undefined (ReadOutOfBounds (Ptr 0 2)).
Proof. split; reflexivity. Qed.

(** C8, at a failing input.  On the full container [{1, 2, 3}], [erase] at
    offset 0 followed by [insert] of the erased value has no defined result:
    the [erase] reads past the end of the array. *)
Theorem erase_insert_on_full_container :
  (b ← cbegin; it ← erase b; insert 8 (Iterator_to_const it) (ref_object 1)) full123
    = Undefined (ReadOutOfBounds (Ptr 0 3)) ∧
  (Vector_default;; push_back 8 (ref_object 1);; push_back 8 (ref_object 2);;
   push_back 8 (ref_object 3);;
   insert 8 (ConstIterator.Make (Ptr 2 1)) (ref_object 9);;
   b ← cbegin; erase b) start
    = Undefined (ReadOutOfBounds (Ptr 2 4)).
Proof. split; reflexivity. Qed.

(** Post-increment of [begin()] of [{1, 2, 3}]: the cursor moves to slot 1,
    the value returned is the null iterator. *)
Example post_increment_begin :
  Iterator_post_increment (Iterator.Make (Ptr 0 0)) full123
    = Ok (Iterator.default, Iterator.Make (Ptr 0 1)) full123 ∧
  Iterator_eq Iterator.default (ConstIterator.Make (Ptr 0 0)) = false.
Proof. split; reflexivity. Qed.

(** * Concrete runs of the further properties *)

(** Two containers in one heap: [{1, 2, 3}] in block 0 and [{7}] in
    block 1. *)
Local Abbreviation v7 := (MkVector 1 1 (Ptr 1 0) : @Vector).
Local Abbreviation two :=
  (MkState v123 [Some [Some 1; Some 2; Some 3]; Some [Some 7]] : @state Z).

Lemma render_elements_witness :
  render room123
  = Ok ([out_char "["%char] ++ separated [1; 2; 3] ++ [out_char "]"%char]) room123.
Proof. apply (render_elements 8 room123 [1; 2; 3]). concrete_repr. Defined.

Lemma reserve_exact_witness :
  (10 ≤ max_sz (this room123) → reserve 8 10 room123 = Ok tt room123) ∧
  (max_sz (this room123) < 10 → 10 * Z.pos 8 ≤ PTRDIFF_MAX →
   ∃ s', reserve 8 10 room123 = Ok tt s' ∧ holds 8 s' [1; 2; 3] ∧
         sz (this s') = sz (this room123) ∧ max_sz (this s') = 10) ∧
  (PTRDIFF_MAX < 10 * Z.pos 8 →
   reserve 8 10 room123 = Throw bad_array_new_length room123).
Proof. apply (reserve_exact 8 room123 [1; 2; 3] 10). concrete_repr. Defined.

Lemma shrink_to_fit_exact_witness :
  ∃ s',
    shrink_to_fit 8 room123 = Ok tt s' ∧
    holds 8 s' [1; 2; 3] ∧
    sz (this s') = sz (this room123) ∧
    max_sz (this s') = sz (this room123) ∧
    (sz (this room123) = max_sz (this room123) → s' = room123).
Proof. apply (shrink_to_fit_exact 8 room123 [1; 2; 3]). concrete_repr. Defined.

Lemma push_back_within_capacity_witness :
  ∃ s',
    push_back_all 8 [4] room123 = Ok tt s' ∧
    holds 8 s' ([1; 2; 3] ++ [4]) ∧
    size s' = Ok (Z.of_nat (length [1; 2; 3] + length [4])) s' ∧
    shape (mem s') = shape (mem room123) ∧
    values (this s') = values (this room123) ∧
    max_sz (this s') = max_sz (this room123).
Proof.
  apply (push_back_within_capacity 8 room123 [1; 2; 3] [4]).
  - concrete_repr.
  - cbn. lia.
Defined.

Lemma push_back_and_iterators_witness :
  ∃ s',
    push_back 8 (ref_object 4) full123 = Ok tt s' ∧
    (sz (this full123) < max_sz (this full123) →
     ∀ (i : nat) (x : Z),
       [1; 2; 3] !! i = Some x →
       Iterator_deref (Iterator.Make (Ptr 0 (Z.of_nat i))) s' = Ok (Some x) s') ∧
    (max_sz (this full123) ≤ sz (this full123) →
     ∀ off, Iterator_deref (Iterator.Make (Ptr 0 off)) s'
            = Undefined (ReadOutOfBounds (Ptr 0 off))).
Proof.
  apply (push_back_and_iterators 8 full123 [1; 2; 3] 4 0).
  - concrete_repr.
  - reflexivity.
  - intros _. by vm_compute.
Defined.

Lemma calls_do_not_leak_witness :
  allocation_effect full123
    (MkState (MkVector 4 5 (Ptr 1 0))
       [None; Some [Some 1; Some 2; Some 3; Some 4; None]]) ∧
  (False →
   shape [None; Some [Some 1; Some 2; Some 3; Some 4; None]] = shape (mem full123) ∧
   Ptr 1 0 = values (this full123) ∧
   5 = max_sz (this full123)).
Proof.
  apply (calls_do_not_leak 8 (op_push_back 4) full123
           (MkState (MkVector 4 5 (Ptr 1 0))
              [None; Some [Some 1; Some 2; Some 3; Some 4; None]]) [1; 2; 3]).
  - concrete_repr.
  - reflexivity.
Defined.

Lemma destructor_releases_buffer_witness :
  ∃ s',
    Vector_dtor full123 = Ok tt s' ∧
    this s' = this full123 ∧
    shape (mem s') = <[0%nat := false]> (shape (mem full123)) ∧
    (∀ b, values (this full123) ≠ Ptr b 0 → mem s' !! b = mem full123 !! b) ∧
    (values (this full123) ≠ nullptr →
     Vector_dtor s' = Undefined (InvalidDelete (values (this full123)))).
Proof. apply (destructor_releases_buffer 8 full123 [1; 2; 3]). concrete_repr. Defined.

Lemma assignment_releases_old_buffer_witness :
  ∃ s',
    Vector_assign 8 v7 two = Ok tt s' ∧
    values (this s') = Ptr (length (mem two)) 0 ∧
    shape (mem s') = <[0%nat := false]> (shape (mem two)) ++ [true] ∧
    ∀ b, (b < length (mem two))%nat → values (this two) ≠ Ptr b 0 →
         mem s' !! b = mem two !! b.
Proof.
  apply (assignment_releases_old_buffer 8 two v7 [1; 2; 3] [7]).
  - concrete_repr.
  - concrete_repr.
Defined.

Lemma self_assignment_witness :
  ∃ s',
    Vector_assign 8 (this full123) full123 = Ok tt s' ∧
    holds 8 s' [1; 2; 3] ∧
    sz (this s') = sz (this full123) ∧
    max_sz (this s') = max_sz (this full123).
Proof. apply (self_assignment 8 full123 [1; 2; 3]). concrete_repr. Defined.

Lemma source_survives_copy_mutation_witness :
  ∃ w s1,
    construct (Vector_copy 8 a123) room123 = Ok w s1 ∧
    repr 8 w (mem s1) [1; 2; 3] ∧
    ∀ o s2,
      run_op 8 o (MkState w (mem s1)) = Ok tt s2 ∨
      (∃ e, run_op 8 o (MkState w (mem s1)) = Throw e s2) →
      repr 8 a123 (mem s2) [1; 2; 3].
Proof. apply (source_survives_copy_mutation 8 room123 a123 [1; 2; 3]). concrete_repr. Defined.

Lemma insert_at_end_is_push_back_witness :
  ∃ e,
    cend full123 = Ok e full123 ∧
    match push_back 8 (ref_object 4) full123 with
    | Ok _ s1 =>
        ∃ it, insert 8 e (ref_object 4) full123 = Ok it s1 ∧
              ptr_add (mem s1) (values (this s1)) (sz (this full123))
              = Some (Iterator.ptr it)
    | Throw x s1 => insert 8 e (ref_object 4) full123 = Throw x s1
    | Undefined _ => False
    end.
Proof. apply (insert_at_end_is_push_back 8 full123 [1; 2; 3] 4). concrete_repr. Defined.

Lemma insert_elements_witness :
  ∃ s' it,
    insert 8 (ConstIterator.Make (Ptr 0 1)) (ref_object 9) room123 = Ok it s' ∧
    size s' = Ok (Z.of_nat (length [1; 2; 3]) + 1) s' ∧
    read_at (Z.of_nat 1) s' = Ok (Some 9) s' ∧
    ∀ (i : nat) (x : Z),
      [1; 2; 3] !! i = Some x →
      ((i < 1)%nat → read_at (Z.of_nat i) s' = Ok (Some x) s') ∧
      ((1 ≤ i)%nat → read_at (Z.of_nat (S i)) s' = Ok (Some x) s').
Proof.
  apply (insert_elements 8 room123 [1; 2; 3] 1 (Ptr 0 1) 9).
  - concrete_repr.
  - cbn. lia.
  - reflexivity.
  - cbn. lia.
Defined.

Lemma erase_elements_witness :
  ∃ s' e,
    erase (ConstIterator.Make (Ptr 0 0)) room123 = Ok (Iterator.Make (Ptr 0 0)) s' ∧
    size s' = Ok (Z.of_nat (length [1; 2; 3]) - 1) s' ∧
    max_sz (this s') = max_sz (this room123) ∧
    ptr_add (mem s') (values (this s')) (Z.of_nat 0) = Some (Ptr 0 0) ∧
    cend s' = Ok e s' ∧
    Iterator_eq (Iterator.Make (Ptr 0 0)) e = bool_decide (1%nat = length [1; 2; 3]) ∧
    ∀ (i : nat) (x : Z),
      [1; 2; 3] !! i = Some x →
      ((i < 0)%nat → read_at (Z.of_nat i) s' = Ok (Some x) s') ∧
      ((0 < i)%nat → read_at (Z.of_nat (pred i)) s' = Ok (Some x) s').
Proof.
  apply (erase_elements 8 room123 [1; 2; 3] 0 (Ptr 0 0)).
  - concrete_repr.
  - cbn. lia.
  - cbn. lia.
  - reflexivity.
Defined.

Lemma erase_on_full_container_witness :
  ∃ q,
    ptr_add (mem full123) (values (this full123)) (sz (this full123)) = Some q ∧
    erase (ConstIterator.Make (Ptr 0 1)) full123 = Undefined (ReadOutOfBounds q).
Proof.
  apply (erase_on_full_container 8 full123 [1; 2; 3] 1 (Ptr 0 1)).
  - concrete_repr.
  - cbn. lia.
  - reflexivity.
  - reflexivity.
Defined.

Lemma position_checks_witness :
  (insert 8 (ConstIterator.Make (Ptr 0 4)) (ref_object 9) full123
     = Throw (runtime_error "Iterator out of bounds") full123 ↔
   4 < 0 ∨ sz (this full123) < 4) ∧
  (erase (ConstIterator.Make (Ptr 0 4)) full123
     = Throw (runtime_error "Iterator out of bounds") full123 ↔
   4 < 0 ∨ sz (this full123) ≤ 4) ∧
  ∃ e, cend full123 = Ok e full123 ∧
       erase e full123 = Throw (runtime_error "Iterator out of bounds") full123.
Proof.
  apply (position_checks 8 full123 [1; 2; 3] (ConstIterator.Make (Ptr 0 4)) 4 9).
  - concrete_repr.
  - reflexivity.
Defined.

Lemma push_back_then_pop_back_witness :
  ∃ s1 s2,
    push_back 8 (ref_object 4) full123 = Ok tt s1 ∧
    pop_back s1 = Ok tt s2 ∧
    holds 8 s2 [1; 2; 3] ∧
    sz (this s2) = sz (this full123) ∧
    max_sz (this full123) ≤ max_sz (this s2).
Proof.
  apply (push_back_then_pop_back 8 full123 [1; 2; 3] 4).
  - concrete_repr.
  - intros _. by vm_compute.
Defined.

Lemma capacity_after_push_backs_witness :
  sz (MkVector 3 4 (Ptr 2 0)) = Z.of_nat (length [1; 2; 3]) ∧
  sz (MkVector 3 4 (Ptr 2 0)) ≤ max_sz (MkVector 3 4 (Ptr 2 0))
    ≤ sz (MkVector 3 4 (Ptr 2 0)) + sz (MkVector 3 4 (Ptr 2 0)) / 2 + 1.
Proof.
  apply (capacity_after_push_backs 8 start
           (MkState (MkVector 3 4 (Ptr 2 0))
              [None; None; Some [Some 1; Some 2; Some 3; None]]) [1; 2; 3]).
  reflexivity.
Defined.

Lemma iteration_reads_elements_witness :
  (b ← cbegin; e ← cend; traverse 5 b e) room123 = Ok (Some <$> [1; 2; 3]) room123.
Proof.
  apply (iteration_reads_elements 8 room123 [1; 2; 3] 5).
  - concrete_repr.
  - cbn. lia.
Defined.

Lemma iterator_range_witness :
  ∃ b e,
    begin_ room123 = Ok b room123 ∧
    cend room123 = Ok e room123 ∧
    ConstIterator_diff e (Iterator_to_const b) room123
      = Ok (Z.of_nat (length [1; 2; 3])) room123 ∧
    Iterator_eq b e = bool_decide ([1; 2; 3] = []).
Proof. apply (iterator_range 8 room123 [1; 2; 3]). concrete_repr. Defined.

Lemma write_through_subscript_witness :
  (0 ≤ 1 < sz (this room123) →
   ∃ s', write_at 1 9 room123 = Ok tt s' ∧
         holds 8 s' (<[Z.to_nat 1 := 9]> [1; 2; 3]) ∧
         shape (mem s') = shape (mem room123) ∧
         this s' = this room123) ∧
  (sz (this room123) ≤ 1 →
   write_at 1 9 room123 = Throw (runtime_error "Vector out of bounds") room123).
Proof. apply (write_through_subscript 8 room123 [1; 2; 3] 1 9). concrete_repr. Defined.

Lemma explicit_capacity_constructor_witness :
  ∃ s1 s',
    Vector_n 8 2 start = Ok tt s1 ∧
    empty s1 = Ok true s1 ∧
    max_sz (this s1) = 2 ∧
    shape (mem s1) = shape (mem start) ++ [true] ∧
    push_back_all 8 [1; 2] s1 = Ok tt s' ∧
    holds 8 s' [1; 2] ∧
    max_sz (this s') = 2 ∧
    values (this s') = values (this s1) ∧
    shape (mem s') = shape (mem s1).
Proof.
  apply (explicit_capacity_constructor 8 start 2 [1; 2]).
  - cbn. lia.
  - by vm_compute.
Defined.


Lemma initializer_list_constructor_witness :
  ∃ s',
    Vector_il 8 [1; 2; 3] start = Ok tt s' ∧
    holds 8 s' [1; 2; 3] ∧
    sz (this s') = Z.of_nat (length [1; 2; 3]) ∧
    max_sz (this s') = Z.of_nat (length [1; 2; 3]) ∧
    shape (mem s') = shape (mem start) ++ [true] ∧
    ∀ (i : nat) (x : Z),
      [1; 2; 3] !! i = Some x → read_at (Z.of_nat i) s' = Ok (Some x) s'.
Proof.
  apply (proj1 (initializer_list_constructor 8 start [1; 2; 3])). by vm_compute.
Defined.

Lemma erase_then_insert_restores_witness :
  ∃ s1 s2 it it',
    erase (ConstIterator.Make (Ptr 0 1)) room123 = Ok it s1 ∧
    insert 8 (Iterator_to_const it) (ref_object 2) s1 = Ok it' s2 ∧
    sz (this s2) = sz (this room123) ∧
    max_sz (this s2) = max_sz (this room123) ∧
    ∀ (i : nat) (y : Z),
      [1; 2; 3] !! i = Some y → read_at (Z.of_nat i) s2 = Ok (Some y) s2 ∧
                                read_at (Z.of_nat i) room123 = Ok (Some y) room123.
Proof.
  apply (erase_then_insert_restores 8 room123 [1; 2; 3] 1 2 (Ptr 0 1)).
  - concrete_repr.
  - reflexivity.
  - cbn. lia.
  - reflexivity.
Defined.

Lemma clear_keeps_capacity_witness :
  ∃ s1 s',
    clear room123 = Ok tt s1 ∧
    empty s1 = Ok true s1 ∧
    max_sz (this s1) = max_sz (this room123) ∧
    mem s1 = mem room123 ∧
    push_back_all 8 [5; 6] s1 = Ok tt s' ∧
    holds 8 s' [5; 6] ∧
    values (this s') = values (this room123) ∧
    max_sz (this s') = max_sz (this room123) ∧
    shape (mem s') = shape (mem room123).
Proof.
  apply (clear_keeps_capacity 8 room123 [1; 2; 3] [5; 6]).
  - concrete_repr.
  - cbn. lia.
Defined.

Lemma push_back_sequence_witness :
  ∃ s',
    (Vector_default;; push_back_all 8 [1; 2; 3]) start = Ok tt s' ∧
    size s' = Ok 3 s' ∧
    ∀ (i : nat) (x : Z),
      [1; 2; 3] !! i = Some x → read_at (Z.of_nat i) s' = Ok (Some x) s'.
Proof. apply (push_back_sequence 8 start [1; 2; 3]). by vm_compute. Defined.

Lemma insert_returns_position_witness :
  ∃ s' it b,
    insert 8 (ConstIterator.Make (Ptr 0 1)) (ref_object 9) full123 = Ok it s' ∧
    begin_ s' = Ok b s' ∧
    ptr_add (mem s') (Iterator.ptr b) 1 = Some (Iterator.ptr it) ∧
    Iterator_deref it s' = Ok (Some 9) s'.
Proof.
  apply (insert_returns_position 8 full123 [1; 2; 3] 1 (Ptr 0 1) 9).
  - concrete_repr.
  - cbn. lia.
  - reflexivity.
  - intros _. by vm_compute.
Defined.

Lemma push_back_of_element_witness :
  ∃ el,
    subscript (Z.of_nat 0) full123 = Ok el full123 ∧
    (sz (this full123) < max_sz (this full123) →
     ∃ s', push_back 8 (ref_slot el) full123 = Ok tt s' ∧
           holds 8 s' ([1; 2; 3] ++ [1]) ∧
           max_sz (this s') = max_sz (this full123)) ∧
    (max_sz (this full123) ≤ sz (this full123) →
     push_back 8 (ref_slot el) full123 = Undefined (ReadOutOfBounds el)).
Proof.
  apply (push_back_of_element 8 full123 [1; 2; 3] 0 1).
  - concrete_repr.
  - reflexivity.
  - intros _. by vm_compute.
Defined.

Lemma insert_of_element_witness :
  ∃ el,
    subscript (Z.of_nat 2) room123 = Ok el room123 ∧
    (sz (this room123) < max_sz (this room123) →
     ∃ y s' it,
       [1; 2; 3] !! (if decide (0 < 2)%nat then pred 2 else 2%nat) = Some y ∧
       insert 8 (ConstIterator.Make (Ptr 0 0)) (ref_slot el) room123 = Ok it s' ∧
       holds 8 s' (take 0 [1; 2; 3] ++ y :: drop 0 [1; 2; 3]) ∧
       read_at (Z.of_nat 0) s' = Ok (Some y) s') ∧
    (max_sz (this room123) ≤ sz (this room123) →
     insert 8 (ConstIterator.Make (Ptr 0 0)) (ref_slot el) room123
     = Undefined (ReadOutOfBounds el)).
Proof.
  apply (insert_of_element 8 room123 [1; 2; 3] 0 2 (Ptr 0 0) 3).
  - concrete_repr.
  - cbn. lia.
  - reflexivity.
  - reflexivity.
  - cbn. lia.
Defined.

(** [insert(begin(), v[2])] on [1, 2, 3] with a spare slot: the loop has
    moved the 2 into slot 2 when [val] is read, and the result is
    [2, 1, 2, 3]; [push_back(v[0])] there appends a 1. *)
Example insert_of_shifted_element :
  (pos ← cbegin; val ← subscript 2; insert 8 pos (ref_slot val)) room123
    = Ok (Iterator.Make (Ptr 0 0))
        (MkState (MkVector 4 4 (Ptr 0 0)) [Some [Some 2; Some 1; Some 2; Some 3]]) ∧
  (el ← subscript 0; push_back 8 (ref_slot el)) room123
    = Ok tt (MkState (MkVector 4 4 (Ptr 0 0)) [Some [Some 1; Some 2; Some 3; Some 1]]).
Proof. split; reflexivity. Qed.

Lemma element_of_another_array_witness :
  push_back 8 (ref_slot (Ptr 1 0)) two = push_back 8 (ref_object 7) two ∧
  insert 8 (ConstIterator.Make (Ptr 0 1)) (ref_slot (Ptr 1 0)) two
  = insert 8 (ConstIterator.Make (Ptr 0 1)) (ref_object 7) two ∧
  ∃ s1 s2 it,
    push_back 8 (ref_slot (Ptr 1 0)) two = Ok tt s1 ∧ holds 8 s1 ([1; 2; 3] ++ [7]) ∧
    insert 8 (ConstIterator.Make (Ptr 0 1)) (ref_slot (Ptr 1 0)) two = Ok it s2 ∧
    holds 8 s2 (take (Z.to_nat 1) [1; 2; 3] ++ 7 :: drop (Z.to_nat 1) [1; 2; 3]).
Proof.
  apply (element_of_another_array 8 two [1; 2; 3] 1 (Ptr 0 1) (Ptr 1 0) 7).
  - concrete_repr.
  - reflexivity.
  - cbn. lia.
  - cbn. lia.
  - reflexivity.
  - intros _. by vm_compute.
Defined.

Lemma capacity_after_returning_call_witness :
  max_sz (MkVector 4 4 (Ptr 0 0))
  = if max_sz (this room123) <=? sz (this room123)
    then max_sz (this room123) + max_sz (this room123) / 2 + 1
    else max_sz (this room123).
Proof.
  apply (capacity_after_returning_call 8 room123
           (MkState (MkVector 4 4 (Ptr 0 0)) [Some [Some 1; Some 2; Some 3; Some 1]])
           [1; 2; 3] (ConstIterator.Make nullptr) (ref_slot (Ptr 0 0))
           (Iterator.Make nullptr)).
  - concrete_repr.
  - by left.
Defined.
